(** * The Banker's Algorithm resource ledger

    A shallow embedding of [BankersAlgorithm.cpp] / [BankersAlgorithm.h]:
    the class [BankersAlgorithm] with its five vector fields and the member
    functions [setTotalResources], [setMaximum], [isSafe],
    [requestResources] and [releaseResources].

    C++ [int] values are integers in [Z]; an arithmetic result outside the
    32-bit range and a vector subscript outside the vector are behaviour
    the language leaves undefined, and the model reports them as
    [Undefined] rather than inventing a value.  Member functions are
    commands over the object: they receive the ledger and return a result
    with the ledger they leave behind.

    Around the ledger, the development covers the code of the simulation
    that uses it or stands beside it: in [main.cpp], the wrappers
    [initializeBankers], [acquireResource] and [releaseResource], the
    clock [MockTime], the traffic lights and the record of active
    challans; in [ProjectPhil.cpp], the counter of intersection slots
    with [processQueues], and the clock [MockDateTime]. *)

From stdpp Require Import base tactics option list list_numbers strings gmap.
From Stdlib Require Import ZArith Lia.

Local Open Scope Z_scope.

(** ** Outcomes and commands *)

Inductive outcome (A : Type) : Type :=
  | Ret (a : A)
  | Undefined
  | NoFuel.
Arguments Ret {A} a.
Arguments Undefined {A}.
Arguments NoFuel {A}.

(** The object the member functions work on. *)
Record BankersAlgorithm : Type := mkBankers {
  num_resources : Z;
  num_processes : Z;
  total_resources : list Z;
  available : list Z;
  maximum : list (list Z);
  allocation : list (list Z);
  need : list (list Z)
}.

Definition Cmd (A : Type) : Type := BankersAlgorithm -> outcome (A * BankersAlgorithm).

Definition ret {A} (a : A) : Cmd A := fun s => Ret (a, s).

Definition bind {A B} (c : Cmd A) (k : A -> Cmd B) : Cmd B :=
  fun s =>
    match c s with
    | Ret (a, s') => k a s'
    | Undefined => Undefined
    | NoFuel => NoFuel
    end.

Definition undefined {A} : Cmd A := fun _ => Undefined.
Definition no_fuel {A} : Cmd A := fun _ => NoFuel.

Declare Scope cmd_scope.
Delimit Scope cmd_scope with cmd.
Notation "x <- c ;; k" := (bind c (fun x => k))
  (at level 20, c at level 99, k at level 200, only parsing) : cmd_scope.
Notation "c ;; k" := (bind c (fun _ => k))
  (at level 100, k at level 200, right associativity, only parsing) : cmd_scope.
Local Open Scope cmd_scope.

(** ** Machine integers and vectors *)

Definition INT_MIN : Z := - 2 ^ 31.
Definition INT_MAX : Z := 2 ^ 31 - 1.

Definition is_int (z : Z) : bool := (INT_MIN <=? z) && (z <=? INT_MAX).

(** [a + b] and [a - b] on [int]. *)
Definition int_add (a b : Z) : Cmd Z :=
  if is_int (a + b) then ret (a + b) else undefined.

Definition int_sub (a b : Z) : Cmd Z :=
  if is_int (a - b) then ret (a - b) else undefined.

(** [v[i]] as an rvalue. *)
Definition at_ {A} (v : list A) (i : Z) : Cmd A :=
  if i <? 0 then undefined
  else match v !! Z.to_nat i with
       | Some x => ret x
       | None => undefined
       end.

(** [v[i] = f(v[i])]: the element is read, [f] computes the new value and
    the element is overwritten; the vector with that element replaced is
    returned. *)
Definition update_at {A} (v : list A) (i : Z) (f : A -> Cmd A) : Cmd (list A) :=
  x <- at_ v i ;;
  x' <- f x ;;
  ret (<[Z.to_nat i := x']> v).

(** ** Fields *)

Definition load {A} (field : BankersAlgorithm -> A) : Cmd A :=
  fun s => Ret (field s, s).

Definition store_total_resources (v : list Z) : Cmd unit :=
  fun s => Ret (tt, mkBankers (num_resources s) (num_processes s) v (available s)
                      (maximum s) (allocation s) (need s)).

Definition store_available (v : list Z) : Cmd unit :=
  fun s => Ret (tt, mkBankers (num_resources s) (num_processes s) (total_resources s) v
                      (maximum s) (allocation s) (need s)).

Definition store_maximum (m : list (list Z)) : Cmd unit :=
  fun s => Ret (tt, mkBankers (num_resources s) (num_processes s) (total_resources s)
                      (available s) m (allocation s) (need s)).

Definition store_allocation (m : list (list Z)) : Cmd unit :=
  fun s => Ret (tt, mkBankers (num_resources s) (num_processes s) (total_resources s)
                      (available s) (maximum s) m (need s)).

Definition store_need (m : list (list Z)) : Cmd unit :=
  fun s => Ret (tt, mkBankers (num_resources s) (num_processes s) (total_resources s)
                      (available s) (maximum s) (allocation s) m).

(** ** Loops *)

(** [for (int i = 0; i < n; ++i) body], the locals the body changes being
    threaded through as [a]. *)
Fixpoint for_each {A} (idx : list Z) (body : Z -> A -> Cmd A) (a : A) : Cmd A :=
  match idx with
  | [] => ret a
  | i :: rest => a' <- body i a ;; for_each rest body a'
  end.

Definition for_range {A} (n : Z) (body : Z -> A -> Cmd A) (a : A) : Cmd A :=
  for_each (seqZ 0 n) body a.

(** A [for] loop whose body leaves the loop at the first index where
    [test] holds ([return] or [break] inside an [if]); the result tells
    whether it did.  Indices after that one are not evaluated. *)
Fixpoint for_first (idx : list Z) (test : Z -> Cmd bool) : Cmd bool :=
  match idx with
  | [] => ret false
  | i :: rest => b <- test i ;; if b then ret true else for_first rest test
  end.

Definition exists_in_range (n : Z) (test : Z -> Cmd bool) : Cmd bool :=
  for_first (seqZ 0 n) test.

(** [while (cond) body] with a bound on the number of iterations. *)
Fixpoint while_ {A} (fuel : nat) (cond : A -> bool) (body : A -> Cmd A) (a : A) : Cmd A :=
  if cond a then
    match fuel with
    | O => no_fuel
    | S fuel' => a' <- body a ;; while_ fuel' cond body a'
    end
  else ret a.

(** ** The class *)

(** The constructor: every vector is built with the given size, filled with
    zeros.  A negative size makes [std::vector]'s constructor throw, and no
    object exists. *)
Definition BankersAlgorithm_new (resources processes : Z) : option BankersAlgorithm :=
  if (resources <? 0) || (processes <? 0) then None
  else
    let row := replicate (Z.to_nat resources) 0 in
    let matrix := replicate (Z.to_nat processes) row in
    Some (mkBankers resources processes row row matrix matrix matrix).

Definition setTotalResources (total : list Z) : Cmd unit :=
  store_total_resources total ;;
  store_available total.

Definition setMaximum (process : Z) (max_demand : list Z) : Cmd unit :=
  mx <- load maximum ;;
  mx' <- update_at mx process (fun _ => ret max_demand) ;;
  store_maximum mx' ;;
  n <- load num_resources ;;
  for_range n (fun i _ =>
    mx <- load maximum ;;
    mrow <- at_ mx process ;;
    m <- at_ mrow i ;;
    al <- load allocation ;;
    arow <- at_ al process ;;
    a <- at_ arow i ;;
    d <- int_sub m a ;;
    nd <- load need ;;
    nd' <- update_at nd process (fun row => update_at row i (fun _ => ret d)) ;;
    store_need nd') tt.

(** The locals of [isSafe]. *)
Record locals : Type := mkLocals {
  work : list Z;
  finish : list bool;
  progress : bool
}.

(** [need[p][r] > work[r]] *)
Definition lacks (p : Z) (w : list Z) (r : Z) : Cmd bool :=
  nd <- load need ;;
  nrow <- at_ nd p ;;
  n <- at_ nrow r ;;
  x <- at_ w r ;;
  ret (x <? n).

(** The body of the loop over [p] in [isSafe]. *)
Definition try_finish (p : Z) (l : locals) : Cmd locals :=
  f <- at_ (finish l) p ;;
  if f then ret l
  else
    n <- load num_resources ;;
    short <- exists_in_range n (lacks p (work l)) ;;
    let can_finish := negb short in
    if can_finish then
      w' <- for_range n (fun r w =>
              al <- load allocation ;;
              arow <- at_ al p ;;
              a <- at_ arow r ;;
              update_at w r (fun x => int_add x a)) (work l) ;;
      fin' <- update_at (finish l) p (fun _ => ret true) ;;
      ret (mkLocals w' fin' true)
    else ret l.

(** The body of the [while] loop in [isSafe]. *)
Definition scan_pass (l : locals) : Cmd locals :=
  n <- load num_processes ;;
  for_range n try_finish (mkLocals (work l) (finish l) false).

Definition isSafe_within (fuel : nat) : Cmd bool :=
  w <- load available ;;
  n <- load num_processes ;;
  l <- while_ fuel progress scan_pass (mkLocals w (replicate (Z.to_nat n) false) true) ;;
  ret (forallb id (finish l)).

(** The [while] loop is given one pass per role and one more; the part on
    the passes of [isSafe] shows that it never needs more. *)
Definition isSafe : Cmd bool :=
  n <- load num_processes ;;
  isSafe_within (S (Z.to_nat n)).

(** [available[r] -= q; allocation[process][r] += q; need[process][r] -= q]
    with [q] the [r]-th entry of [amount] (the body of the "try to
    allocate" loop), and the same with the signs swapped (the body of the
    rollback loop and of [releaseResources]). *)
Definition take (process : Z) (amount : list Z) (r : Z) : Cmd unit :=
  av <- load available ;;
  q <- at_ amount r ;;
  av' <- update_at av r (fun x => int_sub x q) ;;
  store_available av' ;;
  al <- load allocation ;;
  q <- at_ amount r ;;
  al' <- update_at al process (fun row => update_at row r (fun x => int_add x q)) ;;
  store_allocation al' ;;
  nd <- load need ;;
  q <- at_ amount r ;;
  nd' <- update_at nd process (fun row => update_at row r (fun x => int_sub x q)) ;;
  store_need nd'.

Definition give_back (process : Z) (amount : list Z) (r : Z) : Cmd unit :=
  av <- load available ;;
  q <- at_ amount r ;;
  av' <- update_at av r (fun x => int_add x q) ;;
  store_available av' ;;
  al <- load allocation ;;
  q <- at_ amount r ;;
  al' <- update_at al process (fun row => update_at row r (fun x => int_sub x q)) ;;
  store_allocation al' ;;
  nd <- load need ;;
  q <- at_ amount r ;;
  nd' <- update_at nd process (fun row => update_at row r (fun x => int_add x q)) ;;
  store_need nd'.

Definition requestResources (process : Z) (request : list Z) : Cmd bool :=
  n <- load num_resources ;;
  over_need <- exists_in_range n (fun r =>
                 q <- at_ request r ;;
                 nd <- load need ;;
                 nrow <- at_ nd process ;;
                 x <- at_ nrow r ;;
                 ret (x <? q)) ;;
  if over_need then ret false
  else
    over_available <- exists_in_range n (fun r =>
                        q <- at_ request r ;;
                        av <- load available ;;
                        x <- at_ av r ;;
                        ret (x <? q)) ;;
    if over_available then ret false
    else
      for_range n (fun r _ => take process request r) tt ;;
      safe <- isSafe ;;
      if safe then ret true
      else
        for_range n (fun r _ => give_back process request r) tt ;;
        ret false.

(** [allocation[process][r] -= q; available[r] += q; need[process][r] += q]
    with [q] the [r]-th entry of [release]: the body of the loop of
    [releaseResources]. *)
Definition free (process : Z) (release : list Z) (r : Z) : Cmd unit :=
  al <- load allocation ;;
  q <- at_ release r ;;
  al' <- update_at al process (fun row => update_at row r (fun x => int_sub x q)) ;;
  store_allocation al' ;;
  av <- load available ;;
  q <- at_ release r ;;
  av' <- update_at av r (fun x => int_add x q) ;;
  store_available av' ;;
  nd <- load need ;;
  q <- at_ release r ;;
  nd' <- update_at nd process (fun row => update_at row r (fun x => int_add x q)) ;;
  store_need nd'.

Definition releaseResources (process : Z) (release : list Z) : Cmd unit :=
  n <- load num_resources ;;
  for_range n (fun r _ => free process release r) tt.

(** ** Vocabulary of the properties *)

(** [v[r]] and [m[p]] as total functions, for statements about vectors
    whose shape is known. *)
Definition entry (v : list Z) (r : Z) : Z := default 0 (v !! Z.to_nat r).
Definition row (m : list (list Z)) (p : Z) : list Z := default [] (m !! Z.to_nat p).

Definition vadd (v d : list Z) : list Z := zip_with Z.add v d.
Definition vsub (v d : list Z) : list Z := zip_with Z.sub v d.

Definition all_int (v : list Z) : bool := forallb is_int v.

Definition has_shape (rows cols : Z) (m : list (list Z)) : bool :=
  (Z.of_nat (length m) =? rows) &&
  forallb (fun r => (Z.of_nat (length r) =? cols) && all_int r) m.

(** A ledger as the constructor builds it and the member functions keep
    it: one entry of [available] per resource kind, one row of
    [maximum], [allocation] and [need] per role, one entry per resource
    kind in the rows of [allocation] and [need], every entry an [int]. *)
Definition well_formed (s : BankersAlgorithm) : bool :=
  (0 <=? num_resources s) && (0 <=? num_processes s) &&
  (Z.of_nat (length (available s)) =? num_resources s) && all_int (available s) &&
  (Z.of_nat (length (maximum s)) =? num_processes s) &&
  has_shape (num_processes s) (num_resources s) (allocation s) &&
  has_shape (num_processes s) (num_resources s) (need s).

(** [well_formed], unfolded. *)
Record shaped (s : BankersAlgorithm) : Prop := {
  shaped_resources : 0 <= num_resources s;
  shaped_processes : 0 <= num_processes s;
  shaped_available : Z.of_nat (length (available s)) = num_resources s;
  shaped_available_int : all_int (available s) = true;
  shaped_maximum : Z.of_nat (length (maximum s)) = num_processes s;
  shaped_allocation : has_shape (num_processes s) (num_resources s) (allocation s) = true;
  shaped_need : has_shape (num_processes s) (num_resources s) (need s) = true
}.

Definition non_negative (m : list (list Z)) : bool :=
  forallb (forallb (fun x => 0 <=? x)) m.

(** [a[r] <= b[r]] for every resource kind [r]. *)
Definition le_all (n : Z) (a b : list Z) : bool :=
  forallb (fun r => entry a r <=? entry b r) (seqZ 0 n).

(** The two comparisons at the head of [requestResources] pass:
    [request <= need[p]] and [request <= available]. *)
Definition admissible (p : Z) (req : list Z) (s : BankersAlgorithm) : bool :=
  le_all (num_resources s) req (row (need s) p) &&
  le_all (num_resources s) req (available s).

(** The ledger after [available -= amount], [allocation[p] += amount],
    [need[p] -= amount]. *)
Definition granted (p : Z) (amount : list Z) (s : BankersAlgorithm) : BankersAlgorithm :=
  mkBankers (num_resources s) (num_processes s) (total_resources s)
    (vsub (available s) amount)
    (maximum s)
    (alter (fun r => vadd r amount) (Z.to_nat p) (allocation s))
    (alter (fun r => vsub r amount) (Z.to_nat p) (need s)).

(** The ledger after [allocation[p] -= amount], [available += amount],
    [need[p] += amount]. *)
Definition released (p : Z) (amount : list Z) (s : BankersAlgorithm) : BankersAlgorithm :=
  mkBankers (num_resources s) (num_processes s) (total_resources s)
    (vadd (available s) amount)
    (maximum s)
    (alter (fun r => vsub r amount) (Z.to_nat p) (allocation s))
    (alter (fun r => vadd r amount) (Z.to_nat p) (need s)).

(** The entries a grant or a release writes are [int]s. *)
Definition representable (p : Z) (s : BankersAlgorithm) : bool :=
  all_int (available s) && all_int (row (allocation s) p) && all_int (row (need s) p).

(** The ledger [setMaximum p md] leaves. *)
Definition with_maximum (p : Z) (md : list Z) (s : BankersAlgorithm) : BankersAlgorithm :=
  mkBankers (num_resources s) (num_processes s) (total_resources s) (available s)
    (<[Z.to_nat p := md]> (maximum s))
    (allocation s)
    (<[Z.to_nat p := vsub md (row (allocation s) p)]> (need s)).

(** A completion ordering: each role in turn has [need[p] <= work], where
    [work] starts as given and grows by [allocation[p]] when role [p]
    completes. *)
Definition fits (s : BankersAlgorithm) (p : Z) (w : list Z) : bool :=
  le_all (num_resources s) (row (need s) p) w.

Definition grow (s : BankersAlgorithm) (p : Z) (w : list Z) : list Z :=
  vadd w (row (allocation s) p).

Fixpoint completes (s : BankersAlgorithm) (w : list Z) (order : list Z) : bool :=
  match order with
  | [] => true
  | p :: rest => fits s p w && completes s (grow s p w) rest
  end.

Definition completion_order (s : BankersAlgorithm) (order : list Z) : Prop :=
  order ≡ₚ seqZ 0 (num_processes s) /\ completes s (available s) order = true.

Definition sumZ (l : list Z) : Z := foldr Z.add 0 l.

(** The units of resource kind [r] held by all roles together. *)
Definition allocated (s : BankersAlgorithm) (r : Z) : Z :=
  sumZ ((fun al => entry al r) <$> allocation s).

Definition conserved (s : BankersAlgorithm) : Prop :=
  forall r, 0 <= r < num_resources s ->
    entry (available s) r + allocated s r = entry (total_resources s) r.

(** No sum of [available] and allocations leaves the [int] range. *)
Definition headroom (s : BankersAlgorithm) : bool :=
  forallb (fun r => entry (available s) r + allocated s r <=? INT_MAX)
          (seqZ 0 (num_resources s)).

(** The calls a client makes once the totals are set. *)
Inductive call : Type :=
  | SetMaximum (process : Z) (max_demand : list Z)
  | Request (process : Z) (request : list Z)
  | Release (process : Z) (release : list Z).

Definition perform (c : call) : Cmd unit :=
  match c with
  | SetMaximum p md => setMaximum p md
  | Request p req => requestResources p req ;; ret tt
  | Release p rel => releaseResources p rel
  end.

Fixpoint perform_all (cs : list call) : Cmd unit :=
  match cs with
  | [] => ret tt
  | c :: rest => perform c ;; perform_all rest
  end.

(** The roles [isSafe] has not marked finished. *)
Definition unfinished (l : locals) : nat :=
  length (filter (fun f => f = false) (finish l)).

(** A command is [read_only] when it returns the ledger it was given. *)
Definition read_only {A} (c : Cmd A) : Prop :=
  forall s a s', c s = Ret (a, s') -> s' = s.

(** Commands that never run out of loop budget. *)
Definition budget_free {A} (c : Cmd A) : Prop := forall s, c s <> NoFuel.

(** ** Loops and invariants as functions and predicates *)

(** What one iteration of the allocation loop ([sign = 1]) and of the
    rollback and release loops ([sign = -1]) does to the ledger, as a
    function. *)
Definition move (p : Z) (amount : list Z) (sign : Z) (r : Z)
    (s : BankersAlgorithm) : BankersAlgorithm :=
  let q := sign * entry amount r in
  mkBankers (num_resources s) (num_processes s) (total_resources s)
    (alter (fun x => x - q) (Z.to_nat r) (available s))
    (maximum s)
    (alter (alter (fun x => x + q) (Z.to_nat r)) (Z.to_nat p) (allocation s))
    (alter (alter (fun x => x - q) (Z.to_nat r)) (Z.to_nat p) (need s)).

(** The entries that iteration reads exist, and the ones it writes are
    [int]s. *)
Definition movable (p : Z) (amount : list Z) (sign : Z) (r : Z)
    (s : BankersAlgorithm) : Prop :=
  0 <= r /\ 0 <= p /\
  exists q a arow al nrow nd,
    amount !! Z.to_nat r = Some q /\
    available s !! Z.to_nat r = Some a /\
    allocation s !! Z.to_nat p = Some arow /\ arow !! Z.to_nat r = Some al /\
    need s !! Z.to_nat p = Some nrow /\ nrow !! Z.to_nat r = Some nd /\
    INT_MIN <= a - sign * q <= INT_MAX /\
    INT_MIN <= al + sign * q <= INT_MAX /\
    INT_MIN <= nd - sign * q <= INT_MAX.

(** The ledger after the iterations [0 .. n-1] of a loop of [move]s. *)
Definition moved (p : Z) (amount : list Z) (sign : Z) (idx : list Z)
    (s : BankersAlgorithm) : BankersAlgorithm :=
  foldl (fun s r => move p amount sign r s) s idx.

(** A [for] loop whose iterations are functions of the locals and the
    ledger. *)
Definition run_steps {A} (step : Z -> A * BankersAlgorithm -> A * BankersAlgorithm)
    (idx : list Z) (st : A * BankersAlgorithm) : A * BankersAlgorithm :=
  foldl (fun st i => step i st) st idx.

(** [v[r] = h r (v[r])] for each [r] of [idx] in turn. *)
Definition alter_all (h : Z -> Z -> Z) (idx : list Z) (v : list Z) : list Z :=
  foldl (fun v r => alter (h r) (Z.to_nat r) v) v idx.

(** Properties of the ledger that every iteration of the allocation,
    rollback and release loops keeps. *)
Definition kept_by_moves (I : BankersAlgorithm -> Prop) : Prop :=
  forall p amount sign r s, movable p amount sign r s -> I s -> I (move p amount sign r s).

(** Properties of the ledger that do not look at [maximum] and [need]. *)
Definition blind_to_demand (I : BankersAlgorithm -> Prop) : Prop :=
  forall s mx nd,
    I s ->
    I (mkBankers (num_resources s) (num_processes s) (total_resources s) (available s)
         mx (allocation s) nd).

(** The ledger with another [need] matrix. *)
Definition with_need (m : list (list Z)) (s : BankersAlgorithm) : BankersAlgorithm :=
  mkBankers (num_resources s) (num_processes s) (total_resources s) (available s)
    (maximum s) (allocation s) m.

(** What one iteration of the loop of [setMaximum] does:
    [need[p][i] = md[i] - al[i]]. *)
Definition derive_need (p : Z) (md al : list Z) (i : Z)
    (s : BankersAlgorithm) : BankersAlgorithm :=
  with_need (alter (alter (fun _ => entry md i - entry al i) (Z.to_nat i)) (Z.to_nat p)
                   (need s)) s.

(** [finish[p]] *)
Definition finished (l : locals) (p : Z) : bool :=
  default false (finish l !! Z.to_nat p).

(** The allocations of the roles [qs] in resource kind [r], summed. *)
Definition held (s : BankersAlgorithm) (qs : list Z) (r : Z) : Z :=
  sumZ ((fun q => entry (row (allocation s) q) r) <$> qs).

(** [work] after the roles [qs] have completed in that order. *)
Definition work_after (s : BankersAlgorithm) (w : list Z) (qs : list Z) : list Z :=
  foldl (fun w q => grow s q w) w qs.

(** What [isSafe] maintains: the roles marked finished are those of a
    list [ended], which is the beginning of a completion ordering, and
    [work] is what that ordering has accumulated. *)
Record scan_inv (s : BankersAlgorithm) (ended : list Z) (l : locals) : Prop := {
  scan_work_length : Z.of_nat (length (work l)) = num_resources s;
  scan_finish_length : Z.of_nat (length (finish l)) = num_processes s;
  scan_ended_nodup : NoDup ended;
  scan_ended_range : Forall (fun q => 0 <= q < num_processes s) ended;
  scan_finished : forall q, 0 <= q < num_processes s ->
                    finished l q = bool_decide (q ∈ ended);
  scan_work : work l = work_after s (available s) ended;
  scan_work_int : all_int (work l) = true;
  scan_completes : completes s (available s) ended = true
}.

(** After a pass without progress no unfinished role fits. *)
Definition stuck (s : BankersAlgorithm) (roles : list Z) (l : locals) : Prop :=
  progress l = false ->
  forall q, q ∈ roles -> finished l q = true \/ fits s q (work l) = false.

(** ** Ledgers used as examples *)

(** The scenario of two roles and two resource kinds: totals [2,1],
    maxima [2,1] and [1,1], nothing allocated. *)
Definition two_roles : BankersAlgorithm :=
  mkBankers 2 2 [2; 1] [2; 1] [[2; 1]; [1; 1]] [[0; 0]; [0; 0]] [[2; 1]; [1; 1]].

Definition two_roles_setup : Cmd unit :=
  setTotalResources [2; 1] ;;
  setMaximum 0 [2; 1] ;;
  setMaximum 1 [1; 1].

(** The two-role scenario after both requests were granted. *)
Definition two_roles_granted : BankersAlgorithm :=
  mkBankers 2 2 [2; 1] [0; 0] [[2; 1]; [1; 1]] [[1; 0]; [1; 1]] [[1; 1]; [0; 0]].

(** A ledger where the only free unit must go to role 0: granting it to
    role 1 would leave nobody able to finish. *)
Definition contended : BankersAlgorithm :=
  mkBankers 1 2 [2] [1] [[2]; [2]] [[1]; [0]] [[1]; [2]].

(** A ledger where role 0 holds one unit and its maximum is one. *)
Definition holding_one : BankersAlgorithm :=
  mkBankers 1 1 [1] [0] [[1]] [[1]] [[0]].

(** A ledger in which role 0 holds a negative amount: it arises when role 0
    releases a unit it was never granted and role 1 is then granted that
    unit. *)
Definition overdrawn : BankersAlgorithm :=
  mkBankers 1 3 [0] [0] [[0]; [1]; [1]] [[-1]; [1]; [0]] [[1]; [0]; [1]].

(** ** Further vocabulary: shapes of calls, and the three matrices together *)

(** The role of a call is a role of the ledger and its vector has one
    entry per resource kind. *)
Definition fitting (resources processes : Z) (c : call) : bool :=
  match c with
  | SetMaximum p v | Request p v | Release p v =>
      (0 <=? p) && (p <? processes) && (Z.of_nat (length v) =? resources)
  end.

(** [need[p][r] = maximum[p][r] - allocation[p][r]] for every role and
    resource kind. *)
Definition demand_consistent (s : BankersAlgorithm) : Prop :=
  forall p r, 0 <= p < num_processes s -> 0 <= r < num_resources s ->
    entry (row (need s) p) r =
    entry (row (maximum s) p) r - entry (row (allocation s) p) r.

(** No role holds anything. *)
Definition nothing_allocated (s : BankersAlgorithm) : bool :=
  forallb (forallb (fun x => x =? 0)) (allocation s).

(** ** The coordinator of the simulation: one ledger for two semaphores

    [main.cpp] keeps one [BankersAlgorithm] object, [banker], for the two
    named semaphores the threads share, and wraps every wait and post in a
    call on it.  The ledger is the state of the commands below.  A
    semaphore is outside the ledger: what [sem_wait] returned is an
    argument, and [sem_post], whose result is only printed, leaves no
    trace. *)

Inductive ResourceType : Type := LANE_SEM | ACTIVE_VEHICLES_SEM | NUM_RESOURCE_TYPES.

Inductive ProcessID : Type :=
  | TRAFFIC_LIGHT_CONTROLLER | SPAWN_VEHICLES | SPEED_MANAGER | OUT_OF_ORDER
  | MOCK_TIME | CHALLAN_GENERATOR | STRIPE_PAYMENT | USER_PORTAL | NUM_PROCESSES.

(** The values of the enumerators. *)
Definition resource_number (res : ResourceType) : Z :=
  match res with LANE_SEM => 0 | ACTIVE_VEHICLES_SEM => 1 | NUM_RESOURCE_TYPES => 2 end.

Definition process_number (p : ProcessID) : Z :=
  match p with
  | TRAFFIC_LIGHT_CONTROLLER => 0 | SPAWN_VEHICLES => 1 | SPEED_MANAGER => 2
  | OUT_OF_ORDER => 3 | MOCK_TIME => 4 | CHALLAN_GENERATOR => 5
  | STRIPE_PAYMENT => 6 | USER_PORTAL => 7 | NUM_PROCESSES => 8
  end.

(** [BankersAlgorithm banker(NUM_RESOURCE_TYPES, NUM_PROCESSES);] *)
Definition banker : option BankersAlgorithm :=
  BankersAlgorithm_new (resource_number NUM_RESOURCE_TYPES) (process_number NUM_PROCESSES).

Definition initializeBankers : Cmd unit :=
  let total := [1; 1] in
  setTotalResources total ;;
  let max_demand := [1; 1] in
  for_range (process_number NUM_PROCESSES) (fun p _ => setMaximum p max_demand) tt.

(** [std::vector<int> v(NUM_RESOURCE_TYPES, 0); v[res] = 1;] *)
Definition one_unit (res : ResourceType) : Cmd (list Z) :=
  update_at (replicate (Z.to_nat (resource_number NUM_RESOURCE_TYPES)) 0)
            (resource_number res) (fun _ => ret 1).

Definition acquireResource (process : Z) (res : ResourceType) (sem_wait : Z) : Cmd bool :=
  request <- one_unit res ;;
  ok <- requestResources process request ;;
  if ok then
    match res with
    | LANE_SEM =>
        if sem_wait =? -1 then releaseResources process request ;; ret false
        else ret true
    | ACTIVE_VEHICLES_SEM =>
        if sem_wait =? -1 then releaseResources process request ;; ret false
        else ret true
    | NUM_RESOURCE_TYPES => ret true
    end
  else ret false.

Definition releaseResource (process : Z) (res : ResourceType) : Cmd unit :=
  release <- one_unit res ;;
  releaseResources process release.

(** The vector [one_unit] builds for one of the two semaphores. *)
Definition unit_of (res : ResourceType) : list Z :=
  <[Z.to_nat (resource_number res) := 1]>
    (replicate (Z.to_nat (resource_number NUM_RESOURCE_TYPES)) 0).

(** Role [p] holds a unit of something. *)
Definition holds (s : BankersAlgorithm) (p : Z) : bool :=
  existsb (fun x => negb (x =? 0)) (row (allocation s) p).

(** The ledgers the simulation's calls can leave.  Every method of the
    ledger locks its mutex, so the threads' calls happen one after the
    other, in any order; a release is made by a role for a unit it was
    granted. *)
Inductive reachable : BankersAlgorithm -> Prop :=
  | reachable_initial s0 s :
      banker = Some s0 -> initializeBankers s0 = Ret (tt, s) -> reachable s
  | reachable_request p res b s s' :
      reachable s ->
      0 <= p < process_number NUM_PROCESSES -> res <> NUM_RESOURCE_TYPES ->
      requestResources p (unit_of res) s = Ret (b, s') -> reachable s'
  | reachable_release p res u s s' :
      reachable s ->
      0 <= p < process_number NUM_PROCESSES -> res <> NUM_RESOURCE_TYPES ->
      1 <= entry (row (allocation s) p) (resource_number res) ->
      releaseResources p (unit_of res) s = Ret (u, s') -> reachable s'.

(** The ledger [initializeBankers] leaves. *)
Definition configured : BankersAlgorithm :=
  mkBankers 2 8 [1; 1] [1; 1] (replicate 8 [1; 1]) (replicate 8 [0; 0]) (replicate 8 [1; 1]).

(** The ledger in which role [p] alone holds the units [a]. *)
Definition held_by (p : Z) (a : list Z) : BankersAlgorithm :=
  mkBankers 2 8 [1; 1] (vsub [1; 1] a)
    (replicate 8 [1; 1])
    (<[Z.to_nat p := a]> (replicate 8 [0; 0]))
    (<[Z.to_nat p := vsub [1; 1] a]> (replicate 8 [1; 1])).

Definition exclusive_ledgers : list BankersAlgorithm :=
  configured ::
  flat_map (fun p => held_by p <$> [[1; 0]; [0; 1]; [1; 1]])
           (seqZ 0 (process_number NUM_PROCESSES)).

#[global] Instance BankersAlgorithm_eq_dec : EqDecision BankersAlgorithm.
Proof. solve_decision. Defined.

Definition both_semaphores : list ResourceType := [LANE_SEM; ACTIVE_VEHICLES_SEM].

(** Every request on a ledger of the list returns, and leaves a ledger of
    the list. *)
Definition closed_under_requests (ledgers : list BankersAlgorithm) : bool :=
  forallb (fun s =>
    forallb (fun p =>
      forallb (fun res =>
        match requestResources p (unit_of res) s with
        | Ret (_, s') => bool_decide (s' ∈ ledgers)
        | _ => false
        end) both_semaphores)
      (seqZ 0 (process_number NUM_PROCESSES)))
    ledgers.

(** So does every release of a unit that is held. *)
Definition closed_under_releases (ledgers : list BankersAlgorithm) : bool :=
  forallb (fun s =>
    forallb (fun p =>
      forallb (fun res =>
        if 1 <=? entry (row (allocation s) p) (resource_number res) then
          match releaseResources p (unit_of res) s with
          | Ret (_, s') => bool_decide (s' ∈ ledgers)
          | _ => false
          end
        else true) both_semaphores)
      (seqZ 0 (process_number NUM_PROCESSES)))
    ledgers.

(** At most one role holds anything. *)
Definition one_holder (s : BankersAlgorithm) : bool :=
  forallb (fun p =>
    forallb (fun q => implb (holds s p && holds s q) (p =? q))
            (seqZ 0 (process_number NUM_PROCESSES)))
    (seqZ 0 (process_number NUM_PROCESSES)).

(** While a role holds something, the requests of the others are denied. *)
Definition others_denied (ledgers : list BankersAlgorithm) : bool :=
  forallb (fun s =>
    forallb (fun p =>
      forallb (fun q =>
        forallb (fun res =>
          implb (holds s p && negb (p =? q))
            match requestResources q (unit_of res) s with
            | Ret (b, s') => negb b && bool_decide (s' = s)
            | _ => false
            end)
          both_semaphores)
        (seqZ 0 (process_number NUM_PROCESSES)))
      (seqZ 0 (process_number NUM_PROCESSES)))
    ledgers.

(** While no other role holds anything, a request for a unit the caller
    does not hold is granted. *)
Definition alone_granted (ledgers : list BankersAlgorithm) : bool :=
  forallb (fun s =>
    forallb (fun p =>
      forallb (fun res =>
        implb (forallb (fun q => (q =? p) || negb (holds s q))
                       (seqZ 0 (process_number NUM_PROCESSES)) &&
               (entry (row (allocation s) p) (resource_number res) =? 0))
          match requestResources p (unit_of res) s with
          | Ret (b, _) => b
          | _ => false
          end)
        both_semaphores)
      (seqZ 0 (process_number NUM_PROCESSES)))
    ledgers.

(** ** Code outside the ledger

    The rest of the simulation does not use the ledger's state.  Its
    functions are written over [outcome] directly: a function takes the
    variables it reads and returns the ones it writes. *)

Definition and_then {A B} (o : outcome A) (k : A -> outcome B) : outcome B :=
  match o with
  | Ret a => k a
  | Undefined => Undefined
  | NoFuel => NoFuel
  end.

Declare Scope outcome_scope.
Delimit Scope outcome_scope with outcome.
Notation "x <- c ;; k" := (and_then c (fun x => k))
  (at level 20, c at level 99, k at level 200, only parsing) : outcome_scope.

(** The value of an [int] expression: outside the range it is undefined. *)
Definition int_ (z : Z) : outcome Z := if is_int z then Ret z else Undefined.

(** *** [ProjectPhil.cpp]: the counter of intersection slots

    The second program of the repository lets vehicles into the
    intersection through a counter, [allocatedResources], bounded by
    [totalResources].  A vehicle is any type here: the code below moves
    vehicles and never looks inside one. *)
Module ProjectPhil.
Section vehicles.
Context {Vehicle : Type}.

Record LaneQueue : Type := mkLaneQueue {
  vehicles : list Vehicle;
  maxCapacity : Z
}.

(** The file's variables that the functions below use.  [laneQueues] is
    a [std::map] from lane names to queues: its entries in the order of
    iteration. *)
Record globals : Type := mkGlobals {
  totalResources : Z;
  allocatedResources : Z;
  laneQueues : list (String.string * LaneQueue);
  activeVehicles : list Vehicle
}.

Definition set_allocatedResources (a : Z) (g : globals) : globals :=
  mkGlobals (totalResources g) a (laneQueues g) (activeVehicles g).

Definition set_laneQueues (l : list (String.string * LaneQueue)) (g : globals) : globals :=
  mkGlobals (totalResources g) (allocatedResources g) l (activeVehicles g).

Definition set_activeVehicles (l : list Vehicle) (g : globals) : globals :=
  mkGlobals (totalResources g) (allocatedResources g) (laneQueues g) l.

Definition checkSafeState (g : globals) : outcome bool :=
  (next <- int_ (allocatedResources g + 1) ;;
   Ret (next <=? totalResources g))%outcome.

Definition requestResourceForVehicle (g : globals) : outcome (bool * globals) :=
  (safe <- checkSafeState g ;;
   if safe : bool then
     next <- int_ (allocatedResources g + 1) ;;
     Ret (true, set_allocatedResources next g)
   else Ret (false, g))%outcome.

Definition releaseResourceForVehicle (g : globals) : outcome globals :=
  if 0 <? allocatedResources g then
    (next <- int_ (allocatedResources g - 1) ;;
     Ret (set_allocatedResources next g))%outcome
  else Ret g.

(** The [while] loop of [processQueues] on one lane: every iteration
    that does not leave the loop takes the vehicle at the front of the
    queue, so the loop is a recursion on the queue.  It returns the
    vehicles left in the queue. *)
Fixpoint drain (queue : list Vehicle) (g : globals) : outcome (list Vehicle * globals) :=
  match queue with
  | [] => Ret ([], g)
  | front :: rest =>
      if Z.of_nat (length (activeVehicles g)) <? 50 then
        (r <- requestResourceForVehicle g ;;
         if r.1 : bool then
           drain rest (set_activeVehicles (activeVehicles r.2 ++ [front]) r.2)
         else Ret (queue, r.2))%outcome
      else Ret (queue, g)
  end.

(** [for (auto &lane : laneQueues)] *)
Fixpoint serve (lanes : list (String.string * LaneQueue)) (g : globals)
    : outcome (list (String.string * LaneQueue) * globals) :=
  match lanes with
  | [] => Ret ([], g)
  | (name, lane) :: rest =>
      (r <- drain (vehicles lane) g ;;
       r' <- serve rest r.2 ;;
       Ret ((name, mkLaneQueue r.1 (maxCapacity lane)) :: r'.1, r'.2))%outcome
  end.

(** [processQueues], given what the two calls of [sem_wait] return. *)
Definition processQueues (wait_lane wait_active : Z) (g : globals) : outcome globals :=
  if wait_lane =? -1 then Ret g
  else if wait_active =? -1 then Ret g
  else (r <- serve (laneQueues g) g ;; Ret (set_laneQueues r.1 r.2))%outcome.

(** The end of [handleCollisionsAndCleanup]: [std::remove_if] applies its
    predicate once to every active vehicle, in order; the predicate
    releases a slot for a vehicle that is off the screen, and those
    vehicles are erased.  Where a vehicle is on the screen is an
    argument. *)
Fixpoint leave (offScreen : Vehicle -> bool) (vs : list Vehicle) (g : globals)
    : outcome (list Vehicle * globals) :=
  match vs with
  | [] => Ret ([], g)
  | veh :: rest =>
      if offScreen veh then
        (g1 <- releaseResourceForVehicle g ;; leave offScreen rest g1)%outcome
      else
        (r <- leave offScreen rest g ;; Ret (veh :: r.1, r.2))%outcome
  end.

Definition removeOffScreen (offScreen : Vehicle -> bool) (g : globals) : outcome globals :=
  (r <- leave offScreen (activeVehicles g) g ;;
   Ret (set_activeVehicles r.1 r.2))%outcome.

(** Lane [after] is lane [before] less the vehicles [taken] from its
    front. *)
Definition took (taken : list Vehicle) (before after : String.string * LaneQueue) : Prop :=
  after.1 = before.1 /\ maxCapacity after.2 = maxCapacity before.2 /\
  vehicles before.2 = taken ++ vehicles after.2.

(** The states of the program: [processQueues] and the removal run any
    number of times, in any order; between them the spawner changes the
    lane queues and the other threads change the vehicles on the road,
    not their number. *)
Inductive reachable : globals -> Prop :=
  | reachable_start lanes : reachable (mkGlobals 2 0 lanes [])
  | reachable_processQueues w1 w2 g g' :
      reachable g -> processQueues w1 w2 g = Ret g' -> reachable g'
  | reachable_removeOffScreen offScreen g g' :
      reachable g -> removeOffScreen offScreen g = Ret g' -> reachable g'
  | reachable_spawn lanes g :
      reachable g -> reachable (set_laneQueues lanes g)
  | reachable_drive vs g :
      reachable g -> length vs = length (activeVehicles g) ->
      reachable (set_activeVehicles vs g).

End vehicles.
Arguments LaneQueue : clear implicits.
Arguments globals : clear implicits.
End ProjectPhil.

(** A [while] loop outside the ledger, bounded like [while_]. *)
Fixpoint while_do {A} (fuel : nat) (cond : A -> bool) (body : A -> outcome A) (a : A)
    : outcome A :=
  if cond a then
    match fuel with
    | O => NoFuel
    | S fuel' => and_then (body a) (while_do fuel' cond body)
    end
  else Ret a.

(** *** [main.cpp]: the simulated clock

    [%] is the remainder of the division that rounds towards zero. *)
Module MockTime.

Record t : Type := mk { hour : Z; minute : Z }.

(** [int hour = 0; int minute = 0;] *)
Definition initial : t := mk 0 0.

(** One iteration of the loop: [minute -= 60; hour = (hour + 1) % 24;]. *)
Definition carry (c : t) : outcome t :=
  (m <- int_ (minute c - 60) ;;
   h <- int_ (hour c + 1) ;;
   Ret (mk (Z.rem h 24) m))%outcome.

(** The loop takes sixty minutes off [minute] at every turn, so
    [minute] turns are more than it makes. *)
Definition incrementTime (minutes : Z) (c : t) : outcome t :=
  (m <- int_ (minute c + minutes) ;;
   while_do (Z.to_nat m) (fun c => 60 <=? minute c) carry (mk (hour c) m))%outcome.

Definition isPeakHours (c : t) : bool :=
  ((7 <=? hour c) && (hour c <=? 9)) || ((16 <=? hour c) && (hour c <=? 19)).

(** [mockTimeThread] calls [incrementTime(1)] once a minute. *)
Fixpoint ticks (n : nat) (c : t) : outcome t :=
  match n with
  | O => Ret c
  | S n' => and_then (incrementTime 1 c) (ticks n')
  end.

(** A time of day, and the minutes since midnight. *)
Definition valid (c : t) : Prop := 0 <= hour c < 24 /\ 0 <= minute c < 60.

Definition minute_of_day (c : t) : Z := 60 * hour c + minute c.

End MockTime.

(** *** [ProjectPhil.cpp]: the simulated clock of the second program *)
Module MockDateTime.

Record t : Type := mk { hour : Z; minute : Z }.

(** [int hour = 7; int minute = 0;] *)
Definition initial : t := mk 7 0.

Definition incrementTime (seconds : Z) (c : t) : outcome t :=
  (m <- int_ (minute c + Z.quot seconds 60) ;;
   c1 <- (if 60 <=? m then
            h <- int_ (hour c + Z.quot m 60) ;;
            Ret (mk h (Z.rem m 60))
          else Ret (mk (hour c) m)) ;;
   Ret (if 24 <=? hour c1 then mk (Z.rem (hour c1) 24) (minute c1) else c1))%outcome.

Definition isPeakHours (c : t) : bool :=
  if ((7 <? hour c) && (hour c <? 9)) || ((hour c =? 7) && (0 <=? minute c)) ||
     ((hour c =? 9) && (minute c <=? 30)) ||
     ((16 <? hour c) && (hour c <? 20)) || ((hour c =? 16) && (30 <=? minute c)) ||
     ((hour c =? 20) && (minute c <=? 30))
  then true else false.

Definition valid (c : t) : Prop := 0 <= hour c < 24 /\ 0 <= minute c < 60.

Definition minute_of_day (c : t) : Z := 60 * hour c + minute c.

End MockDateTime.

(** *** [main.cpp]: the traffic lights

    [trafficLights] is a [std::map] from the name of a direction to its
    light.  Of the SFML circle a light carries, its radius, position and
    fill colour are kept; the [float] literals of the source are whole
    numbers. *)
Module TrafficLights.
Local Open Scope string_scope.



















End TrafficLights.

(** *** [main.cpp]: the record of active challans

    [activeChallans] maps a vehicle's identifier to whether it has an
    unpaid challan.  The generator and the portal are processes of their
    own, each with its copy of the map; a message queue is an argument
    (what was received, what [mq_send] returned) or a result (what was
    sent). *)
Module Challans.

Record ChallanUpdateMsg : Type := mkChallanUpdateMsg { vehicleID : string; paid : bool }.

Record PaymentMsg : Type := mkPaymentMsg { payment_vehicleID : string; payment_paid : bool }.

(** [strncpy(dst, src, sizeof(dst) - 1); dst[sizeof(dst) - 1] = 0] into
    a buffer of 32 characters. *)
Definition copy_id (s : string) : string := String.substring 0 31 s.

(** [activeChallans.find(id) != activeChallans.end()] and, if so,
    [activeChallans[id]]. *)
Definition found_active (id : string) (activeChallans : gmap string bool) : bool :=
  match activeChallans !! id with
  | Some active => active
  | None => false
  end.

(** What the generator does with one violation it received: the challan
    it delivered if it delivered one, and the map. *)
Definition on_violation (id : string) (mq_send : Z) (activeChallans : gmap string bool)
    : option ChallanUpdateMsg * gmap string bool :=
  let alreadyChallaned := found_active id activeChallans in
  if negb alreadyChallaned then
    let challanMsg := mkChallanUpdateMsg (copy_id id) false in
    if mq_send =? -1 then (None, activeChallans)
    else (Some challanMsg, <[id := true]> activeChallans)
  else (None, activeChallans).

(** The loop of [challanGeneratorProcess] over the violations it
    receives, each with what [mq_send] returns for it: the vehicles it
    reports a challan issued to, in order, and the map. *)
Fixpoint challanGeneratorProcess (received : list (string * Z))
    (activeChallans : gmap string bool) : list string * gmap string bool :=
  match received with
  | [] => ([], activeChallans)
  | (id, mq_send) :: rest =>
      let r := on_violation id mq_send activeChallans in
      let r' := challanGeneratorProcess rest r.2 in
      (match r.1 with Some _ => id :: r'.1 | None => r'.1 end, r'.2)
  end.

(** The portal's variables. *)
Record portal : Type := mkPortal {
  activeChallans : gmap string bool;
  totalChallansPaid : Z
}.

(** Choice 2 of the portal, for the identifier typed in: the payment
    delivered to the payment process, if any. *)
Definition pay_challan (vid : string) (mq_send : Z) (p : portal) : option PaymentMsg :=
  let challanExists := found_active vid (activeChallans p) in
  if challanExists then
    let paymentMsg := mkPaymentMsg (copy_id vid) true in
    if mq_send =? -1 then None else Some paymentMsg
  else None.

(** The portal's handling of a challan update it received. *)
Definition on_update (msg : ChallanUpdateMsg) (p : portal) : outcome portal :=
  if paid msg then
    (total <- int_ (totalChallansPaid p + 1) ;;
     Ret (mkPortal (<[vehicleID msg := false]> (activeChallans p)) total))%outcome
  else Ret p.

(** What the portal does in a turn of its loop, as far as the map goes. *)
Inductive portal_event : Type :=
  | Pay (vid : string) (mq_send : Z)
  | Update (msg : ChallanUpdateMsg).

(** The payments the portal delivers over a sequence of events. *)
Fixpoint userPortalProcess (events : list portal_event) (p : portal)
    : outcome (list PaymentMsg * portal) :=
  match events with
  | [] => Ret ([], p)
  | Pay vid mq_send :: rest =>
      (r <- userPortalProcess rest p ;;
       Ret (match pay_challan vid mq_send p with
            | Some m => m :: r.1
            | None => r.1
            end, r.2))%outcome
  | Update msg :: rest =>
      (p' <- on_update msg p ;; userPortalProcess rest p')%outcome
  end.

End Challans.

(** ** Reasoning about commands *)

Lemma bind_Ret {A B} (c : Cmd A) (k : A -> Cmd B) s b s' :
  bind c k s = Ret (b, s') <->
  exists a s1, c s = Ret (a, s1) /\ k a s1 = Ret (b, s').
Proof.
  unfold bind. split.
  - destruct (c s) as [[a s1]| |]; [|discriminate..]. eauto.
  - intros (a & s1 & -> & Hk). exact Hk.
Qed.

Lemma ret_Ret {A} (a b : A) s s' : ret a s = Ret (b, s') <-> b = a /\ s' = s.
Proof. unfold ret. split; [intros [= <- <-] | intros [-> ->]]; done. Qed.

Lemma load_Ret {A} (f : BankersAlgorithm -> A) b s s' :
  load f s = Ret (b, s') <-> b = f s /\ s' = s.
Proof. unfold load. split; [intros [= <- <-] | intros [-> ->]]; done. Qed.

Lemma is_int_true z : is_int z = true <-> INT_MIN <= z <= INT_MAX.
Proof. unfold is_int. rewrite andb_true_iff, !Z.leb_le. done. Qed.

Lemma int_add_Ret a b x s s' :
  int_add a b s = Ret (x, s') <-> x = a + b /\ INT_MIN <= a + b <= INT_MAX /\ s' = s.
Proof.
  unfold int_add. rewrite <- is_int_true.
  destruct (is_int (a + b)); unfold ret, undefined; split.
  - intros [= <- <-]. done.
  - intros (-> & _ & ->). done.
  - discriminate.
  - intros (_ & ? & _). discriminate.
Qed.

Lemma int_sub_Ret a b x s s' :
  int_sub a b s = Ret (x, s') <-> x = a - b /\ INT_MIN <= a - b <= INT_MAX /\ s' = s.
Proof.
  unfold int_sub. rewrite <- is_int_true.
  destruct (is_int (a - b)); unfold ret, undefined; split.
  - intros [= <- <-]. done.
  - intros (-> & _ & ->). done.
  - discriminate.
  - intros (_ & ? & _). discriminate.
Qed.

Lemma at_Ret {A} (v : list A) i x s s' :
  at_ v i s = Ret (x, s') <-> 0 <= i /\ v !! Z.to_nat i = Some x /\ s' = s.
Proof.
  unfold at_. destruct (Z.ltb_spec i 0) as [Hi|Hi].
  - split; [discriminate | lia].
  - destruct (v !! Z.to_nat i) as [y|]; unfold ret, undefined; split.
    + intros [= <- <-]. done.
    + intros (_ & [= ->] & ->). done.
    + discriminate.
    + intros (_ & ? & _). discriminate.
Qed.

Lemma undefined_Ret {A} (x : A) s s' : undefined s = Ret (x, s') <-> False.
Proof. unfold undefined. split; [discriminate | done]. Qed.

Lemma update_at_Ret {A} (v : list A) i f v' s s' :
  update_at v i f s = Ret (v', s') <->
  exists x x', 0 <= i /\ v !! Z.to_nat i = Some x /\ f x s = Ret (x', s') /\
               v' = <[Z.to_nat i := x']> v.
Proof.
  unfold update_at. rewrite bind_Ret. split.
  - intros (x & s1 & Hat & Hk). apply at_Ret in Hat as (Hi & Hx & ->).
    apply bind_Ret in Hk as (x' & s2 & Hf & Hr). apply ret_Ret in Hr as [-> ->].
    eauto 10.
  - intros (x & x' & Hi & Hx & Hf & ->). exists x, s. split.
    + apply at_Ret. done.
    + apply bind_Ret. exists x', s'. split; [done|]. by apply ret_Ret.
Qed.

Lemma read_only_ret {A} (a : A) : read_only (ret a).
Proof. intros s b s' H. by apply ret_Ret in H as [_ ->]. Qed.

Lemma read_only_undefined {A} : read_only (@undefined A).
Proof. intros s b s' H. discriminate. Qed.

Lemma read_only_no_fuel {A} : read_only (@no_fuel A).
Proof. intros s b s' H. discriminate. Qed.

Lemma read_only_load {A} (f : BankersAlgorithm -> A) : read_only (load f).
Proof. intros s b s' H. by apply load_Ret in H as [_ ->]. Qed.

Lemma read_only_bind {A B} (c : Cmd A) (k : A -> Cmd B) :
  read_only c -> (forall a, read_only (k a)) -> read_only (bind c k).
Proof.
  intros Hc Hk s b s' H. apply bind_Ret in H as (a & s1 & H1 & H2).
  apply Hc in H1 as ->. by apply Hk in H2.
Qed.

Lemma read_only_if {A} (b : bool) (c1 c2 : Cmd A) :
  read_only c1 -> read_only c2 -> read_only (if b then c1 else c2).
Proof. by destruct b. Qed.

Lemma read_only_at {A} (v : list A) i : read_only (at_ v i).
Proof. intros s b s' H. by apply at_Ret in H as (_ & _ & ->). Qed.

Lemma read_only_int_add a b : read_only (int_add a b).
Proof. intros s x s' H. by apply int_add_Ret in H as (_ & _ & ->). Qed.

Lemma read_only_int_sub a b : read_only (int_sub a b).
Proof. intros s x s' H. by apply int_sub_Ret in H as (_ & _ & ->). Qed.

Lemma read_only_update_at {A} (v : list A) i f :
  (forall x, read_only (f x)) -> read_only (update_at v i f).
Proof.
  intros Hf. unfold update_at.
  apply read_only_bind; [apply read_only_at|]. intros x.
  apply read_only_bind; [apply Hf|]. intros x'. apply read_only_ret.
Qed.

Lemma read_only_for_each {A} idx (body : Z -> A -> Cmd A) a :
  (forall i x, read_only (body i x)) -> read_only (for_each idx body a).
Proof.
  intros Hb. revert a. induction idx as [|i rest IH]; intros a; simpl.
  - apply read_only_ret.
  - apply read_only_bind; [apply Hb | intros a'; apply IH].
Qed.

Lemma read_only_for_first idx test :
  (forall i, read_only (test i)) -> read_only (for_first idx test).
Proof.
  intros Ht. induction idx as [|i rest IH]; simpl.
  - apply read_only_ret.
  - apply read_only_bind; [apply Ht|]. intros b.
    apply read_only_if; [apply read_only_ret | apply IH].
Qed.

Lemma read_only_while {A} fuel cond (body : A -> Cmd A) a :
  (forall x, read_only (body x)) -> read_only (while_ fuel cond body a).
Proof.
  intros Hb. revert a. induction fuel as [|fuel IH]; intros a; simpl.
  - apply read_only_if; [apply read_only_no_fuel | apply read_only_ret].
  - apply read_only_if; [|apply read_only_ret].
    apply read_only_bind; [apply Hb | intros a'; apply IH].
Qed.

Create HintDb read_only.
#[local] Hint Resolve read_only_ret read_only_undefined read_only_no_fuel read_only_load
  read_only_at read_only_int_add read_only_int_sub : read_only.
#[local] Hint Extern 2 (read_only (bind _ _)) =>
  apply read_only_bind; [|intros ?] : read_only.
#[local] Hint Extern 2 (read_only (if _ then _ else _)) =>
  apply read_only_if : read_only.
#[local] Hint Extern 2 (read_only (update_at _ _ _)) =>
  apply read_only_update_at; intros ? : read_only.
#[local] Hint Extern 2 (read_only (for_each _ _ _)) =>
  apply read_only_for_each; intros ? ? : read_only.
#[local] Hint Extern 2 (read_only (for_range _ _ _)) =>
  apply read_only_for_each; intros ? ? : read_only.
#[local] Hint Extern 2 (read_only (for_first _ _)) =>
  apply read_only_for_first; intros ? : read_only.
#[local] Hint Extern 2 (read_only (exists_in_range _ _)) =>
  apply read_only_for_first; intros ? : read_only.
#[local] Hint Extern 2 (read_only (while_ _ _ _ _)) =>
  apply read_only_while; intros ? : read_only.

Lemma read_only_lacks p w r : read_only (lacks p w r).
Proof. unfold lacks. auto 10 with read_only. Qed.
#[local] Hint Resolve read_only_lacks : read_only.

Lemma read_only_try_finish p l : read_only (try_finish p l).
Proof. unfold try_finish. auto 20 with read_only. Qed.
#[local] Hint Resolve read_only_try_finish : read_only.

Lemma read_only_scan_pass l : read_only (scan_pass l).
Proof. unfold scan_pass. auto 10 with read_only. Qed.
#[local] Hint Resolve read_only_scan_pass : read_only.

Lemma read_only_isSafe_within fuel : read_only (isSafe_within fuel).
Proof. unfold isSafe_within. auto 10 with read_only. Qed.
#[local] Hint Resolve read_only_isSafe_within : read_only.

Lemma read_only_isSafe : read_only isSafe.
Proof. unfold isSafe. auto with read_only. Qed.

Ltac inv_cmd :=
  repeat match goal with
  | H : bind _ _ _ = Ret _ |- _ =>
      let a := fresh "a" in let s := fresh "s" in let H1 := fresh "H" in
      apply bind_Ret in H as (a & s & H1 & H); cbv beta in H
  | H : ret _ _ = Ret _ |- _ => apply ret_Ret in H as [? ?]; subst
  | H : load _ _ = Ret _ |- _ => apply load_Ret in H as [? ?]; subst
  | H : at_ _ _ _ = Ret _ |- _ => apply at_Ret in H as (? & ? & ?); subst
  | H : int_add _ _ _ = Ret _ |- _ => apply int_add_Ret in H as (? & ? & ?); subst
  | H : int_sub _ _ _ = Ret _ |- _ => apply int_sub_Ret in H as (? & ? & ?); subst
  | H : undefined _ = Ret _ |- _ => discriminate H
  | H : no_fuel _ = Ret _ |- _ => discriminate H
  | H : update_at _ _ _ _ = Ret _ |- _ =>
      let x := fresh "x" in let x' := fresh "x" in let H1 := fresh "H" in
      apply update_at_Ret in H as (x & x' & ? & ? & H1 & ?); cbv beta in H1
  | H : store_available _ _ = Ret _ |- _ =>
      unfold store_available in H; injection H as ? ?; subst
  | H : store_allocation _ _ = Ret _ |- _ =>
      unfold store_allocation in H; injection H as ? ?; subst
  | H : store_need _ _ = Ret _ |- _ =>
      unfold store_need in H; injection H as ? ?; subst
  | H : store_maximum _ _ = Ret _ |- _ =>
      unfold store_maximum in H; injection H as ? ?; subst
  | H : store_total_resources _ _ = Ret _ |- _ =>
      unfold store_total_resources in H; injection H as ? ?; subst
  end.

Lemma at_ok {A} (v : list A) i x s :
  0 <= i -> v !! Z.to_nat i = Some x -> at_ v i s = Ret (x, s).
Proof. intros. by apply at_Ret. Qed.

Lemma int_add_ok a b s :
  INT_MIN <= a + b <= INT_MAX -> int_add a b s = Ret (a + b, s).
Proof. intros. by apply int_add_Ret. Qed.

Lemma int_sub_ok a b s :
  INT_MIN <= a - b <= INT_MAX -> int_sub a b s = Ret (a - b, s).
Proof. intros. by apply int_sub_Ret. Qed.

(** Running a command forwards, given the facts that make each step
    defined. *)
Ltac run_cmd :=
  repeat (unfold update_at, bind, load, ret, store_available, store_allocation,
            store_need, store_maximum, store_total_resources;
          repeat first
            [ erewrite at_ok by (first [eassumption | lia])
            | rewrite int_add_ok by lia
            | rewrite int_sub_ok by lia ];
          cbn [available allocation need maximum total_resources num_resources
               num_processes]).

Lemma insert_alter {A} (f : A -> A) (l : list A) i x :
  l !! i = Some x -> <[i := f x]> l = alter f i l.
Proof.
  intros Hx. apply list_eq. intros j. destruct (decide (i = j)) as [<-|Hne].
  - rewrite list_lookup_alter_eq, Hx. simpl.
    apply list_lookup_insert_eq. by eapply lookup_lt_Some.
  - by rewrite list_lookup_insert_ne, list_lookup_alter_ne.
Qed.

Lemma entry_lookup v r x : v !! Z.to_nat r = Some x -> entry v r = x.
Proof. unfold entry. by intros ->. Qed.

Lemma row_lookup m p x : m !! Z.to_nat p = Some x -> row m p = x.
Proof. unfold row. by intros ->. Qed.

Lemma move_insert p amount sign r s q a arow al nrow nd :
  amount !! Z.to_nat r = Some q ->
  available s !! Z.to_nat r = Some a ->
  allocation s !! Z.to_nat p = Some arow -> arow !! Z.to_nat r = Some al ->
  need s !! Z.to_nat p = Some nrow -> nrow !! Z.to_nat r = Some nd ->
  move p amount sign r s =
  mkBankers (num_resources s) (num_processes s) (total_resources s)
    (<[Z.to_nat r := a - sign * q]> (available s))
    (maximum s)
    (<[Z.to_nat p := <[Z.to_nat r := al + sign * q]> arow]> (allocation s))
    (<[Z.to_nat p := <[Z.to_nat r := nd - sign * q]> nrow]> (need s)).
Proof.
  intros Hq Ha Har Hal Hnr Hnd. unfold move. rewrite (entry_lookup _ _ _ Hq).
  f_equal.
  - by rewrite <- (insert_alter _ _ _ _ Ha).
  - by rewrite <- (insert_alter _ _ _ _ Har), <- (insert_alter _ _ _ _ Hal).
  - by rewrite <- (insert_alter _ _ _ _ Hnr), <- (insert_alter _ _ _ _ Hnd).
Qed.

Ltac solve_movable :=
  unfold movable; split; [done|]; split; [done|];
  eexists _, _, _, _, _, _; repeat (split; [eassumption|]); lia.

Lemma take_Ret p req r s u s' :
  take p req r s = Ret (u, s') <-> movable p req 1 r s /\ s' = move p req 1 r s.
Proof.
  split.
  - unfold take. intros H. inv_cmd. simpl in *. simplify_eq. split; [solve_movable|].
    erewrite move_insert by eassumption. f_equal; repeat f_equal; lia.
  - intros [(Hr & Hp & q & a & arow & al & nrow & nd & Hq & Ha & Har & Hal & Hnr & Hnd &
             ? & ? & ?) ->].
    destruct u. unfold take. run_cmd.
    erewrite move_insert by eassumption. repeat f_equal; lia.
Qed.

Lemma give_back_Ret p req r s u s' :
  give_back p req r s = Ret (u, s') <-> movable p req (-1) r s /\ s' = move p req (-1) r s.
Proof.
  split.
  - unfold give_back. intros H. inv_cmd. simpl in *. simplify_eq. split; [solve_movable|].
    erewrite move_insert by eassumption. f_equal; repeat f_equal; lia.
  - intros [(Hr & Hp & q & a & arow & al & nrow & nd & Hq & Ha & Har & Hal & Hnr & Hnd &
             ? & ? & ?) ->].
    destruct u. unfold give_back. run_cmd.
    erewrite move_insert by eassumption. repeat f_equal; lia.
Qed.

Lemma free_Ret p rel r s u s' :
  free p rel r s = Ret (u, s') <-> movable p rel (-1) r s /\ s' = move p rel (-1) r s.
Proof.
  split.
  - unfold free. intros H. inv_cmd. simpl in *. simplify_eq. split; [solve_movable|].
    erewrite move_insert by eassumption. f_equal; repeat f_equal; lia.
  - intros [(Hr & Hp & q & a & arow & al & nrow & nd & Hq & Ha & Har & Hal & Hnr & Hnd &
             ? & ? & ?) ->].
    destruct u. unfold free. run_cmd.
    erewrite move_insert by eassumption. repeat f_equal; lia.
Qed.

(** ** Loops whose iterations are functions of the state *)

Lemma for_each_Ret {A} (step : Z -> A * BankersAlgorithm -> A * BankersAlgorithm)
    (ok : Z -> A * BankersAlgorithm -> Prop) (inv : A * BankersAlgorithm -> Prop)
    idx (body : Z -> A -> Cmd A) :
  (forall i x t, i ∈ idx -> inv (x, t) ->
     (forall x' t', body i x t = Ret (x', t') <-> ok i (x, t) /\ (x', t') = step i (x, t)) /\
     (ok i (x, t) -> inv (step i (x, t)))) ->
  forall a s a' s', inv (a, s) ->
    for_each idx body a s = Ret (a', s') <->
    (forall pre i post, idx = pre ++ i :: post -> ok i (run_steps step pre (a, s))) /\
    (a', s') = run_steps step idx (a, s).
Proof.
  unfold run_steps. induction idx as [|i rest IH]; intros Hbody a s a' s' Hinv; simpl.
  - rewrite ret_Ret. split.
    + intros [-> ->]. split; [|done]. intros [|] ? ? ?; discriminate.
    + intros [_ [= -> ->]]. done.
  - destruct (Hbody i a s) as [Hstep Hpres]; [left | done |].
    rewrite bind_Ret. split.
    + intros (x & t & Hb & Hrest). apply Hstep in Hb as [Hok Heq].
      apply IH in Hrest as [Hoks Hres].
      * split; [|rewrite <- Heq; done].
        intros [|j pre] k post [= ? ?]; subst; simpl; [done|].
        rewrite <- Heq. by eapply Hoks.
      * intros j y u Hj. apply Hbody. by right.
      * rewrite Heq. by apply Hpres.
    + intros [Hoks Hres].
      assert (ok i (a, s)) as Hok by (by apply (Hoks [] i rest)).
      destruct (step i (a, s)) as [x t] eqn:Hst.
      exists x, t. split; [by apply Hstep|].
      apply IH.
      * intros j y u Hj. apply Hbody. by right.
      * by apply Hpres.
      * split; [|done].
        intros pre k post ->. specialize (Hoks (i :: pre) k post eq_refl).
        simpl in Hoks. by rewrite ?Hst in Hoks.
Qed.

(** ** Vectors updated entry by entry *)

Lemma alter_all_length h idx v : length (alter_all h idx v) = length v.
Proof.
  unfold alter_all. revert v. induction idx as [|r idx IH]; intros v; simpl; [done|].
  by rewrite IH, length_alter.
Qed.

Lemma alter_all_lookup h idx v i :
  NoDup idx -> Forall (fun r => 0 <= r) idx ->
  alter_all h idx v !! i =
  if decide (Z.of_nat i ∈ idx) then h (Z.of_nat i) <$> v !! i else v !! i.
Proof.
  unfold alter_all. revert v.
  induction idx as [|r idx IH]; intros v Hnd Hpos; cbn [foldl].
  - case_decide as Hin; [by apply elem_of_nil in Hin | done].
  - apply NoDup_cons in Hnd as [Hr Hnd]. apply Forall_cons in Hpos as [Hr0 Hpos].
    rewrite IH by done.
    destruct (decide (Z.of_nat i = r)) as [<-|Hne].
    + rewrite decide_False by done. rewrite decide_True by left.
      rewrite Nat2Z.id. by rewrite list_lookup_alter_eq.
    + rewrite list_lookup_alter_ne by lia.
      destruct (decide (Z.of_nat i ∈ idx)) as [Hin|Hin].
      * rewrite decide_True by (by right). done.
      * rewrite decide_False; [done|]. rewrite elem_of_cons. intros [?|?]; done.
Qed.

Lemma alter_all_seqZ h n v i :
  alter_all h (seqZ 0 n) v !! i =
  if decide (Z.of_nat i < n) then h (Z.of_nat i) <$> v !! i else v !! i.
Proof.
  rewrite alter_all_lookup.
  - destruct (decide (Z.of_nat i ∈ seqZ 0 n)) as [Hin|Hin];
      rewrite elem_of_seqZ in Hin.
    + rewrite decide_True by lia. done.
    + rewrite decide_False by lia. done.
  - apply NoDup_seqZ.
  - apply Forall_seqZ. lia.
Qed.

Lemma alter_all_zip_with (f : Z -> Z -> Z) h n v d :
  Z.of_nat (length v) = n -> Z.of_nat (length d) = n ->
  (forall r x, 0 <= r < n -> h r x = f x (entry d r)) ->
  alter_all h (seqZ 0 n) v = zip_with f v d.
Proof.
  intros Hv Hd Hh. apply list_eq. intros i.
  rewrite alter_all_seqZ, lookup_zip_with.
  destruct (v !! i) as [x|] eqn:Hx; simpl.
  - assert (i < length v)%nat by (by eapply lookup_lt_Some).
    rewrite decide_True by lia.
    destruct (d !! i) as [y|] eqn:Hy; simpl.
    + rewrite Hh by lia. unfold entry. rewrite Nat2Z.id, Hy. done.
    + apply lookup_ge_None in Hy. lia.
  - by destruct (decide _).
Qed.

Lemma entry_zip_with (f : Z -> Z -> Z) v d r :
  0 <= r < Z.of_nat (length v) -> length d = length v ->
  entry (zip_with f v d) r = f (entry v r) (entry d r).
Proof.
  intros Hr Hlen. unfold entry. rewrite lookup_zip_with.
  destruct (lookup_lt_is_Some_2 v (Z.to_nat r)) as [x ->]; [lia|].
  destruct (lookup_lt_is_Some_2 d (Z.to_nat r)) as [y ->]; [lia|]. done.
Qed.

Lemma moved_fields p amount sign idx s :
  moved p amount sign idx s =
  mkBankers (num_resources s) (num_processes s) (total_resources s)
    (alter_all (fun r x => x - sign * entry amount r) idx (available s))
    (maximum s)
    (alter (alter_all (fun r x => x + sign * entry amount r) idx) (Z.to_nat p)
           (allocation s))
    (alter (alter_all (fun r x => x - sign * entry amount r) idx) (Z.to_nat p)
           (need s)).
Proof.
  unfold moved. revert s. induction idx as [|r idx IH]; intros s; simpl.
  - unfold alter_all. simpl. rewrite !list_alter_id by done. by destruct s.
  - rewrite IH. unfold move. simpl. f_equal.
    + by rewrite list_alter_alter_eq.
    + by rewrite list_alter_alter_eq.
Qed.

Lemma run_steps_moved p amount sign idx s :
  run_steps (fun r st => (tt, move p amount sign r st.2)) idx (tt, s) =
  (tt, moved p amount sign idx s).
Proof.
  unfold run_steps, moved. revert s. induction idx as [|r idx IH]; intros s; simpl; [done|].
  by rewrite IH.
Qed.

Lemma movable_moved p amount sign r pre s :
  NoDup pre -> Forall (fun i => 0 <= i) pre -> r ∉ pre ->
  movable p amount sign r (moved p amount sign pre s) <-> movable p amount sign r s.
Proof.
  intros Hnd Hpos Hr. rewrite moved_fields. unfold movable. simpl.
  split; intros (Hr0 & Hp0 & q & a & arow & al & nrow & nd & Hq & Ha & Har & Hal & Hnr &
                 Hnd' & Hbounds).
  - split; [done|]. split; [done|].
    rewrite alter_all_lookup in Ha by done.
    rewrite decide_False in Ha by (by rewrite Z2Nat.id).
    rewrite list_lookup_alter_eq in Har, Hnr.
    destruct (allocation s !! Z.to_nat p) as [arow0|] eqn:Har0; [|done].
    destruct (need s !! Z.to_nat p) as [nrow0|] eqn:Hnr0; [|done].
    simpl in Har, Hnr. simplify_eq.
    rewrite alter_all_lookup in Hal, Hnd' by done.
    rewrite decide_False in Hal, Hnd' by (by rewrite Z2Nat.id).
    eexists _, _, _, _, _, _. repeat (split; [eassumption || reflexivity|]). done.
  - split; [done|]. split; [done|].
    eexists q, a, _, al, _, nd. split; [done|].
    split. { rewrite alter_all_lookup by done.
             by rewrite decide_False by (by rewrite Z2Nat.id). }
    split. { by rewrite list_lookup_alter_eq, Har. }
    split. { rewrite alter_all_lookup by done.
             by rewrite decide_False by (by rewrite Z2Nat.id). }
    split. { by rewrite list_lookup_alter_eq, Hnr. }
    split. { rewrite alter_all_lookup by done.
             by rewrite decide_False by (by rewrite Z2Nat.id). }
    done.
Qed.

(** ** Well-formed ledgers *)

Lemma all_int_spec v :
  all_int v = true <-> forall i x, v !! i = Some x -> INT_MIN <= x <= INT_MAX.
Proof.
  unfold all_int. rewrite <- Is_true_true, forallb_True, Forall_lookup.
  split; intros H i x Hx; specialize (H i x Hx).
  - apply is_int_true. by apply Is_true_true.
  - apply Is_true_true. by apply is_int_true.
Qed.

Lemma has_shape_spec rows cols m :
  has_shape rows cols m = true <->
  Z.of_nat (length m) = rows /\
  forall i r, m !! i = Some r -> Z.of_nat (length r) = cols /\ all_int r = true.
Proof.
  unfold has_shape. rewrite andb_true_iff, Z.eqb_eq.
  rewrite <- Is_true_true, forallb_True, Forall_lookup.
  split; intros [Hlen Hrows]; (split; [done|]); intros i r Hr; specialize (Hrows i r Hr).
  - apply Is_true_true, andb_true_iff in Hrows as [? ?]. by rewrite <- Z.eqb_eq.
  - apply Is_true_true, andb_true_iff. by rewrite Z.eqb_eq.
Qed.

Lemma well_formed_shaped s : well_formed s = true <-> shaped s.
Proof.
  unfold well_formed. rewrite !andb_true_iff, !Z.leb_le, !Z.eqb_eq. split.
  - intros [[[[[[? ?] ?] ?] ?] ?] ?]. by constructor.
  - intros []. done.
Qed.

Lemma shaped_row_allocation s p :
  shaped s -> 0 <= p < num_processes s ->
  allocation s !! Z.to_nat p = Some (row (allocation s) p) /\
  Z.of_nat (length (row (allocation s) p)) = num_resources s /\
  all_int (row (allocation s) p) = true.
Proof.
  intros Hs Hp. destruct (proj1 (has_shape_spec _ _ _) (shaped_allocation s Hs)) as [Hlen Hrows].
  destruct (lookup_lt_is_Some_2 (allocation s) (Z.to_nat p)) as [r Hr]; [lia|].
  unfold row. rewrite Hr. simpl. split; [done|]. by apply (Hrows _ _ Hr).
Qed.

Lemma shaped_row_need s p :
  shaped s -> 0 <= p < num_processes s ->
  need s !! Z.to_nat p = Some (row (need s) p) /\
  Z.of_nat (length (row (need s) p)) = num_resources s /\
  all_int (row (need s) p) = true.
Proof.
  intros Hs Hp. destruct (proj1 (has_shape_spec _ _ _) (shaped_need s Hs)) as [Hlen Hrows].
  destruct (lookup_lt_is_Some_2 (need s) (Z.to_nat p)) as [r Hr]; [lia|].
  unfold row. rewrite Hr. simpl. split; [done|]. by apply (Hrows _ _ Hr).
Qed.

Lemma lookup_entry v r :
  0 <= r < Z.of_nat (length v) -> v !! Z.to_nat r = Some (entry v r).
Proof.
  intros Hr. unfold entry.
  destruct (lookup_lt_is_Some_2 v (Z.to_nat r)) as [x ->]; [lia|]. done.
Qed.

Lemma all_int_entry v r :
  all_int v = true -> 0 <= r < Z.of_nat (length v) -> INT_MIN <= entry v r <= INT_MAX.
Proof.
  intros Hv Hr. eapply all_int_spec; [done|]. by apply lookup_entry.
Qed.

Lemma all_int_entries v :
  all_int v = true <->
  forall r, 0 <= r < Z.of_nat (length v) -> INT_MIN <= entry v r <= INT_MAX.
Proof.
  split; [intros; by apply all_int_entry|].
  intros H. apply all_int_spec. intros i x Hx.
  assert (i < length v)%nat by (by eapply lookup_lt_Some).
  specialize (H (Z.of_nat i)). unfold entry in H. rewrite Nat2Z.id, Hx in H.
  apply H. lia.
Qed.

Lemma le_all_spec n a b :
  le_all n a b = true <-> forall r, 0 <= r < n -> entry a r <= entry b r.
Proof.
  unfold le_all. rewrite <- Is_true_true, forallb_True, Forall_seqZ.
  split; intros H r Hr; specialize (H r); rewrite Is_true_true, Z.leb_le in *;
    apply H; lia.
Qed.

(** ** The allocation, rollback and release loops *)

Lemma move_loop_Ret (body : Z -> Cmd unit) p amount sign n s u s' :
  (forall r t u' t', body r t = Ret (u', t') <->
                     movable p amount sign r t /\ t' = move p amount sign r t) ->
  for_range n (fun r _ => body r) tt s = Ret (u, s') <->
  (forall r, 0 <= r < n -> movable p amount sign r s) /\
  s' = moved p amount sign (seqZ 0 n) s.
Proof.
  intros Hbody. unfold for_range.
  rewrite (for_each_Ret (fun r st => (tt, move p amount sign r st.2))
             (fun r st => movable p amount sign r st.2) (fun _ => True)); [| |done].
  - rewrite run_steps_moved. destruct u. split.
    + intros [Hok [= ->]]. split; [|done]. intros r Hr.
      assert (r ∈ seqZ 0 n) as Hin by (apply elem_of_seqZ; lia).
      apply list_elem_of_split in Hin as (pre & post & Hsplit).
      specialize (Hok pre r post Hsplit).
      pose proof (NoDup_seqZ 0 n) as Hnd. rewrite Hsplit in Hnd.
      assert (Forall (fun i => 0 <= i) (pre ++ r :: post)) as Hpos.
      { rewrite <- Hsplit. apply Forall_seqZ. lia. }
      apply Forall_app in Hpos as [Hpos _].
      apply NoDup_app in Hnd as (Hnd1 & Hnd2 & _).
      rewrite (run_steps_moved p amount sign pre s) in Hok. simpl in Hok.
      apply movable_moved in Hok; [done..|].
      intros Hin. apply (Hnd2 r Hin). by left.
    + intros [Hok ->]. split; [|done]. intros pre r post Hsplit.
      rewrite (run_steps_moved p amount sign pre s). simpl.
      pose proof (NoDup_seqZ 0 n) as Hnd. rewrite Hsplit in Hnd.
      assert (Forall (fun i => 0 <= i < n) (pre ++ r :: post)) as Hpos.
      { rewrite <- Hsplit. apply Forall_seqZ. lia. }
      apply Forall_app in Hpos as [Hpos Hr]. apply Forall_cons in Hr as [Hr _].
      apply NoDup_app in Hnd as (Hnd1 & Hnd2 & _).
      apply movable_moved.
      * done.
      * eapply Forall_impl; [done|]. simpl. lia.
      * intros Hin. apply (Hnd2 r Hin). by left.
      * by apply Hok.
  - intros r [] t _ _. split; [|done]. intros [] t'. simpl.
    rewrite Hbody. split.
    + intros [? ->]. done.
    + intros [? [= ->]]. done.
Qed.

Lemma movable_shaped p amount sign r s :
  shaped s -> 0 <= p < num_processes s ->
  Z.of_nat (length amount) = num_resources s -> 0 <= r < num_resources s ->
  movable p amount sign r s <->
  INT_MIN <= entry (available s) r - sign * entry amount r <= INT_MAX /\
  INT_MIN <= entry (row (allocation s) p) r + sign * entry amount r <= INT_MAX /\
  INT_MIN <= entry (row (need s) p) r - sign * entry amount r <= INT_MAX.
Proof.
  intros Hs Hp Hlen Hr.
  destruct (shaped_row_allocation s p Hs Hp) as (Har & Harlen & _).
  destruct (shaped_row_need s p Hs Hp) as (Hnr & Hnrlen & _).
  pose proof (shaped_available s Hs) as Hav.
  assert (amount !! Z.to_nat r = Some (entry amount r)) as Hq
    by (apply lookup_entry; lia).
  assert (available s !! Z.to_nat r = Some (entry (available s) r)) as Ha
    by (apply lookup_entry; lia).
  assert (row (allocation s) p !! Z.to_nat r = Some (entry (row (allocation s) p) r))
    as Hal by (apply lookup_entry; lia).
  assert (row (need s) p !! Z.to_nat r = Some (entry (row (need s) p) r))
    as Hnd by (apply lookup_entry; lia).
  unfold movable. split.
  - intros (_ & _ & q & a & arow & al & nrow & nd & Hq' & Ha' & Har' & Hal' & Hnr' &
            Hnd' & Hb). simplify_eq. done.
  - intros Hb. split; [lia|]. split; [lia|]. eexists _, _, _, _, _, _.
    repeat (split; [eassumption|]). done.
Qed.

Lemma row_alter (f : list Z -> list Z) m p :
  0 <= p < Z.of_nat (length m) -> row (alter f (Z.to_nat p) m) p = f (row m p).
Proof.
  intros Hp. unfold row. rewrite list_lookup_alter_eq.
  destruct (lookup_lt_is_Some_2 m (Z.to_nat p)) as [x ->]; [lia|]. done.
Qed.

Lemma row_alter_ne (f : list Z -> list Z) m p q :
  0 <= p -> 0 <= q -> p <> q -> row (alter f (Z.to_nat p) m) q = row m q.
Proof. intros. unfold row. rewrite list_lookup_alter_ne by lia. done. Qed.

Lemma moved_shaped p amount sign s :
  shaped s -> 0 <= p < num_processes s ->
  Z.of_nat (length amount) = num_resources s ->
  moved p amount sign (seqZ 0 (num_resources s)) s =
  mkBankers (num_resources s) (num_processes s) (total_resources s)
    (zip_with (fun x q => x - sign * q) (available s) amount)
    (maximum s)
    (alter (fun al => zip_with (fun x q => x + sign * q) al amount) (Z.to_nat p)
           (allocation s))
    (alter (fun nd => zip_with (fun x q => x - sign * q) nd amount) (Z.to_nat p)
           (need s)).
Proof.
  intros Hs Hp Hlen.
  destruct (shaped_row_allocation s p Hs Hp) as (Har & Harlen & _).
  destruct (shaped_row_need s p Hs Hp) as (Hnr & Hnrlen & _).
  rewrite moved_fields. f_equal.
  - apply alter_all_zip_with; [apply Hs | done | done].
  - apply list_alter_ext; [|done]. intros al Hal. simplify_eq.
    by apply alter_all_zip_with.
  - apply list_alter_ext; [|done]. intros nd Hnd. simplify_eq.
    by apply alter_all_zip_with.
Qed.

Lemma moved_granted p amount s :
  shaped s -> 0 <= p < num_processes s ->
  Z.of_nat (length amount) = num_resources s ->
  moved p amount 1 (seqZ 0 (num_resources s)) s = granted p amount s.
Proof.
  intros Hs Hp Hlen. rewrite moved_shaped by done. unfold granted, vadd, vsub.
  f_equal; try (apply list_alter_ext; [|done]; intros ? _);
    (apply zip_with_ext; [|done..]); intros; lia.
Qed.

Lemma moved_released p amount s :
  shaped s -> 0 <= p < num_processes s ->
  Z.of_nat (length amount) = num_resources s ->
  moved p amount (-1) (seqZ 0 (num_resources s)) s = released p amount s.
Proof.
  intros Hs Hp Hlen. rewrite moved_shaped by done. unfold released, vadd, vsub.
  f_equal; try (apply list_alter_ext; [|done]; intros ? _);
    (apply zip_with_ext; [|done..]); intros; lia.
Qed.

Lemma representable_spec p s :
  shaped s -> 0 <= p < num_processes s ->
  representable p s = true <->
  forall r, 0 <= r < num_resources s ->
    INT_MIN <= entry (available s) r <= INT_MAX /\
    INT_MIN <= entry (row (allocation s) p) r <= INT_MAX /\
    INT_MIN <= entry (row (need s) p) r <= INT_MAX.
Proof.
  intros Hs Hp.
  destruct (shaped_row_allocation s p Hs Hp) as (Har & Harlen & _).
  destruct (shaped_row_need s p Hs Hp) as (Hnr & Hnrlen & _).
  pose proof (shaped_available s Hs) as Hav.
  unfold representable. rewrite !andb_true_iff, !all_int_entries.
  rewrite Hav, Harlen, Hnrlen. split.
  - intros [[H1 H2] H3] r Hr. auto.
  - intros H. split; [split|]; intros r' Hr'; by apply H.
Qed.

Lemma vadd_vsub v d : length d = length v -> vadd (vsub v d) d = v.
Proof.
  unfold vadd, vsub. revert d. induction v as [|x v IH]; intros [|y d] Hlen; try done.
  simpl in *. f_equal; [lia|]. apply IH. lia.
Qed.

Lemma vsub_vadd v d : length d = length v -> vsub (vadd v d) d = v.
Proof.
  unfold vadd, vsub. revert d. induction v as [|x v IH]; intros [|y d] Hlen; try done.
  simpl in *. f_equal; [lia|]. apply IH. lia.
Qed.

Lemma alter_alter_cancel (f g : list Z -> list Z) (m : list (list Z)) i :
  (forall x, m !! i = Some x -> f (g x) = x) -> alter f i (alter g i m) = m.
Proof.
  intros H. rewrite list_alter_alter_eq.
  rewrite <- (list_alter_id id m i) at 2 by done.
  apply list_alter_ext; [|done]. intros x Hx. by apply H.
Qed.

Lemma released_granted p amount s :
  shaped s -> 0 <= p < num_processes s ->
  Z.of_nat (length amount) = num_resources s ->
  released p amount (granted p amount s) = s.
Proof.
  intros Hs Hp Hlen.
  destruct (shaped_row_allocation s p Hs Hp) as (Har & Harlen & _).
  destruct (shaped_row_need s p Hs Hp) as (Hnr & Hnrlen & _).
  pose proof (shaped_available s Hs) as Hav.
  unfold released, granted. simpl. destruct s as [n P tot av mx al nd]. simpl in *.
  f_equal.
  - apply vadd_vsub. lia.
  - apply alter_alter_cancel. intros x Hx. simplify_eq. apply vsub_vadd. lia.
  - apply alter_alter_cancel. intros x Hx. simplify_eq. apply vadd_vsub. lia.
Qed.

Lemma granted_released p amount s :
  shaped s -> 0 <= p < num_processes s ->
  Z.of_nat (length amount) = num_resources s ->
  granted p amount (released p amount s) = s.
Proof.
  intros Hs Hp Hlen.
  destruct (shaped_row_allocation s p Hs Hp) as (Har & Harlen & _).
  destruct (shaped_row_need s p Hs Hp) as (Hnr & Hnrlen & _).
  pose proof (shaped_available s Hs) as Hav.
  unfold released, granted. simpl. destruct s as [n P tot av mx al nd]. simpl in *.
  f_equal.
  - apply vsub_vadd. lia.
  - apply alter_alter_cancel. intros x Hx. simplify_eq. apply vadd_vsub. lia.
  - apply alter_alter_cancel. intros x Hx. simplify_eq. apply vsub_vadd. lia.
Qed.

Lemma has_shape_alter rows cols (f : list Z -> list Z) m p :
  has_shape rows cols m = true ->
  (forall x, m !! p = Some x -> Z.of_nat (length (f x)) = cols /\ all_int (f x) = true) ->
  has_shape rows cols (alter f p m) = true.
Proof.
  rewrite !has_shape_spec. intros [Hlen Hrows] Hf. rewrite length_alter.
  split; [done|]. intros i r. destruct (decide (p = i)) as [->|Hne].
  - rewrite list_lookup_alter_eq. destruct (m !! i) as [x|] eqn:Hx; [|done].
    intros [= <-]. by apply Hf.
  - rewrite list_lookup_alter_ne by done. apply Hrows.
Qed.

Lemma length_vadd v d : length d = length v -> length (vadd v d) = length v.
Proof. intros H. unfold vadd. rewrite length_zip_with. lia. Qed.

Lemma length_vsub v d : length d = length v -> length (vsub v d) = length v.
Proof. intros H. unfold vsub. rewrite length_zip_with. lia. Qed.

Lemma shaped_granted p amount s :
  shaped s -> 0 <= p < num_processes s ->
  Z.of_nat (length amount) = num_resources s ->
  representable p (granted p amount s) = true ->
  shaped (granted p amount s).
Proof.
  intros Hs Hp Hlen Hrep.
  destruct (shaped_row_allocation s p Hs Hp) as (Har & Harlen & _).
  destruct (shaped_row_need s p Hs Hp) as (Hnr & Hnrlen & _).
  pose proof (shaped_available s Hs) as Hav.
  pose proof (proj1 (has_shape_spec _ _ _) (shaped_allocation s Hs)) as [Hall _].
  pose proof (proj1 (has_shape_spec _ _ _) (shaped_need s Hs)) as [Hndl _].
  unfold representable in Hrep. apply andb_true_iff in Hrep as [Hrep Hr3].
  apply andb_true_iff in Hrep as [Hr1 Hr2].
  simpl in Hr1, Hr2, Hr3. rewrite row_alter in Hr2, Hr3 by lia.
  constructor; simpl; try apply Hs.
  - rewrite length_vsub; lia.
  - done.
  - apply has_shape_alter; [apply Hs|]. intros x Hx. simplify_eq.
    rewrite length_vadd by lia. done.
  - apply has_shape_alter; [apply Hs|]. intros x Hx. simplify_eq.
    rewrite length_vsub by lia. done.
Qed.

Lemma shaped_released p amount s :
  shaped s -> 0 <= p < num_processes s ->
  Z.of_nat (length amount) = num_resources s ->
  representable p (released p amount s) = true ->
  shaped (released p amount s).
Proof.
  intros Hs Hp Hlen Hrep.
  destruct (shaped_row_allocation s p Hs Hp) as (Har & Harlen & _).
  destruct (shaped_row_need s p Hs Hp) as (Hnr & Hnrlen & _).
  pose proof (shaped_available s Hs) as Hav.
  pose proof (proj1 (has_shape_spec _ _ _) (shaped_allocation s Hs)) as [Hall _].
  pose proof (proj1 (has_shape_spec _ _ _) (shaped_need s Hs)) as [Hndl _].
  unfold representable in Hrep. apply andb_true_iff in Hrep as [Hrep Hr3].
  apply andb_true_iff in Hrep as [Hr1 Hr2].
  simpl in Hr1, Hr2, Hr3. rewrite row_alter in Hr2, Hr3 by lia.
  constructor; simpl; try apply Hs.
  - rewrite length_vadd; lia.
  - done.
  - apply has_shape_alter; [apply Hs|]. intros x Hx. simplify_eq.
    rewrite length_vsub by lia. done.
  - apply has_shape_alter; [apply Hs|]. intros x Hx. simplify_eq.
    rewrite length_vadd by lia. done.
Qed.

Lemma representable_shaped p s :
  shaped s -> 0 <= p < num_processes s -> representable p s = true.
Proof.
  intros Hs Hp. unfold representable.
  destruct (shaped_row_allocation s p Hs Hp) as (_ & _ & ->).
  destruct (shaped_row_need s p Hs Hp) as (_ & _ & ->).
  by rewrite (shaped_available_int s Hs).
Qed.

(** The allocation loop of [requestResources]. *)
Lemma allocate_Ret p req s u s' :
  shaped s -> 0 <= p < num_processes s ->
  Z.of_nat (length req) = num_resources s ->
  for_range (num_resources s) (fun r _ => take p req r) tt s = Ret (u, s') <->
  representable p (granted p req s) = true /\ s' = granted p req s.
Proof.
  intros Hs Hp Hlen.
  rewrite (move_loop_Ret (take p req) p req 1) by (intros; apply take_Ret).
  rewrite moved_granted by done.
  destruct (shaped_row_allocation s p Hs Hp) as (Har & Harlen & _).
  destruct (shaped_row_need s p Hs Hp) as (Hnr & Hnrlen & _).
  pose proof (shaped_available s Hs) as Hav.
  pose proof (proj1 (has_shape_spec _ _ _) (shaped_allocation s Hs)) as [Hall _].
  pose proof (proj1 (has_shape_spec _ _ _) (shaped_need s Hs)) as [Hndl _].
  assert ((forall r, 0 <= r < num_resources s -> movable p req 1 r s) <->
          representable p (granted p req s) = true) as ->; [|done].
  unfold representable. rewrite !andb_true_iff, !all_int_entries. simpl.
  rewrite !row_alter by lia. rewrite !length_vsub, !length_vadd by lia.
  unfold vadd, vsub. split.
  - intros H. split; [split|]; intros r Hr;
      rewrite entry_zip_with by lia;
      specialize (H r);
      (rewrite movable_shaped in H by (done || lia)); lia.
  - intros [[H1 H2] H3] r Hr. apply movable_shaped; [done..|].
    specialize (H1 r). specialize (H2 r). specialize (H3 r).
    rewrite entry_zip_with in H1, H2, H3 by lia. lia.
Qed.

(** The rollback loop of [requestResources] and the loop of
    [releaseResources]. *)
Lemma hand_back_Ret (body : Z -> Cmd unit) p amount s u s' :
  (forall r t u' t', body r t = Ret (u', t') <->
                     movable p amount (-1) r t /\ t' = move p amount (-1) r t) ->
  shaped s -> 0 <= p < num_processes s ->
  Z.of_nat (length amount) = num_resources s ->
  for_range (num_resources s) (fun r _ => body r) tt s = Ret (u, s') <->
  representable p (released p amount s) = true /\ s' = released p amount s.
Proof.
  intros Hbody Hs Hp Hlen.
  rewrite (move_loop_Ret body p amount (-1)) by done.
  rewrite moved_released by done.
  destruct (shaped_row_allocation s p Hs Hp) as (Har & Harlen & _).
  destruct (shaped_row_need s p Hs Hp) as (Hnr & Hnrlen & _).
  pose proof (shaped_available s Hs) as Hav.
  pose proof (proj1 (has_shape_spec _ _ _) (shaped_allocation s Hs)) as [Hall _].
  pose proof (proj1 (has_shape_spec _ _ _) (shaped_need s Hs)) as [Hndl _].
  assert ((forall r, 0 <= r < num_resources s -> movable p amount (-1) r s) <->
          representable p (released p amount s) = true) as ->; [|done].
  unfold representable. rewrite !andb_true_iff, !all_int_entries. simpl.
  rewrite !row_alter by lia. rewrite !length_vsub, !length_vadd by lia.
  unfold vadd, vsub. split.
  - intros H. split; [split|]; intros r Hr;
      rewrite entry_zip_with by lia;
      specialize (H r);
      (rewrite movable_shaped in H by (done || lia)); lia.
  - intros [[H1 H2] H3] r Hr. apply movable_shaped; [done..|].
    specialize (H1 r). specialize (H2 r). specialize (H3 r).
    rewrite entry_zip_with in H1, H2, H3 by lia. lia.
Qed.

Lemma rollback_Ret p req s :
  shaped s -> 0 <= p < num_processes s ->
  Z.of_nat (length req) = num_resources s ->
  representable p (granted p req s) = true ->
  for_range (num_resources s) (fun r _ => give_back p req r) tt (granted p req s) =
  Ret (tt, s).
Proof.
  intros Hs Hp Hlen Hrep.
  pose proof (shaped_granted p req s Hs Hp Hlen Hrep) as Hg.
  change (num_resources s) with (num_resources (granted p req s)).
  apply (hand_back_Ret (give_back p req) p req); [intros; apply give_back_Ret|done..|].
  rewrite released_granted by done. split; [|done]. by apply representable_shaped.
Qed.

Lemma releaseResources_Ret p rel s u s' :
  shaped s -> 0 <= p < num_processes s ->
  Z.of_nat (length rel) = num_resources s ->
  releaseResources p rel s = Ret (u, s') <->
  representable p (released p rel s) = true /\ s' = released p rel s.
Proof.
  intros Hs Hp Hlen. unfold releaseResources. rewrite bind_Ret. split.
  - intros (n & s1 & Hload & Hloop). apply load_Ret in Hload as [-> ->].
    by apply (hand_back_Ret (free p rel) p rel) in Hloop; [|intros; apply free_Ret|..].
  - intros H. exists (num_resources s), s. split; [done|].
    by apply (hand_back_Ret (free p rel) p rel); [intros; apply free_Ret|..].
Qed.

(** ** Loops that leave at the first hit *)

Lemma for_first_pure idx (test : Z -> Cmd bool) (t : Z -> bool) s :
  (forall i, i ∈ idx -> test i s = Ret (t i, s)) ->
  for_first idx test s = Ret (existsb t idx, s).
Proof.
  induction idx as [|i idx IH]; intros Ht; simpl; [done|].
  unfold bind. rewrite Ht by left. destruct (t i); simpl; [done|].
  apply IH. intros j Hj. apply Ht. by right.
Qed.

Lemma existsb_ltb_le_all n a b :
  existsb (fun r => entry b r <? entry a r) (seqZ 0 n) = negb (le_all n a b).
Proof.
  unfold le_all. induction (seqZ 0 n) as [|r l IH]; simpl; [done|].
  rewrite IH, negb_andb. f_equal. rewrite Z.leb_antisym. by rewrite negb_involutive.
Qed.

Lemma over_need_Ret p req s :
  shaped s -> 0 <= p < num_processes s ->
  Z.of_nat (length req) = num_resources s ->
  exists_in_range (num_resources s) (fun r =>
      q <- at_ req r ;;
      nd <- load need ;;
      nrow <- at_ nd p ;;
      x <- at_ nrow r ;;
      ret (x <? q)) s =
  Ret (negb (le_all (num_resources s) req (row (need s) p)), s).
Proof.
  intros Hs Hp Hlen. rewrite <- existsb_ltb_le_all.
  destruct (shaped_row_need s p Hs Hp) as (Hnr & Hnrlen & _).
  apply for_first_pure. intros r Hr. apply elem_of_seqZ in Hr.
  assert (req !! Z.to_nat r = Some (entry req r)) by (apply lookup_entry; lia).
  assert (row (need s) p !! Z.to_nat r = Some (entry (row (need s) p) r))
    by (apply lookup_entry; lia).
  run_cmd. done.
Qed.

Lemma over_available_Ret req s :
  shaped s -> Z.of_nat (length req) = num_resources s ->
  exists_in_range (num_resources s) (fun r =>
      q <- at_ req r ;;
      av <- load available ;;
      x <- at_ av r ;;
      ret (x <? q)) s =
  Ret (negb (le_all (num_resources s) req (available s)), s).
Proof.
  intros Hs Hlen. rewrite <- existsb_ltb_le_all.
  pose proof (shaped_available s Hs) as Hav.
  apply for_first_pure. intros r Hr. apply elem_of_seqZ in Hr.
  assert (req !! Z.to_nat r = Some (entry req r)) by (apply lookup_entry; lia).
  assert (available s !! Z.to_nat r = Some (entry (available s) r))
    by (apply lookup_entry; lia).
  run_cmd. done.
Qed.

(** ** [requestResources] *)

Lemma requestResources_Ret p req s b s' :
  shaped s -> 0 <= p < num_processes s ->
  Z.of_nat (length req) = num_resources s ->
  requestResources p req s = Ret (b, s') <->
  if admissible p req s then
    representable p (granted p req s) = true /\
    isSafe (granted p req s) = Ret (b, granted p req s) /\
    s' = (if b then granted p req s else s)
  else b = false /\ s' = s.
Proof.
  intros Hs Hp Hlen. unfold requestResources, admissible.
  unfold bind at 1. unfold load at 1. unfold bind at 1.
  rewrite over_need_Ret by done.
  destruct (le_all (num_resources s) req (row (need s) p)); simpl;
    [|apply ret_Ret].
  unfold bind at 1. rewrite over_available_Ret by done.
  destruct (le_all (num_resources s) req (available s)); simpl;
    [|apply ret_Ret].
  rewrite bind_Ret. split.
  - intros (u & s1 & Halloc & Hrest). apply allocate_Ret in Halloc as [Hrep ->]; [|done..].
    split; [done|]. apply bind_Ret in Hrest as (safe & s2 & Hsafe & Hrest).
    pose proof (read_only_isSafe _ _ _ Hsafe) as ->. destruct safe.
    + apply ret_Ret in Hrest as [-> ->]. done.
    + apply bind_Ret in Hrest as (u' & s3 & Hback & Hret).
      apply ret_Ret in Hret as [-> ->].
      rewrite (rollback_Ret p req s) in Hback by done. by simplify_eq.
  - intros (Hrep & Hsafe & ->). exists tt, (granted p req s).
    split; [by apply allocate_Ret|]. unfold bind at 1. rewrite Hsafe. destruct b; [done|].
    unfold bind. rewrite rollback_Ret by done. done.
Qed.

(** ** Grants, denials and releases *)

(** C1.  On a well-formed ledger, for a role [p] and a request with one
    entry per resource kind, [requestResources p req] returns [true]
    exactly when [req <= need[p]] and [req <= available] entry by entry and
    the ledger after the tentative commit ([available -= req],
    [allocation[p] += req], [need[p] -= req]; its entries being [int]s)
    passes [isSafe]; and the ledger it then leaves is that committed one. *)
Theorem requestResources_true_iff p req s s' :
  well_formed s = true ->
  0 <= p < num_processes s ->
  Z.of_nat (length req) = num_resources s ->
  requestResources p req s = Ret (true, s') <->
  le_all (num_resources s) req (row (need s) p) = true /\
  le_all (num_resources s) req (available s) = true /\
  representable p (granted p req s) = true /\
  isSafe (granted p req s) = Ret (true, granted p req s) /\
  s' = granted p req s.
Proof.
  intros Hwf Hp Hlen. apply well_formed_shaped in Hwf.
  rewrite requestResources_Ret by done. unfold admissible.
  destruct (le_all (num_resources s) req (row (need s) p)); simpl.
  - destruct (le_all (num_resources s) req (available s)); simpl.
    + split; intros H; intuition.
    + split; [intros [? _] | intros (_ & ? & _)]; discriminate.
  - split; [intros [? _] | intros (? & _)]; discriminate.
Qed.

Lemma requestResources_true_iff_witness :
  requestResources 0 [1; 0] two_roles = Ret (true, granted 0 [1; 0] two_roles) <->
  le_all 2 [1; 0] (row (need two_roles) 0) = true /\
  le_all 2 [1; 0] (available two_roles) = true /\
  representable 0 (granted 0 [1; 0] two_roles) = true /\
  isSafe (granted 0 [1; 0] two_roles) = Ret (true, granted 0 [1; 0] two_roles) /\
  granted 0 [1; 0] two_roles = granted 0 [1; 0] two_roles.
Proof.
  apply (requestResources_true_iff 0 [1; 0] two_roles);
    [vm_compute; reflexivity | simpl; lia | reflexivity].
Defined.

(** C2.  A request that is denied leaves the ledger as it was, for each of
    the three reasons: the request exceeds [need[p]], it exceeds
    [available], or the tentatively committed ledger fails [isSafe] (the
    rollback then undoes the commit). *)
Theorem requestResources_false_unchanged p req s :
  well_formed s = true ->
  0 <= p < num_processes s ->
  Z.of_nat (length req) = num_resources s ->
  (forall s', requestResources p req s = Ret (false, s') -> s' = s) /\
  (le_all (num_resources s) req (row (need s) p) = false ->
   requestResources p req s = Ret (false, s)) /\
  (le_all (num_resources s) req (available s) = false ->
   requestResources p req s = Ret (false, s)) /\
  (admissible p req s = true ->
   representable p (granted p req s) = true ->
   isSafe (granted p req s) = Ret (false, granted p req s) ->
   requestResources p req s = Ret (false, s)).
Proof.
  intros Hwf Hp Hlen. apply well_formed_shaped in Hwf.
  repeat split.
  - intros s'. rewrite requestResources_Ret by done.
    destruct (admissible p req s); [intros (_ & _ & ->) | intros [_ ->]]; done.
  - intros Hneed. apply requestResources_Ret; [done..|].
    unfold admissible. by rewrite Hneed.
  - intros Hav. apply requestResources_Ret; [done..|].
    unfold admissible. by rewrite Hav, andb_false_r.
  - intros Hadm Hrep Hsafe. apply requestResources_Ret; [done..|]. by rewrite Hadm.
Qed.

Lemma requestResources_false_unchanged_witness :
  (forall s', requestResources 1 [1] contended = Ret (false, s') -> s' = contended) /\
  (le_all 1 [1] (row (need contended) 1) = false ->
   requestResources 1 [1] contended = Ret (false, contended)) /\
  (le_all 1 [1] (available contended) = false ->
   requestResources 1 [1] contended = Ret (false, contended)) /\
  (admissible 1 [1] contended = true ->
   representable 1 (granted 1 [1] contended) = true ->
   isSafe (granted 1 [1] contended) = Ret (false, granted 1 [1] contended) ->
   requestResources 1 [1] contended = Ret (false, contended)).
Proof.
  apply (requestResources_false_unchanged 1 [1] contended);
    [vm_compute; reflexivity | simpl; lia | reflexivity].
Defined.

Example contended_denied :
  requestResources 1 [1] contended = Ret (false, contended) /\
  isSafe (granted 1 [1] contended) = Ret (false, granted 1 [1] contended).
Proof. split; vm_compute; reflexivity. Qed.

(** C8.  A grant followed by the release of the same amounts by the same
    role gives back the ledger as it was before the request. *)
Theorem release_after_grant p req s s1 :
  well_formed s = true ->
  0 <= p < num_processes s ->
  Z.of_nat (length req) = num_resources s ->
  requestResources p req s = Ret (true, s1) ->
  releaseResources p req s1 = Ret (tt, s).
Proof.
  intros Hwf Hp Hlen Hreq. apply well_formed_shaped in Hwf.
  apply requestResources_Ret in Hreq; [|done..].
  destruct (admissible p req s); [|by destruct Hreq].
  destruct Hreq as (Hrep & _ & ->).
  pose proof (shaped_granted p req s Hwf Hp Hlen Hrep) as Hg.
  apply releaseResources_Ret; [done..|].
  rewrite released_granted by done. split; [|done]. by apply representable_shaped.
Qed.

Lemma release_after_grant_witness :
  releaseResources 0 [1; 0] (granted 0 [1; 0] two_roles) = Ret (tt, two_roles).
Proof.
  apply (release_after_grant 0 [1; 0] two_roles);
    [vm_compute; reflexivity | simpl; lia | reflexivity | vm_compute; reflexivity].
Defined.

(** C9.  Totals [2,1], maxima [2,1] for P1 and [1,1] for P2, nothing
    allocated: P1's request [1,0] is granted and leaves [available = [1,1]];
    P2's request [1,1] is then granted too, leaving [available = [0,0]], a
    ledger that is safe because P2 (role 1) can finish first and P1 after
    it, though not the other way round. *)
Theorem two_roles_scenario :
  exists s_new s1 s2,
    BankersAlgorithm_new 2 2 = Some s_new /\
    two_roles_setup s_new = Ret (tt, two_roles) /\
    requestResources 0 [1; 0] two_roles = Ret (true, s1) /\
    available s1 = [1; 1] /\
    requestResources 1 [1; 1] s1 = Ret (true, s2) /\
    available s2 = [0; 0] /\
    isSafe s2 = Ret (true, s2) /\
    completes s2 (available s2) [1; 0] = true /\
    completes s2 (available s2) [0; 1] = false.
Proof.
  exists (mkBankers 2 2 [0; 0] [0; 0] [[0; 0]; [0; 0]] [[0; 0]; [0; 0]] [[0; 0]; [0; 0]]),
         (granted 0 [1; 0] two_roles),
         (granted 1 [1; 1] (granted 0 [1; 0] two_roles)).
  repeat split; vm_compute; reflexivity.
Qed.

(** C10.  [isSafe] leaves every field of the ledger as it found it. *)
Theorem isSafe_read_only s b s' :
  isSafe s = Ret (b, s') -> s' = s.
Proof.
  revert s b s'. change (read_only isSafe). unfold isSafe.
  apply read_only_bind; [apply read_only_load|]. intros n.
  unfold isSafe_within.
  apply read_only_bind; [apply read_only_load|]. intros w.
  apply read_only_bind; [apply read_only_load|]. intros m.
  apply read_only_bind; [|intros l; apply read_only_ret].
  apply read_only_while. intros l. apply read_only_scan_pass.
Qed.

Lemma isSafe_read_only_witness :
  isSafe two_roles = Ret (true, two_roles) /\ two_roles = two_roles.
Proof.
  split; [vm_compute; reflexivity|].
  apply (isSafe_read_only two_roles true two_roles). vm_compute; reflexivity.
Defined.

(** ** Conservation *)

Lemma for_each_preserves {A} (I : BankersAlgorithm -> Prop) idx
    (body : Z -> A -> Cmd A) a s a' s' :
  (forall i x t x' t', body i x t = Ret (x', t') -> I t -> I t') ->
  I s -> for_each idx body a s = Ret (a', s') -> I s'.
Proof.
  intros Hbody. revert a s. induction idx as [|i idx IH]; intros a s Hs H; simpl in H.
  - by apply ret_Ret in H as [_ ->].
  - apply bind_Ret in H as (x & t & Hb & Hrest).
    eapply IH; [|done]. by eapply Hbody.
Qed.

Lemma sumZ_alter (f : list Z -> Z) (g : list Z -> list Z) m i x :
  m !! i = Some x ->
  sumZ (f <$> alter g i m) = sumZ (f <$> m) - f x + f (g x).
Proof.
  revert i. induction m as [|y m IH]; intros [|i] Hx; simplify_eq/=.
  - unfold sumZ. simpl. lia.
  - specialize (IH i Hx). unfold sumZ in *. simpl in *. lia.
Qed.

Lemma entry_alter (g : Z -> Z) v r r' :
  0 <= r -> 0 <= r' -> is_Some (v !! Z.to_nat r) ->
  entry (alter g (Z.to_nat r) v) r' = if decide (r' = r) then g (entry v r') else entry v r'.
Proof.
  intros Hr Hr' [x Hx]. unfold entry. case_decide as Heq.
  - subst. by rewrite list_lookup_alter_eq, Hx.
  - by rewrite list_lookup_alter_ne by lia.
Qed.

Lemma conserved_move : kept_by_moves conserved.
Proof.
  intros p amount sign r s
    (Hr & Hp & q & a & arow & al & nrow & nd & Hq & Ha & Har & Hal & _) Hcons.
  intros r' Hr'. specialize (Hcons r' Hr'). unfold allocated in *. simpl in *.
  rewrite (sumZ_alter _ _ _ _ _ Har).
  rewrite !entry_alter by (done || lia).
  case_decide; lia.
Qed.

Lemma kept_move_loop I (body : Z -> Cmd unit) p amount sign idx s u s' :
  kept_by_moves I ->
  (forall r t u' t', body r t = Ret (u', t') <->
                     movable p amount sign r t /\ t' = move p amount sign r t) ->
  I s ->
  for_each idx (fun r _ => body r) tt s = Ret (u, s') -> I s'.
Proof.
  intros HI Hbody Hs. apply for_each_preserves; [|done].
  intros r x t x' t' Hb Ht. apply Hbody in Hb as [Hmov ->]. by apply HI.
Qed.

Lemma kept_requestResources I p req s b s' :
  kept_by_moves I -> I s -> requestResources p req s = Ret (b, s') -> I s'.
Proof.
  intros HI Hs H. unfold requestResources in H.
  apply bind_Ret in H as (n & s1 & Hn & H). apply load_Ret in Hn as [-> ->].
  apply bind_Ret in H as (b1 & s1 & H1 & H).
  apply read_only_for_first in H1 as ->; [|auto 10 with read_only].
  destruct b1; [by apply ret_Ret in H as [_ ->]|].
  apply bind_Ret in H as (b2 & s2 & H2 & H).
  apply read_only_for_first in H2 as ->; [|auto 10 with read_only].
  destruct b2; [by apply ret_Ret in H as [_ ->]|].
  apply bind_Ret in H as (u & s3 & H3 & H).
  apply (kept_move_loop I (take p req) p req 1) in H3;
    [|done|intros; apply take_Ret|done].
  apply bind_Ret in H as (safe & s4 & H4 & H).
  apply read_only_isSafe in H4 as ->.
  destruct safe; [by apply ret_Ret in H as [_ ->]|].
  apply bind_Ret in H as (u' & s5 & H5 & H). apply ret_Ret in H as [_ ->].
  by apply (kept_move_loop I (give_back p req) p req (-1)) in H5;
    [|done|intros; apply give_back_Ret|].
Qed.

Lemma kept_releaseResources I p rel s u s' :
  kept_by_moves I -> I s -> releaseResources p rel s = Ret (u, s') -> I s'.
Proof.
  intros HI Hs H. unfold releaseResources in H.
  apply bind_Ret in H as (n & s1 & Hn & H). apply load_Ret in Hn as [-> ->].
  by apply (kept_move_loop I (free p rel) p rel (-1)) in H;
    [|done|intros; apply free_Ret|].
Qed.

(** [setMaximum] writes [maximum] and [need] only. *)
Lemma setMaximum_frame p md s u s' :
  setMaximum p md s = Ret (u, s') ->
  exists mx nd,
    s' = mkBankers (num_resources s) (num_processes s) (total_resources s) (available s)
           mx (allocation s) nd.
Proof.
  unfold setMaximum. intros H.
  apply bind_Ret in H as (mx & s1 & Hmx & H). apply load_Ret in Hmx as [-> ->].
  apply bind_Ret in H as (mx' & s1 & Hup & H).
  apply update_at_Ret in Hup as (x & x' & _ & _ & Hret & ->).
  apply ret_Ret in Hret as [-> ->].
  apply bind_Ret in H as (u1 & s1 & Hst & H).
  unfold store_maximum in Hst. injection Hst as _ <-.
  apply bind_Ret in H as (n & s1 & Hn & H). apply load_Ret in Hn as [-> ->].
  apply (for_each_preserves
           (fun t => exists mx nd,
              t = mkBankers (num_resources s) (num_processes s) (total_resources s)
                    (available s) mx (allocation s) nd)) in H; [done| |by eexists _, _].
  intros i y t y' t' Hbody (mx & nd & ->). inv_cmd. simpl. by eexists _, _.
Qed.

Lemma kept_setMaximum I p md s u s' :
  blind_to_demand I -> I s -> setMaximum p md s = Ret (u, s') -> I s'.
Proof.
  intros HI Hs H. apply setMaximum_frame in H as (mx & nd & ->). by apply HI.
Qed.

Lemma kept_perform_all I calls s u s' :
  kept_by_moves I -> blind_to_demand I ->
  I s -> perform_all calls s = Ret (u, s') -> I s'.
Proof.
  intros HI HI'. revert s. induction calls as [|c calls IH]; intros s Hs H; simpl in H.
  - by apply ret_Ret in H as [_ ->].
  - apply bind_Ret in H as (u1 & s1 & Hc & H). eapply IH; [|done].
    destruct c as [p md|p req|p rel]; simpl in Hc.
    + by eapply kept_setMaximum.
    + apply bind_Ret in Hc as (b & s2 & Hreq & Hret). apply ret_Ret in Hret as [_ ->].
      by eapply kept_requestResources.
    + by eapply kept_releaseResources.
Qed.

Lemma sumZ_replicate_zero (f : list Z -> Z) n x :
  f x = 0 -> sumZ (f <$> replicate n x) = 0.
Proof.
  intros Hx. induction n as [|n IH]; [done|].
  change (sumZ (f <$> replicate (S n) x)) with (f x + sumZ (f <$> replicate n x)). lia.
Qed.

Lemma entry_replicate_zero n r : entry (replicate n 0) r = 0.
Proof.
  unfold entry. destruct (replicate n 0 !! Z.to_nat r) as [x|] eqn:Hx; [|done].
  by apply lookup_replicate in Hx as [-> _].
Qed.

(** C3.  On a freshly constructed ledger, after [setTotalResources total]
    and any sequence of [requestResources] and [releaseResources] calls
    (and of [setMaximum] calls, which a client needs before anything is
    granted), [available[r]] plus the allocations of all roles is
    [total_resources[r]] for every resource kind [r], [total_resources]
    still being the vector that was set.  The sequence is arbitrary, so
    this holds after each of its calls. *)
Theorem conservation resources processes total calls s_new s :
  BankersAlgorithm_new resources processes = Some s_new ->
  (setTotalResources total ;; perform_all calls) s_new = Ret (tt, s) ->
  conserved s /\ total_resources s = total /\ num_resources s = resources.
Proof.
  intros Hnew Hrun. apply bind_Ret in Hrun as (u & s0 & Hset & Hcalls).
  unfold BankersAlgorithm_new in Hnew.
  destruct ((resources <? 0) || (processes <? 0)); [done|]. simplify_eq.
  unfold setTotalResources in Hset. inv_cmd. simpl in *.
  split; [|split].
  - eapply (kept_perform_all conserved); [apply conserved_move| | |done].
    + intros t mx nd Ht. exact Ht.
    + intros r Hr. unfold allocated. simpl.
      rewrite sumZ_replicate_zero by apply entry_replicate_zero. lia.
  - eapply (kept_perform_all (fun t => total_resources t = total)); [| | |done].
    + by intros p amount sign r t _ Ht.
    + by intros t mx nd Ht.
    + done.
  - eapply (kept_perform_all (fun t => num_resources t = resources)); [| | |done].
    + by intros p amount sign r t _ Ht.
    + by intros t mx nd Ht.
    + done.
Qed.

Lemma conservation_witness :
  let s := mkBankers 2 2 [2; 1] [1; 0] [[2; 1]; [1; 1]] [[0; 0]; [1; 1]] [[2; 1]; [0; 0]] in
  conserved s /\ total_resources s = [2; 1] /\ num_resources s = 2.
Proof.
  apply (conservation 2 2 [2; 1]
           [SetMaximum 0 [2; 1]; SetMaximum 1 [1; 1];
            Request 0 [1; 0]; Request 1 [1; 1]; Release 0 [1; 0]]
           (mkBankers 2 2 [0; 0] [0; 0] [[0; 0]; [0; 0]] [[0; 0]; [0; 0]] [[0; 0]; [0; 0]]));
    vm_compute; reflexivity.
Defined.

(** ** [setMaximum] *)

Lemma derive_need_Ret p md al i s u s' :
  maximum s !! Z.to_nat p = Some md -> allocation s !! Z.to_nat p = Some al ->
  (mx <- load maximum ;;
   mrow <- at_ mx p ;;
   m <- at_ mrow i ;;
   al <- load allocation ;;
   arow <- at_ al p ;;
   a <- at_ arow i ;;
   d <- int_sub m a ;;
   nd <- load need ;;
   nd' <- update_at nd p (fun row => update_at row i (fun _ => ret d)) ;;
   store_need nd') s = Ret (u, s') <->
  (0 <= p /\ 0 <= i /\ is_Some (md !! Z.to_nat i) /\ is_Some (al !! Z.to_nat i) /\
   INT_MIN <= entry md i - entry al i <= INT_MAX /\
   exists nrow, need s !! Z.to_nat p = Some nrow /\ is_Some (nrow !! Z.to_nat i)) /\
  s' = derive_need p md al i s.
Proof.
  intros Hmx Hal. split.
  - intros H. inv_cmd. simpl in *. simplify_eq.
    rename select (md !! _ = Some _) into Hm.
    rename select (al !! _ = Some _) into Ha.
    rename select (need s !! _ = Some _) into Hnr.
    rename select (_ !! Z.to_nat i = Some _) into Hn.
    rewrite (entry_lookup _ _ _ Hm), (entry_lookup _ _ _ Ha). split.
    + split; [done|]. split; [done|]. split; [by eexists|].
      split; [by eexists|]. split; [done|]. eexists. split; [done|by eexists].
    + unfold derive_need, with_need. f_equal.
      rewrite <- (insert_alter _ _ _ _ Hnr). f_equal.
      rewrite (entry_lookup _ _ _ Hm), (entry_lookup _ _ _ Ha).
      apply (insert_alter (fun _ => _) _ _ _ Hn).
  - intros [(Hp & Hi & [m Hm] & [a Ha] & Hb & nrow & Hnr & [n Hn]) ->].
    rewrite (entry_lookup _ _ _ Hm), (entry_lookup _ _ _ Ha) in *.
    destruct u. run_cmd. unfold derive_need, with_need. repeat f_equal.
    rewrite <- (insert_alter _ _ _ _ Hnr). f_equal.
    rewrite (entry_lookup _ _ _ Hm), (entry_lookup _ _ _ Ha).
    apply (insert_alter (fun _ => _) _ _ _ Hn).
Qed.

Lemma run_steps_derive_need p md al idx s :
  run_steps (fun i st => (tt, derive_need p md al i st.2)) idx (tt, s) =
  (tt, with_need (alter (alter_all (fun r _ => entry md r - entry al r) idx) (Z.to_nat p)
                        (need s)) s).
Proof.
  unfold run_steps. revert s. induction idx as [|i idx IH]; intros s; simpl.
  - unfold alter_all. simpl. rewrite list_alter_id by done. by destruct s.
  - rewrite IH. unfold derive_need, with_need. simpl.
    by rewrite list_alter_alter_eq.
Qed.

Lemma setMaximum_Ret p md s u s' :
  shaped s -> 0 <= p < num_processes s ->
  Z.of_nat (length md) = num_resources s ->
  setMaximum p md s = Ret (u, s') <->
  all_int (vsub md (row (allocation s) p)) = true /\ s' = with_maximum p md s.
Proof.
  intros Hs Hp Hlen.
  destruct (shaped_row_allocation s p Hs Hp) as (Har & Harlen & _).
  destruct (shaped_row_need s p Hs Hp) as (Hnr & Hnrlen & _).
  pose proof (shaped_maximum s Hs) as Hmx.
  destruct (lookup_lt_is_Some_2 (maximum s) (Z.to_nat p)) as [mrow Hmrow]; [lia|].
  set (s1 := mkBankers (num_resources s) (num_processes s) (total_resources s)
               (available s) (<[Z.to_nat p := md]> (maximum s)) (allocation s) (need s)).
  assert (maximum s1 !! Z.to_nat p = Some md) as Hmd.
  { simpl. apply list_lookup_insert_eq. lia. }
  unfold setMaximum.
  set (body := fun (i : Z) (_ : unit) => _).
  transitivity (for_each (seqZ 0 (num_resources s)) body tt s1 = Ret (u, s')).
  { unfold for_range. run_cmd. done. }
  rewrite (for_each_Ret (fun i st => (tt, derive_need p md (row (allocation s) p) i st.2))
     (fun i st => 0 <= p /\ 0 <= i /\ is_Some (md !! Z.to_nat i) /\
                  is_Some ((row (allocation s) p) !! Z.to_nat i) /\
                  INT_MIN <= entry md i - entry (row (allocation s) p) i <= INT_MAX /\
                  exists nrow, need st.2 !! Z.to_nat p = Some nrow /\
                               is_Some (nrow !! Z.to_nat i))
     (fun st => maximum st.2 !! Z.to_nat p = Some md /\
                allocation st.2 !! Z.to_nat p = Some (row (allocation s) p))); [| |done].
  - rewrite run_steps_derive_need. destruct u.
    assert (with_need (alter (alter_all (fun r _ => entry md r - entry (row (allocation s) p) r)
                                (seqZ 0 (num_resources s))) (Z.to_nat p) (need s1)) s1 =
            with_maximum p md s) as ->.
    { unfold with_need, with_maximum. simpl. f_equal.
      rewrite <- (insert_alter _ _ _ _ Hnr). f_equal.
      rewrite (alter_all_zip_with (fun _ d => d) _ _ _ (vsub md (row (allocation s) p))).
      - apply list_eq. intros i. rewrite lookup_zip_with.
        destruct (row (need s) p !! i) eqn:Hx; simpl.
        + by destruct (vsub md (row (allocation s) p) !! i).
        + apply lookup_ge_None in Hx. symmetry. apply lookup_ge_None.
          rewrite length_vsub; lia.
      - done.
      - rewrite length_vsub; lia.
      - intros r _ Hr. unfold vsub. rewrite entry_zip_with; [done|lia..]. }
    split.
    + intros [Hok [= ->]]. split; [|done]. apply all_int_entries.
      rewrite length_vsub by lia. intros r Hr.
      assert (r ∈ seqZ 0 (num_resources s)) as Hin by (apply elem_of_seqZ; lia).
      apply list_elem_of_split in Hin as (pre & post & Hsplit).
      destruct (Hok pre r post Hsplit) as (_ & _ & _ & _ & Hb & _).
      unfold vsub. rewrite entry_zip_with; [done|lia..].
    + intros [Hint ->]. split; [|done]. intros pre r post Hsplit.
      rewrite run_steps_derive_need. simpl.
      assert (r ∈ seqZ 0 (num_resources s)) as Hin.
      { rewrite Hsplit. apply elem_of_app. right. by left. }
      apply elem_of_seqZ in Hin.
      split; [lia|]. split; [lia|].
      split; [apply lookup_lt_is_Some_2; lia|].
      split; [apply lookup_lt_is_Some_2; lia|].
      split.
      * pose proof (all_int_entry _ r Hint) as Hb. unfold vsub in Hb.
        rewrite entry_zip_with in Hb by lia. apply Hb. rewrite length_zip_with. lia.
      * eexists. split; [by rewrite list_lookup_alter_eq, Hnr|].
        apply lookup_lt_is_Some_2. rewrite alter_all_length. lia.
  - intros i [] t Hi [Hmt Hat]. simpl in *. split.
    + intros [] t'. unfold body.
      rewrite (derive_need_Ret p md (row (allocation s) p)) by done. split.
      * intros [? ->]. done.
      * intros [? [= ->]]. done.
    + intros _. done.
Qed.

(** C5, as the code has it.  [setMaximum] compares nothing with the
    allocation and has no way to fail: for a role [p] of the ledger and a
    demand vector with one entry per resource kind (the differences being
    [int]s) it stores the vector as [maximum[p]] and sets [need[p][r]] to
    [max_demand[r] - allocation[p][r]], a negative number where the
    allocation is above the new maximum. *)
Theorem setMaximum_commits p md s :
  well_formed s = true ->
  0 <= p < num_processes s ->
  Z.of_nat (length md) = num_resources s ->
  all_int (vsub md (row (allocation s) p)) = true ->
  setMaximum p md s = Ret (tt, with_maximum p md s) /\
  row (maximum (with_maximum p md s)) p = md /\
  forall r, 0 <= r < num_resources s ->
    entry (row (need (with_maximum p md s)) p) r =
    entry md r - entry (row (allocation s) p) r.
Proof.
  intros Hwf Hp Hlen Hint. apply well_formed_shaped in Hwf.
  destruct (shaped_row_allocation s p Hwf Hp) as (Har & Harlen & _).
  pose proof (proj1 (has_shape_spec _ _ _) (shaped_need s Hwf)) as [Hndl _].
  pose proof (shaped_maximum s Hwf) as Hmx.
  split; [by apply setMaximum_Ret|]. simpl. split.
  - unfold row. rewrite list_lookup_insert_eq by lia. done.
  - intros r Hr. unfold row at 1. rewrite list_lookup_insert_eq by lia. simpl.
    unfold vsub. rewrite entry_zip_with; [done|lia..].
Qed.

Lemma setMaximum_commits_witness :
  setMaximum 0 [0] holding_one = Ret (tt, with_maximum 0 [0] holding_one) /\
  row (maximum (with_maximum 0 [0] holding_one)) 0 = [0] /\
  forall r, 0 <= r < num_resources holding_one ->
    entry (row (need (with_maximum 0 [0] holding_one)) 0) r =
    entry [0] r - entry (row (allocation holding_one) 0) r.
Proof.
  apply (setMaximum_commits 0 [0] holding_one);
    [vm_compute; reflexivity | simpl; lia | reflexivity | vm_compute; reflexivity].
Defined.

(** C5, as stated, fails: role 0 holds one unit (granted through the
    class's own calls), and [setMaximum 0 [0]] returns normally with the
    new maximum committed and [need[0][0] = -1]. *)
Lemma setMaximum_below_allocation :
  (setTotalResources [1] ;; setMaximum 0 [1] ;; requestResources 0 [1])
    (mkBankers 1 1 [0] [0] [[0]] [[0]] [[0]]) = Ret (true, holding_one) /\
  entry (row (allocation holding_one) 0) 0 > entry [0] 0 /\
  setMaximum 0 [0] holding_one =
  Ret (tt, mkBankers 1 1 [1] [0] [[0]] [[1]] [[-1]]).
Proof. repeat split; vm_compute; reflexivity. Qed.

(** ** The passes of [isSafe] *)

Lemma budget_free_ret {A} (a : A) : budget_free (ret a).
Proof. by intros s. Qed.

Lemma budget_free_undefined {A} : budget_free (@undefined A).
Proof. by intros s. Qed.

Lemma budget_free_load {A} (f : BankersAlgorithm -> A) : budget_free (load f).
Proof. by intros s. Qed.

Lemma budget_free_bind {A B} (c : Cmd A) (k : A -> Cmd B) :
  budget_free c -> (forall a, budget_free (k a)) -> budget_free (bind c k).
Proof.
  intros Hc Hk s. unfold bind. specialize (Hc s).
  destruct (c s) as [[a s']| |]; [apply Hk|done..].
Qed.

Lemma budget_free_if {A} (b : bool) (c1 c2 : Cmd A) :
  budget_free c1 -> budget_free c2 -> budget_free (if b then c1 else c2).
Proof. by destruct b. Qed.

Lemma budget_free_at {A} (v : list A) i : budget_free (at_ v i).
Proof.
  intros s. unfold at_. destruct (i <? 0); [done|]. by destruct (v !! Z.to_nat i).
Qed.

Lemma budget_free_int_add a b : budget_free (int_add a b).
Proof. intros s. unfold int_add. by destruct (is_int (a + b)). Qed.

Lemma budget_free_update_at {A} (v : list A) i f :
  (forall x, budget_free (f x)) -> budget_free (update_at v i f).
Proof.
  intros Hf. unfold update_at.
  apply budget_free_bind; [apply budget_free_at|]. intros x.
  apply budget_free_bind; [apply Hf|]. intros x'. apply budget_free_ret.
Qed.

Lemma budget_free_for_each {A} idx (body : Z -> A -> Cmd A) a :
  (forall i x, budget_free (body i x)) -> budget_free (for_each idx body a).
Proof.
  intros Hb. revert a. induction idx as [|i rest IH]; intros a; simpl.
  - apply budget_free_ret.
  - apply budget_free_bind; [apply Hb | intros a'; apply IH].
Qed.

Lemma budget_free_for_first idx test :
  (forall i, budget_free (test i)) -> budget_free (for_first idx test).
Proof.
  intros Ht. induction idx as [|i rest IH]; simpl.
  - apply budget_free_ret.
  - apply budget_free_bind; [apply Ht|]. intros b.
    apply budget_free_if; [apply budget_free_ret | apply IH].
Qed.

Create HintDb budget_free.
#[local] Hint Resolve budget_free_ret budget_free_undefined budget_free_load
  budget_free_at budget_free_int_add : budget_free.
#[local] Hint Extern 2 (budget_free (bind _ _)) =>
  apply budget_free_bind; [|intros ?] : budget_free.
#[local] Hint Extern 2 (budget_free (if _ then _ else _)) =>
  apply budget_free_if : budget_free.
#[local] Hint Extern 2 (budget_free (update_at _ _ _)) =>
  apply budget_free_update_at; intros ? : budget_free.
#[local] Hint Extern 2 (budget_free (for_range _ _ _)) =>
  apply budget_free_for_each; intros ? ? : budget_free.
#[local] Hint Extern 2 (budget_free (exists_in_range _ _)) =>
  apply budget_free_for_first; intros ? : budget_free.

Lemma budget_free_try_finish p l : budget_free (try_finish p l).
Proof. unfold try_finish, lacks. auto 30 with budget_free. Qed.

Lemma budget_free_scan_pass l : budget_free (scan_pass l).
Proof.
  unfold scan_pass. apply budget_free_bind; [apply budget_free_load|]. intros n.
  apply budget_free_for_each. intros p x. apply budget_free_try_finish.
Qed.

Lemma while_enough_fuel {A} (cond : A -> bool) (body : A -> Cmd A) fuel fuel' a s :
  while_ fuel cond body a s <> NoFuel -> (fuel <= fuel')%nat ->
  while_ fuel' cond body a s = while_ fuel cond body a s.
Proof.
  revert fuel' a s. induction fuel as [|fuel IH]; intros fuel' a s Hne Hle.
  - simpl in *. destruct (cond a) eqn:Hc; [done|].
    destruct fuel'; simpl; by rewrite Hc.
  - destruct fuel' as [|fuel']; [lia|]. simpl in *.
    destruct (cond a); [|done]. unfold bind in *.
    destruct (body a s) as [[a' s']| |]; [|done..].
    apply IH; [done|lia].
Qed.

Lemma for_each_invariant {A} (J : A -> Prop) idx (body : Z -> A -> Cmd A) a s a' s' :
  (forall i x t x' t', i ∈ idx -> body i x t = Ret (x', t') -> J x -> J x') ->
  J a -> for_each idx body a s = Ret (a', s') -> J a'.
Proof.
  revert a s. induction idx as [|i idx IH]; intros a s Hbody Ha H; simpl in H.
  - by apply ret_Ret in H as [-> _].
  - apply bind_Ret in H as (x & t & Hb & Hrest).
    eapply IH; [|eapply Hbody; [left|done..]|done].
    intros j y u y' u' Hj. apply Hbody. by right.
Qed.

Lemma unfinished_insert fin i :
  fin !! i = Some false ->
  S (length (filter (fun f => f = false) (<[i := true]> fin))) =
  length (filter (fun f => f = false) fin).
Proof.
  revert i. induction fin as [|f fin IH]; intros [|i] Hi; simplify_eq/=.
  - rewrite !filter_cons. repeat case_decide; simplify_eq; done.
  - specialize (IH i Hi). rewrite !filter_cons.
    repeat case_decide; simplify_eq; simpl; by rewrite ?IH.
Qed.

(** What one visit of a role does to the locals of [isSafe]. *)
Lemma try_finish_cases p l s l' s' :
  try_finish p l s = Ret (l', s') ->
  l' = l \/
  (finish l !! Z.to_nat p = Some false /\ 0 <= p /\
   finish l' = <[Z.to_nat p := true]> (finish l) /\ progress l' = true).
Proof.
  unfold try_finish. intros H.
  apply bind_Ret in H as (f & s1 & Hf & H). apply at_Ret in Hf as (Hp & Hf & ->).
  destruct f; [apply ret_Ret in H as [-> _]; by left|].
  apply bind_Ret in H as (n & s1 & _ & H).
  apply bind_Ret in H as (short & s2 & _ & H).
  destruct short; simpl in H; [apply ret_Ret in H as [-> _]; by left|].
  apply bind_Ret in H as (w' & s3 & _ & H).
  apply bind_Ret in H as (fin' & s4 & Hfin & H).
  apply update_at_Ret in Hfin as (x & x' & _ & Hx & Hret & ->).
  apply ret_Ret in Hret as [-> _]. apply ret_Ret in H as [-> _]. right. done.
Qed.

Lemma scan_pass_progress l s l' s' :
  scan_pass l s = Ret (l', s') ->
  if progress l' then (unfinished l' < unfinished l)%nat
  else work l' = work l /\ finish l' = finish l.
Proof.
  unfold scan_pass. intros H. apply bind_Ret in H as (n & s1 & Hn & H).
  apply load_Ret in Hn as [-> ->].
  eapply (for_each_invariant
            (fun x => if progress x then (unfinished x < unfinished l)%nat
                      else work x = work l /\ finish x = finish l)) in H; [done| |done].
  intros p x t x' t' _ Hstep Hx. apply try_finish_cases in Hstep as [->|Hstep]; [done|].
  destruct Hstep as (Hf & _ & Hfin & ->).
  assert (S (unfinished x') = unfinished x) as Hdec.
  { unfold unfinished. rewrite Hfin. by apply unfinished_insert. }
  destruct (progress x); [lia|]. destruct Hx as [_ Hx]. unfold unfinished in *.
  rewrite <- Hx. lia.
Qed.

Lemma while_scan_terminates fuel l s :
  (unfinished l < fuel)%nat -> while_ fuel progress scan_pass l s <> NoFuel.
Proof.
  revert l s. induction fuel as [|fuel IH]; intros l s Hlt; [lia|]. simpl.
  destruct (progress l); [|done]. unfold bind.
  destruct (scan_pass l s) as [[l' s']| |] eqn:Hpass;
    [|done|by apply budget_free_scan_pass in Hpass].
  apply scan_pass_progress in Hpass. destruct (progress l') eqn:Hp.
  - apply IH. lia.
  - destruct fuel; simpl; by rewrite Hp.
Qed.

Lemma unfinished_initial w n b :
  unfinished (mkLocals w (replicate n false) b) = n.
Proof.
  unfold unfinished. simpl. induction n as [|n IH]; simpl; [done|]. by rewrite IH.
Qed.

(** C6.  The scan loop of [isSafe] terminates within [num_processes + 1]
    passes: a pass that reports progress has marked a role finished that
    was not (so fewer roles remain unfinished), a pass that reports none
    has changed nothing and is the last; hence a budget of
    [num_processes + 1] passes is never exhausted, and a larger one gives
    the same result. *)
Theorem isSafe_passes s :
  (forall l l' s', scan_pass l s = Ret (l', s') ->
     if progress l' then (unfinished l' < unfinished l)%nat
     else work l' = work l /\ finish l' = finish l) /\
  isSafe s <> NoFuel /\
  (forall fuel, (S (Z.to_nat (num_processes s)) <= fuel)%nat ->
     isSafe_within fuel s = isSafe s).
Proof.
  split; [intros l l' s'; apply scan_pass_progress|].
  assert (while_ (S (Z.to_nat (num_processes s))) progress scan_pass
            (mkLocals (available s) (replicate (Z.to_nat (num_processes s)) false) true) s
          <> NoFuel) as Hloop.
  { apply while_scan_terminates. rewrite unfinished_initial. lia. }
  split.
  - unfold isSafe, isSafe_within, bind, load.
    destruct (while_ _ _ _ _ s) as [[l s']| |]; [done|done|done].
  - intros fuel Hfuel. unfold isSafe, isSafe_within, bind, load.
    by rewrite (while_enough_fuel _ _ _ fuel _ _ Hloop Hfuel).
Qed.

(** ** One visit of a role in [isSafe] *)

Lemma for_each_prefix_invariant {A} (J : list Z -> A -> BankersAlgorithm -> Prop)
    idx (body : Z -> A -> Cmd A) a s a' s' :
  (forall pre i post x t x' t', idx = pre ++ i :: post ->
     body i x t = Ret (x', t') -> J pre x t -> J (pre ++ [i]) x' t') ->
  J [] a s -> for_each idx body a s = Ret (a', s') -> J idx a' s'.
Proof.
  intros Hbody Ha H.
  assert (forall done todo x t, idx = done ++ todo -> J done x t ->
            for_each todo body x t = Ret (a', s') -> J idx a' s') as Hgen.
  { intros done todo. revert done.
    induction todo as [|i todo IH]; intros done x t Hidx Hx Hrun; simpl in Hrun.
    - apply ret_Ret in Hrun as [-> ->]. by rewrite Hidx, app_nil_r.
    - apply bind_Ret in Hrun as (y & u & Hb & Hrest).
      apply (IH (done ++ [i]) y u); [by rewrite <- app_assoc| |done].
      by eapply Hbody. }
  by apply (Hgen [] idx a s).
Qed.

Lemma lacks_Ret p w s :
  shaped s -> 0 <= p < num_processes s ->
  Z.of_nat (length w) = num_resources s ->
  exists_in_range (num_resources s) (lacks p w) s = Ret (negb (fits s p w), s).
Proof.
  intros Hs Hp Hlen. unfold fits. rewrite <- existsb_ltb_le_all.
  destruct (shaped_row_need s p Hs Hp) as (Hnr & Hnrlen & _).
  apply for_first_pure. intros r Hr. apply elem_of_seqZ in Hr.
  assert (w !! Z.to_nat r = Some (entry w r)) by (apply lookup_entry; lia).
  assert (row (need s) p !! Z.to_nat r = Some (entry (row (need s) p) r))
    by (apply lookup_entry; lia).
  unfold lacks. run_cmd. done.
Qed.

Lemma run_steps_accumulate p idx w s :
  run_steps (fun r (st : list Z * BankersAlgorithm) =>
               (alter (fun x => x + entry (row (allocation s) p) r) (Z.to_nat r) st.1, s))
            idx (w, s) =
  (alter_all (fun r x => x + entry (row (allocation s) p) r) idx w, s).
Proof.
  unfold run_steps, alter_all. revert w. induction idx as [|r idx IH]; intros w; simpl; [done|].
  by rewrite IH.
Qed.

(** The loop [work[r] += allocation[p][r]]. *)
Lemma accumulate_Ret p w s w' s' :
  shaped s -> 0 <= p < num_processes s ->
  Z.of_nat (length w) = num_resources s ->
  for_range (num_resources s) (fun r w =>
      al <- load allocation ;;
      arow <- at_ al p ;;
      a <- at_ arow r ;;
      update_at w r (fun x => int_add x a)) w s = Ret (w', s') <->
  all_int (grow s p w) = true /\ w' = grow s p w /\ s' = s.
Proof.
  intros Hs Hp Hlen.
  destruct (shaped_row_allocation s p Hs Hp) as (Har & Harlen & _).
  unfold for_range.
  rewrite (for_each_Ret
     (fun r (st : list Z * BankersAlgorithm) =>
        (alter (fun x => x + entry (row (allocation s) p) r) (Z.to_nat r) st.1, s))
     (fun r st => 0 <= r < num_resources s /\
                  exists x, st.1 !! Z.to_nat r = Some x /\
                            INT_MIN <= x + entry (row (allocation s) p) r <= INT_MAX)
     (fun st => st.2 = s)); [| |done].
  - rewrite run_steps_accumulate.
    assert (alter_all (fun r x => x + entry (row (allocation s) p) r)
              (seqZ 0 (num_resources s)) w = grow s p w) as ->.
    { unfold grow, vadd. apply alter_all_zip_with; [done|done|]. intros; lia. }
    split.
    + intros [Hok [= -> ->]]. split; [|done]. apply all_int_entries.
      unfold grow. rewrite length_vadd by lia. intros r Hr.
      assert (r ∈ seqZ 0 (num_resources s)) as Hin by (apply elem_of_seqZ; lia).
      apply list_elem_of_split in Hin as (pre & post & Hsplit).
      destruct (Hok pre r post Hsplit) as (_ & x & Hx & Hb).
      rewrite run_steps_accumulate in Hx. simpl in Hx.
      pose proof (NoDup_seqZ 0 (num_resources s)) as Hnd. rewrite Hsplit in Hnd.
      assert (Forall (fun i => 0 <= i) (pre ++ r :: post)) as Hpos.
      { rewrite <- Hsplit. apply Forall_seqZ. lia. }
      apply Forall_app in Hpos as [Hpos _].
      apply NoDup_app in Hnd as (Hnd1 & Hnd2 & _).
      rewrite alter_all_lookup in Hx by done.
      rewrite decide_False in Hx.
      2:{ rewrite Z2Nat.id by lia. intros Hin. apply (Hnd2 r Hin). by left. }
      unfold vadd. rewrite entry_zip_with by lia.
      by rewrite (entry_lookup _ _ _ Hx).
    + intros (Hint & -> & ->). split; [|done]. intros pre r post Hsplit.
      rewrite run_steps_accumulate. simpl.
      assert (r ∈ seqZ 0 (num_resources s)) as Hin.
      { rewrite Hsplit. apply elem_of_app. right. by left. }
      apply elem_of_seqZ in Hin. split; [lia|].
      pose proof (NoDup_seqZ 0 (num_resources s)) as Hnd. rewrite Hsplit in Hnd.
      assert (Forall (fun i => 0 <= i) (pre ++ r :: post)) as Hpos.
      { rewrite <- Hsplit. apply Forall_seqZ. lia. }
      apply Forall_app in Hpos as [Hpos _].
      apply NoDup_app in Hnd as (Hnd1 & Hnd2 & _).
      exists (entry w r). split.
      * rewrite alter_all_lookup by done. rewrite decide_False.
        -- apply lookup_entry. lia.
        -- rewrite Z2Nat.id by lia. intros Hin'. apply (Hnd2 r Hin'). by left.
      * pose proof (all_int_entry _ r Hint) as Hb. unfold grow, vadd in Hb.
        rewrite entry_zip_with in Hb by lia. apply Hb. rewrite length_zip_with. lia.
  - intros r w0 t Hr Ht. simpl in Ht. subst t. apply elem_of_seqZ in Hr. split; [|done].
    intros x' t'. simpl. split.
    + intros H. inv_cmd. simplify_eq.
      rename select (w0 !! _ = Some _) into Hw.
      rename select (row (allocation s) p !! _ = Some _) into Ha.
      rewrite (entry_lookup _ _ _ Ha). split.
      * split; [lia|]. eexists. split; [done|]. lia.
      * f_equal. apply (insert_alter (fun x => x + _) _ _ _ Hw).
    + intros [(_ & x & Hx & Hb) [= -> ->]].
      assert (row (allocation s) p !! Z.to_nat r = Some (entry (row (allocation s) p) r))
        by (apply lookup_entry; lia).
      run_cmd. f_equal. f_equal. apply (insert_alter (fun x => x + _) _ _ _ Hx).
Qed.

Lemma try_finish_Ret p l s l' s' :
  shaped s -> 0 <= p < num_processes s ->
  Z.of_nat (length (work l)) = num_resources s ->
  Z.of_nat (length (finish l)) = num_processes s ->
  try_finish p l s = Ret (l', s') <->
  s' = s /\
  if finished l p || negb (fits s p (work l)) then l' = l
  else all_int (grow s p (work l)) = true /\
       l' = mkLocals (grow s p (work l)) (<[Z.to_nat p := true]> (finish l)) true.
Proof.
  intros Hs Hp Hw Hf.
  destruct (lookup_lt_is_Some_2 (finish l) (Z.to_nat p)) as [f Hfp]; [lia|].
  unfold finished. rewrite Hfp. simpl.
  unfold try_finish. unfold bind at 1. rewrite (at_ok _ _ _ _ (proj1 Hp) Hfp).
  destruct f; simpl.
  { rewrite ret_Ret. split; intros [-> ->]; done. }
  unfold bind at 1. unfold load at 1. unfold bind at 1.
  rewrite lacks_Ret by done.
  destruct (fits s p (work l)); simpl.
  2:{ rewrite ret_Ret. split; intros [-> ->]; done. }
  rewrite bind_Ret. split.
  - intros (w' & s1 & Hacc & H). apply accumulate_Ret in Hacc as (Hint & -> & ->); [|done..].
    apply bind_Ret in H as (fin' & s2 & Hfin & H).
    apply update_at_Ret in Hfin as (x & x' & _ & Hx & Hret & ->).
    apply ret_Ret in Hret as [-> ->]. apply ret_Ret in H as [-> ->]. done.
  - intros (-> & Hint & ->). exists (grow s p (work l)), s. split.
    + by apply accumulate_Ret.
    + run_cmd. done.
Qed.

Lemma completes_app s w o1 o2 :
  completes s w (o1 ++ o2) = completes s w o1 && completes s (work_after s w o1) o2.
Proof.
  unfold work_after. revert w. induction o1 as [|q o1 IH]; intros w; simpl; [done|].
  by rewrite IH, andb_assoc.
Qed.

Lemma work_after_snoc s w qs q :
  work_after s w (qs ++ [q]) = grow s q (work_after s w qs).
Proof. unfold work_after. by rewrite foldl_app. Qed.

Lemma finished_insert l p q w b :
  0 <= p -> 0 <= q -> (Z.to_nat p < length (finish l))%nat ->
  finished (mkLocals w (<[Z.to_nat p := true]> (finish l)) b) q =
  if decide (q = p) then true else finished l q.
Proof.
  intros Hp Hq Hlen. unfold finished. simpl. case_decide as Heq.
  - subst. rewrite list_lookup_insert_eq by done. done.
  - rewrite list_lookup_insert_ne by lia. done.
Qed.

(** A visit keeps the invariant; a visit that changes nothing has found
    the role finished or not fitting. *)
Lemma try_finish_scan_inv s p l l' s' ended pre :
  shaped s -> 0 <= p < num_processes s ->
  try_finish p l s = Ret (l', s') ->
  scan_inv s ended l -> stuck s pre l ->
  s' = s /\ (exists ended', scan_inv s ended' l') /\ stuck s (pre ++ [p]) l'.
Proof.
  intros Hs Hp Hrun Hinv Hstuck.
  apply try_finish_Ret in Hrun as [-> Hrun]; [|done|done|apply Hinv..].
  split; [done|].
  destruct (finished l p || negb (fits s p (work l))) eqn:Hcase.
  - subst l'. split; [by exists ended|].
    intros Hprog q Hq. apply elem_of_app in Hq as [Hq|Hq]; [by apply Hstuck|].
    apply list_elem_of_singleton in Hq as ->.
    apply orb_true_iff in Hcase as [?|Hfit]; [by left|].
    right. by apply negb_true_iff.
  - destruct Hrun as [Hint ->].
    apply orb_false_iff in Hcase as [Hfin Hfit]. apply negb_false_iff in Hfit.
    split; [|intros Hprog; discriminate].
    assert (p ∉ ended) as Hnew.
    { intros Hin. rewrite (scan_finished s ended l Hinv p Hp) in Hfin.
      by rewrite bool_decide_eq_true_2 in Hfin. }
    exists (ended ++ [p]). constructor; simpl.
    + unfold grow. rewrite length_vadd.
      * apply Hinv.
      * destruct (shaped_row_allocation s p Hs Hp) as (_ & Hl & _).
        pose proof (scan_work_length s ended l Hinv). lia.
    + rewrite length_insert. apply Hinv.
    + apply NoDup_app. split; [apply Hinv|]. split; [|apply NoDup_singleton].
      intros x Hx Hx'. apply list_elem_of_singleton in Hx' as ->. done.
    + apply Forall_app. split; [apply Hinv|]. by apply Forall_singleton.
    + intros q Hq. rewrite finished_insert.
      * case_decide as Heq.
        -- subst. symmetry. apply bool_decide_eq_true_2. apply elem_of_app. right. by left.
        -- rewrite (scan_finished s ended l Hinv q Hq). apply bool_decide_ext.
           rewrite elem_of_app, list_elem_of_singleton.
           split; [by left | intros [?|?]; done].
      * lia.
      * lia.
      * pose proof (scan_finish_length s ended l Hinv). lia.
    + rewrite work_after_snoc. by rewrite <- (scan_work s ended l Hinv).
    + done.
    + rewrite completes_app, (scan_completes s ended l Hinv). simpl.
      rewrite <- (scan_work s ended l Hinv), Hfit. done.
Qed.

(** ** The scan as a whole *)

Lemma while_invariant {A} (J : A -> BankersAlgorithm -> Prop) fuel cond
    (body : A -> Cmd A) a s a' s' :
  (forall x t x' t', cond x = true -> J x t -> body x t = Ret (x', t') -> J x' t') ->
  J a s -> while_ fuel cond body a s = Ret (a', s') -> J a' s' /\ cond a' = false.
Proof.
  intros Hbody. revert a s. induction fuel as [|fuel IH]; intros a s Ha H; simpl in H.
  - destruct (cond a) eqn:Hc; [done|]. by apply ret_Ret in H as [-> ->].
  - destruct (cond a) eqn:Hc; [|by apply ret_Ret in H as [-> ->]].
    apply bind_Ret in H as (x & t & Hb & Hrest).
    eapply IH; [|done]. by eapply Hbody.
Qed.

Lemma scan_inv_progress s ended l b :
  scan_inv s ended l -> scan_inv s ended (mkLocals (work l) (finish l) b).
Proof. intros []. by constructor. Qed.

Lemma scan_pass_inv s l l' s' ended :
  shaped s -> scan_pass l s = Ret (l', s') -> scan_inv s ended l ->
  s' = s /\ (exists ended', scan_inv s ended' l') /\
  stuck s (seqZ 0 (num_processes s)) l'.
Proof.
  intros Hs Hrun Hinv. unfold scan_pass in Hrun.
  apply bind_Ret in Hrun as (n & s1 & Hn & Hrun). apply load_Ret in Hn as [-> ->].
  apply (for_each_prefix_invariant
           (fun pre x t => t = s /\ (exists e, scan_inv s e x) /\ stuck s pre x))
    in Hrun; [done| |].
  - intros pre p post x t x' t' Hsplit Hstep (-> & [e He] & Hst).
    assert (p ∈ seqZ 0 (num_processes s)) as Hp.
    { rewrite Hsplit. apply elem_of_app. right. by left. }
    apply elem_of_seqZ in Hp.
    by apply (try_finish_scan_inv s p x x' t' e pre); [|lia|..].
  - split; [done|]. split.
    + exists ended. by apply scan_inv_progress.
    + intros _ q Hq. by apply elem_of_nil in Hq.
Qed.

Lemma finished_replicate w n b q :
  finished (mkLocals w (replicate n false) b) q = false.
Proof.
  unfold finished. simpl.
  destruct (replicate n false !! Z.to_nat q) as [x|] eqn:Hx; [|done].
  by apply lookup_replicate in Hx as [-> _].
Qed.

Lemma scan_inv_initial s b :
  shaped s ->
  scan_inv s [] (mkLocals (available s) (replicate (Z.to_nat (num_processes s)) false) b).
Proof.
  intros Hs. constructor; simpl; try done.
  - apply Hs.
  - rewrite length_replicate. pose proof (shaped_processes s Hs). lia.
  - apply NoDup_nil_2.
  - intros q Hq. by rewrite finished_replicate.
  - apply Hs.
Qed.

(** What [isSafe] has established when it returns. *)
Lemma isSafe_scan s b s' :
  shaped s -> isSafe s = Ret (b, s') ->
  exists ended l,
    scan_inv s ended l /\
    (forall q, 0 <= q < num_processes s ->
       finished l q = true \/ fits s q (work l) = false) /\
    b = forallb id (finish l).
Proof.
  intros Hs Hrun. unfold isSafe, isSafe_within in Hrun.
  apply bind_Ret in Hrun as (n & s1 & Hn & Hrun). apply load_Ret in Hn as [-> ->].
  apply bind_Ret in Hrun as (w & s1 & Hn & Hrun). apply load_Ret in Hn as [-> ->].
  apply bind_Ret in Hrun as (n & s1 & Hn & Hrun). apply load_Ret in Hn as [-> ->].
  apply bind_Ret in Hrun as (l & s1 & Hloop & Hrun). apply ret_Ret in Hrun as [-> ->].
  apply (while_invariant
           (fun x t => t = s /\ (exists e, scan_inv s e x) /\
                       stuck s (seqZ 0 (num_processes s)) x)) in Hloop.
  - destruct Hloop as [(-> & [e He] & Hstuck) Hprog].
    exists e, l. split; [done|]. split; [|done].
    intros q Hq. apply Hstuck; [done|]. apply elem_of_seqZ. lia.
  - intros x t x' t' _ (-> & [e He] & _) Hpass.
    by apply (scan_pass_inv s x x' t' e).
  - split; [done|]. split.
    + exists []. by apply scan_inv_initial.
    + intros Hprog. discriminate.
Qed.

Lemma forallb_finish l n :
  Z.of_nat (length (finish l)) = n ->
  forallb id (finish l) = true <-> forall q, 0 <= q < n -> finished l q = true.
Proof.
  intros Hlen. rewrite <- Is_true_true, forallb_True, Forall_lookup. unfold finished.
  split.
  - intros H q Hq.
    destruct (lookup_lt_is_Some_2 (finish l) (Z.to_nat q)) as [f Hf]; [lia|].
    rewrite Hf. simpl. specialize (H _ _ Hf). by apply Is_true_true.
  - intros H i f Hf. assert (i < length (finish l))%nat by (by eapply lookup_lt_Some).
    specialize (H (Z.of_nat i)). rewrite Nat2Z.id, Hf in H. simpl in H.
    apply Is_true_true. apply H. lia.
Qed.

(** When every role ends up finished, the order in which they were
    marked is a completion ordering. *)
Lemma isSafe_true_order s s' :
  shaped s -> isSafe s = Ret (true, s') -> exists order, completion_order s order.
Proof.
  intros Hs Hrun. apply isSafe_scan in Hrun as (ended & l & Hinv & _ & Hall); [|done].
  symmetry in Hall.
  rewrite (forallb_finish l (num_processes s)) in Hall by apply Hinv.
  exists ended. split; [|apply Hinv].
  apply NoDup_Permutation; [apply Hinv | apply NoDup_seqZ|].
  intros q. rewrite elem_of_seqZ. split.
  - intros Hq. pose proof (scan_ended_range s ended l Hinv) as Hr.
    rewrite Forall_forall in Hr. specialize (Hr q Hq). lia.
  - intros Hq. assert (0 <= q < num_processes s) as Hq' by lia.
    specialize (Hall q Hq'). rewrite (scan_finished s ended l Hinv q Hq') in Hall.
    by apply bool_decide_eq_true_1 in Hall.
Qed.

(** ** Work as a sum of allocations *)

Lemma fits_spec s q w :
  fits s q w = true <->
  forall r, 0 <= r < num_resources s -> entry (row (need s) q) r <= entry w r.
Proof. apply le_all_spec. Qed.

Lemma held_cons s q qs r :
  held s (q :: qs) r = entry (row (allocation s) q) r + held s qs r.
Proof. done. Qed.

Lemma held_app s qs1 qs2 r : held s (qs1 ++ qs2) r = held s qs1 r + held s qs2 r.
Proof.
  induction qs1 as [|q qs1 IH]; [done|].
  rewrite <- app_comm_cons, !held_cons, IH. lia.
Qed.

Lemma length_work_after s w qs :
  shaped s -> Z.of_nat (length w) = num_resources s ->
  Forall (fun q => 0 <= q < num_processes s) qs ->
  Z.of_nat (length (work_after s w qs)) = num_resources s.
Proof.
  intros Hs. unfold work_after. revert w.
  induction qs as [|q qs IH]; intros w Hw Hqs; simpl; [done|].
  apply Forall_cons in Hqs as [Hq Hqs].
  destruct (shaped_row_allocation s q Hs Hq) as (_ & Hl & _).
  apply IH; [|done]. unfold grow. rewrite length_vadd; lia.
Qed.

Lemma entry_work_after s w qs r :
  shaped s -> Z.of_nat (length w) = num_resources s ->
  Forall (fun q => 0 <= q < num_processes s) qs ->
  0 <= r < num_resources s ->
  entry (work_after s w qs) r = entry w r + held s qs r.
Proof.
  intros Hs Hw Hqs Hr. unfold work_after. revert w Hw.
  induction qs as [|q qs IH]; intros w Hw; simpl.
  - unfold held, sumZ. simpl. lia.
  - apply Forall_cons in Hqs as [Hq Hqs].
    destruct (shaped_row_allocation s q Hs Hq) as (_ & Hl & _).
    rewrite IH; [|done|unfold grow; rewrite length_vadd; lia].
    rewrite held_cons. unfold grow, vadd. rewrite entry_zip_with by lia. lia.
Qed.

Lemma non_negative_entry m q r :
  non_negative m = true -> 0 <= entry (row m q) r.
Proof.
  intros Hm. unfold non_negative in Hm.
  rewrite <- Is_true_true, forallb_True, Forall_lookup in Hm.
  unfold row. destruct (m !! Z.to_nat q) as [v|] eqn:Hv; simpl; [|done].
  specialize (Hm _ _ Hv). rewrite forallb_True, Forall_lookup in Hm.
  unfold entry. destruct (v !! Z.to_nat r) as [x|] eqn:Hx; simpl; [|done].
  specialize (Hm _ _ Hx). apply Is_true_true in Hm. lia.
Qed.

Lemma held_nonneg s qs r : non_negative (allocation s) = true -> 0 <= held s qs r.
Proof.
  intros Hm. induction qs as [|q qs IH]; [done|].
  rewrite held_cons. pose proof (non_negative_entry _ q r Hm). lia.
Qed.

Lemma held_submseteq s qs1 qs2 r :
  non_negative (allocation s) = true -> qs1 ⊆+ qs2 -> held s qs1 r <= held s qs2 r.
Proof.
  intros Hm Hsub. induction Hsub as [|x l k _ IH|x y l|x l k _ IH|l k1 k2 _ IH1 _ IH2].
  - done.
  - rewrite !held_cons. lia.
  - rewrite !held_cons. lia.
  - rewrite held_cons. pose proof (non_negative_entry _ x r Hm). lia.
  - lia.
Qed.

Lemma held_Permutation s qs1 qs2 r : qs1 ≡ₚ qs2 -> held s qs1 r = held s qs2 r.
Proof.
  intros Hp. induction Hp as [|x l k _ IH|x y l|l k1 k2 _ IH1 _ IH2].
  - done.
  - by rewrite !held_cons, IH.
  - rewrite !held_cons. lia.
  - lia.
Qed.

Lemma first_missing (ended order : list Z) :
  (exists q, q ∈ order /\ q ∉ ended) ->
  exists pre q post, order = pre ++ q :: post /\ (forall x, x ∈ pre -> x ∈ ended) /\
                     q ∉ ended.
Proof.
  induction order as [|x order IH]; intros (q & Hq & Hne).
  - by apply elem_of_nil in Hq.
  - destruct (decide (x ∈ ended)) as [Hx|Hx].
    + destruct IH as (pre & q' & post & -> & Hpre & Hq').
      { exists q. split; [|done]. apply elem_of_cons in Hq as [->|Hq]; done. }
      exists (x :: pre), q', post. split; [done|]. split; [|done].
      intros y Hy. apply elem_of_cons in Hy as [->|Hy]; [done|by apply Hpre].
    + exists [], x, order. split; [done|]. split; [|done].
      intros y Hy. by apply elem_of_nil in Hy.
Qed.

(** When a completion ordering exists and allocations are not negative,
    [isSafe] cannot stop with a role unfinished. *)
Lemma isSafe_order_true s b s' order :
  shaped s -> non_negative (allocation s) = true ->
  completion_order s order ->
  isSafe s = Ret (b, s') -> b = true.
Proof.
  intros Hs Hnn [Hperm Hcomp] Hrun.
  apply isSafe_scan in Hrun as (ended & l & Hinv & Hstuck & ->); [|done].
  apply (forallb_finish l (num_processes s)); [apply Hinv|].
  intros q0 Hq0. destruct (finished l q0) eqn:Hfin; [done|]. exfalso.
  assert (q0 ∉ ended) as Hq0e.
  { intros Hin. rewrite (scan_finished s ended l Hinv q0 Hq0) in Hfin.
    by rewrite bool_decide_eq_true_2 in Hfin. }
  destruct (first_missing ended order) as (pre & q & post & -> & Hpre & Hq).
  { exists q0. split; [|done]. rewrite Hperm. apply elem_of_seqZ. lia. }
  assert (NoDup (pre ++ q :: post)) as Hnd by (rewrite Hperm; apply NoDup_seqZ).
  assert (Forall (fun x => 0 <= x < num_processes s) (pre ++ q :: post)) as Hrange.
  { rewrite Hperm. apply Forall_seqZ. lia. }
  apply Forall_app in Hrange as [Hrpre Hrq]. apply Forall_cons in Hrq as [Hrq _].
  apply NoDup_app in Hnd as (Hndpre & _ & _).
  rewrite completes_app in Hcomp. apply andb_true_iff in Hcomp as [_ Hcomp].
  simpl in Hcomp. apply andb_true_iff in Hcomp as [Hfit _].
  destruct (Hstuck q Hrq) as [Hdone|Hno].
  - rewrite (scan_finished s ended l Hinv q Hrq) in Hdone.
    by apply bool_decide_eq_true_1 in Hdone.
  - assert (fits s q (work l) = true) as Hyes; [|by rewrite Hyes in Hno].
    apply fits_spec. intros r Hr. rewrite fits_spec in Hfit. specialize (Hfit r Hr).
    rewrite (scan_work s ended l Hinv).
    rewrite entry_work_after in Hfit by (done || apply Hs).
    rewrite entry_work_after by (done || apply Hs || apply Hinv).
    assert (held s pre r <= held s ended r); [|lia].
    apply held_submseteq; [done|]. by apply NoDup_submseteq.
Qed.

(** ** [isSafe] is defined when the sums fit *)

Lemma allocated_held s r :
  shaped s -> allocated s r = held s (seqZ 0 (num_processes s)) r.
Proof.
  intros Hs. unfold allocated, held. f_equal.
  pose proof (proj1 (has_shape_spec _ _ _) (shaped_allocation s Hs)) as [Hlen _].
  apply list_eq. intros i. rewrite !list_lookup_fmap.
  destruct (allocation s !! i) as [v|] eqn:Hv; simpl.
  - assert (i < length (allocation s))%nat by (by eapply lookup_lt_Some).
    rewrite lookup_seqZ_lt by lia. simpl. unfold row.
    rewrite Z.add_0_l, Nat2Z.id, Hv. done.
  - apply lookup_ge_None in Hv. rewrite lookup_seqZ_ge by lia. done.
Qed.

Lemma headroom_spec s :
  headroom s = true <->
  forall r, 0 <= r < num_resources s -> entry (available s) r + allocated s r <= INT_MAX.
Proof.
  unfold headroom. rewrite <- Is_true_true, forallb_True, Forall_seqZ.
  split; intros H r Hr; specialize (H r); rewrite Is_true_true, Z.leb_le in *;
    apply H; lia.
Qed.

(** The sums [isSafe] may form stay below the sum over all roles. *)
Lemma grow_in_range s ended l p :
  shaped s -> non_negative (allocation s) = true -> headroom s = true ->
  scan_inv s ended l -> 0 <= p < num_processes s -> p ∉ ended ->
  all_int (grow s p (work l)) = true.
Proof.
  intros Hs Hnn Hroom Hinv Hp Hnew.
  destruct (shaped_row_allocation s p Hs Hp) as (_ & Hl & _).
  pose proof (scan_work_length s ended l Hinv) as Hwl.
  apply all_int_entries. unfold grow. rewrite length_vadd by lia. intros r Hr.
  unfold vadd. rewrite entry_zip_with by lia.
  rewrite (scan_work s ended l Hinv).
  rewrite entry_work_after by (done || apply Hs || apply Hinv || lia).
  pose proof (all_int_entry _ r (shaped_available_int s Hs)) as Hav.
  rewrite (shaped_available s Hs) in Hav. specialize (Hav ltac:(lia)).
  pose proof (held_nonneg s ended r Hnn).
  pose proof (non_negative_entry _ p r Hnn).
  rewrite headroom_spec in Hroom. specialize (Hroom r ltac:(lia)).
  rewrite allocated_held in Hroom by done.
  assert (held s (ended ++ [p]) r <= held s (seqZ 0 (num_processes s)) r) as Hle.
  { apply held_submseteq; [done|]. apply NoDup_submseteq.
    - apply NoDup_app. split; [apply Hinv|]. split; [|apply NoDup_singleton].
      intros x Hx Hx'. apply list_elem_of_singleton in Hx' as ->. done.
    - intros x Hx. apply elem_of_seqZ. apply elem_of_app in Hx as [Hx|Hx].
      + pose proof (scan_ended_range s ended l Hinv) as Hrg.
        rewrite Forall_forall in Hrg. specialize (Hrg x Hx). lia.
      + apply list_elem_of_singleton in Hx as ->. lia. }
  rewrite held_app, held_cons in Hle. change (held s [] r) with 0 in Hle. lia.
Qed.

Lemma for_each_defined {A} (J : A -> Prop) idx (body : Z -> A -> Cmd A) a s :
  (forall i x, i ∈ idx -> J x -> exists x', body i x s = Ret (x', s) /\ J x') ->
  J a -> exists a', for_each idx body a s = Ret (a', s) /\ J a'.
Proof.
  revert a. induction idx as [|i idx IH]; intros a Hbody Ha; simpl.
  - by exists a.
  - destruct (Hbody i a) as (x & Hx & HJ); [left|done|].
    destruct (IH x) as (a' & Ha' & HJ'); [|done|].
    + intros j y Hj. apply Hbody. by right.
    + exists a'. split; [|done]. unfold bind. by rewrite Hx.
Qed.

Lemma while_defined {A} (J : A -> Prop) fuel cond (body : A -> Cmd A) a s :
  (forall x, J x -> exists x', body x s = Ret (x', s) /\ J x') ->
  J a -> while_ fuel cond body a s <> NoFuel ->
  exists a', while_ fuel cond body a s = Ret (a', s).
Proof.
  intros Hbody. revert a. induction fuel as [|fuel IH]; intros a Ha Hne; simpl in *.
  - destruct (cond a); [done|]. by exists a.
  - destruct (cond a); [|by exists a].
    destruct (Hbody a Ha) as (x & Hx & HJ). unfold bind in *. rewrite Hx in *.
    by apply IH.
Qed.

Lemma scan_pass_defined s ended l :
  shaped s -> non_negative (allocation s) = true -> headroom s = true ->
  scan_inv s ended l ->
  exists l', scan_pass l s = Ret (l', s) /\ exists ended', scan_inv s ended' l'.
Proof.
  intros Hs Hnn Hroom Hinv. unfold scan_pass, bind at 1, load at 1.
  apply (for_each_defined (fun x => exists e, scan_inv s e x)).
  - intros p x Hp [e He]. apply elem_of_seqZ in Hp.
    assert (0 <= p < num_processes s) as Hp' by lia.
    assert (exists x', try_finish p x s = Ret (x', s)) as [x' Hx'].
    { destruct (finished x p || negb (fits s p (work x))) eqn:Hcase.
      - exists x. apply try_finish_Ret; [done|done|apply He..|]. by rewrite Hcase.
      - eexists. apply try_finish_Ret; [done|done|apply He..|]. rewrite Hcase.
        split; [done|]. split; [|done].
        apply orb_false_iff in Hcase as [Hfin _].
        apply (grow_in_range s e x p); try done.
        intros Hin. rewrite (scan_finished s e x He p Hp') in Hfin.
        by rewrite bool_decide_eq_true_2 in Hfin. }
    exists x'. split; [done|].
    apply (try_finish_scan_inv s p x x' s e []) in Hx' as (_ & Hinv' & _); try done.
    intros _ q Hq. by apply elem_of_nil in Hq.
  - exists ended. by apply scan_inv_progress.
Qed.

Lemma isSafe_defined s :
  shaped s -> non_negative (allocation s) = true -> headroom s = true ->
  exists b, isSafe s = Ret (b, s).
Proof.
  intros Hs Hnn Hroom.
  destruct (while_defined (fun x => exists e, scan_inv s e x)
              (S (Z.to_nat (num_processes s))) progress scan_pass
              (mkLocals (available s) (replicate (Z.to_nat (num_processes s)) false) true) s)
    as [l Hl].
  - intros x [e He]. by apply (scan_pass_defined s e).
  - exists []. by apply scan_inv_initial.
  - apply while_scan_terminates. rewrite unfinished_initial. lia.
  - exists (forallb id (finish l)). unfold isSafe, isSafe_within, bind, load.
    by rewrite Hl.
Qed.

(** ** Safety is the existence of a completion ordering *)

(** C4.  On a well-formed ledger whose [need] and [allocation] entries are
    not negative, [isSafe] returns [true] exactly when some ordering of all
    roles lets each role in turn find [need[p] <= work], with [work]
    starting as [available] and growing by [allocation[p]] as role [p]
    completes; and [isSafe] does return when [available] plus all
    allocations fits in an [int], so that on such ledgers returning
    [true] and the existence of an ordering are the same. *)
Theorem isSafe_iff_completion_order s :
  well_formed s = true ->
  non_negative (need s) = true ->
  non_negative (allocation s) = true ->
  (forall b s', isSafe s = Ret (b, s') ->
     (b = true <-> exists order, completion_order s order)) /\
  (headroom s = true -> exists b, isSafe s = Ret (b, s)) /\
  (headroom s = true ->
     (isSafe s = Ret (true, s) <-> exists order, completion_order s order)).
Proof.
  intros Hwf _ Hnn. apply well_formed_shaped in Hwf.
  assert (forall b s', isSafe s = Ret (b, s') ->
            (b = true <-> exists order, completion_order s order)) as Hiff.
  { intros b s' Hrun. split.
    - intros ->. by apply (isSafe_true_order s s').
    - intros [order Horder]. by apply (isSafe_order_true s b s' order). }
  split; [done|]. split.
  - intros Hroom. by apply isSafe_defined.
  - intros Hroom. split.
    + intros Hrun. by apply (Hiff true s).
    + intros Horder. destruct (isSafe_defined s Hwf Hnn Hroom) as [b Hb].
      by rewrite (proj2 (Hiff b s Hb) Horder) in Hb.
Qed.

Lemma isSafe_iff_completion_order_witness :
  (forall b s', isSafe two_roles = Ret (b, s') ->
     (b = true <-> exists order, completion_order two_roles order)) /\
  (headroom two_roles = true -> exists b, isSafe two_roles = Ret (b, two_roles)) /\
  (headroom two_roles = true ->
     (isSafe two_roles = Ret (true, two_roles) <->
      exists order, completion_order two_roles order)).
Proof.
  apply (isSafe_iff_completion_order two_roles); vm_compute; reflexivity.
Defined.

(** ** Releasing keeps a safe ledger safe *)

Lemma completes_spec s w order :
  shaped s -> Z.of_nat (length w) = num_resources s ->
  Forall (fun q => 0 <= q < num_processes s) order ->
  completes s w order = true <->
  forall pre q post, order = pre ++ q :: post ->
    forall r, 0 <= r < num_resources s ->
      entry (row (need s) q) r <= entry w r + held s pre r.
Proof.
  intros Hs. revert w. induction order as [|p order IH]; intros w Hw Hrange; simpl.
  - split; [|done]. intros _ [|] ? ? ?; discriminate.
  - apply Forall_cons in Hrange as [Hp Hrange].
    destruct (shaped_row_allocation s p Hs Hp) as (_ & Hl & _).
    rewrite andb_true_iff, fits_spec, IH; [|unfold grow; rewrite length_vadd; lia|done].
    split.
    + intros [Hfit Hrest] [|p' pre] q post [= ? ?] r Hr; subst.
      * change (held s [] r) with 0. specialize (Hfit r Hr). lia.
      * specialize (Hrest pre q post eq_refl r Hr). rewrite held_cons.
        unfold grow, vadd in Hrest. rewrite entry_zip_with in Hrest by lia. lia.
    + intros H. split.
      * intros r Hr. specialize (H [] p order eq_refl r Hr).
        change (held s [] r) with 0 in H. lia.
      * intros pre q post -> r Hr. specialize (H (p :: pre) q post eq_refl r Hr).
        rewrite held_cons in H. unfold grow, vadd. rewrite entry_zip_with by lia. lia.
Qed.

Lemma isSafe_true_headroom s s' :
  shaped s -> isSafe s = Ret (true, s') -> headroom s = true.
Proof.
  intros Hs Hrun. apply isSafe_scan in Hrun as (ended & l & Hinv & _ & Hall); [|done].
  symmetry in Hall.
  rewrite (forallb_finish l (num_processes s)) in Hall by apply Hinv.
  assert (ended ≡ₚ seqZ 0 (num_processes s)) as Hperm.
  { apply NoDup_Permutation; [apply Hinv | apply NoDup_seqZ|].
    intros q. rewrite elem_of_seqZ. split.
    - intros Hq. pose proof (scan_ended_range s ended l Hinv) as Hr.
      rewrite Forall_forall in Hr. specialize (Hr q Hq). lia.
    - intros Hq. assert (0 <= q < num_processes s) as Hq' by lia.
      specialize (Hall q Hq'). rewrite (scan_finished s ended l Hinv q Hq') in Hall.
      by apply bool_decide_eq_true_1 in Hall. }
  apply headroom_spec. intros r Hr.
  rewrite allocated_held by done. rewrite <- (held_Permutation s _ _ r Hperm).
  pose proof (all_int_entry _ r (scan_work_int s ended l Hinv)) as Hb.
  rewrite (scan_work_length s ended l Hinv) in Hb. specialize (Hb Hr).
  rewrite (scan_work s ended l Hinv) in Hb.
  rewrite entry_work_after in Hb by (done || apply Hs || apply Hinv). lia.
Qed.

Lemma non_negative_spec m :
  non_negative m = true <->
  forall i v j x, m !! i = Some v -> v !! j = Some x -> 0 <= x.
Proof.
  unfold non_negative. rewrite <- Is_true_true, forallb_True, Forall_lookup. split.
  - intros H i v j x Hv Hx. specialize (H i v Hv).
    rewrite forallb_True, Forall_lookup in H. specialize (H j x Hx).
    apply Is_true_true in H. lia.
  - intros H i v Hv. rewrite forallb_True, Forall_lookup. intros j x Hx.
    apply Is_true_true. specialize (H i v j x Hv Hx). lia.
Qed.

Lemma forallb_nonneg_entry v r :
  forallb (fun x => 0 <=? x) v = true -> 0 <= entry v r.
Proof.
  rewrite <- Is_true_true, forallb_True, Forall_lookup. intros H. unfold entry.
  destruct (v !! Z.to_nat r) as [x|] eqn:Hx; simpl; [|done].
  specialize (H _ _ Hx). apply Is_true_true in H. lia.
Qed.

Section release.
Variables (p : Z) (rel : list Z) (s : BankersAlgorithm).
Hypothesis Hs : shaped s.
Hypothesis Hp : 0 <= p < num_processes s.
Hypothesis Hlen : Z.of_nat (length rel) = num_resources s.

Lemma released_available r :
  0 <= r < num_resources s ->
  entry (available (released p rel s)) r = entry (available s) r + entry rel r.
Proof.
  intros Hr. simpl. unfold vadd. pose proof (shaped_available s Hs).
  rewrite entry_zip_with; [done|lia..].
Qed.

Lemma released_allocation q r :
  0 <= q < num_processes s -> 0 <= r < num_resources s ->
  entry (row (allocation (released p rel s)) q) r =
  entry (row (allocation s) q) r - (if decide (q = p) then entry rel r else 0).
Proof.
  intros Hq Hr. simpl.
  pose proof (proj1 (has_shape_spec _ _ _) (shaped_allocation s Hs)) as [Hall _].
  destruct (shaped_row_allocation s p Hs Hp) as (_ & Hl & _).
  case_decide as Heq.
  - subst. rewrite row_alter by lia. unfold vsub. rewrite entry_zip_with; [done|lia..].
  - rewrite row_alter_ne by lia. lia.
Qed.

Lemma released_need q r :
  0 <= q < num_processes s -> 0 <= r < num_resources s ->
  entry (row (need (released p rel s)) q) r =
  entry (row (need s) q) r + (if decide (q = p) then entry rel r else 0).
Proof.
  intros Hq Hr. simpl.
  pose proof (proj1 (has_shape_spec _ _ _) (shaped_need s Hs)) as [Hall _].
  destruct (shaped_row_need s p Hs Hp) as (_ & Hl & _).
  case_decide as Heq.
  - subst. rewrite row_alter by lia. unfold vadd. rewrite entry_zip_with; [done|lia..].
  - rewrite row_alter_ne by lia. lia.
Qed.

Lemma released_held qs r :
  NoDup qs -> Forall (fun q => 0 <= q < num_processes s) qs ->
  0 <= r < num_resources s ->
  held (released p rel s) qs r =
  held s qs r - (if decide (p ∈ qs) then entry rel r else 0).
Proof.
  intros Hnd Hrange Hr. induction qs as [|q qs IH].
  - rewrite decide_False by apply not_elem_of_nil. change (held _ [] r) with 0. lia.
  - apply NoDup_cons in Hnd as [Hq Hnd]. apply Forall_cons in Hrange as [Hq' Hrange].
    rewrite !held_cons, IH, released_allocation by done.
    destruct (decide (q = p)) as [->|Hne].
    + rewrite decide_False by done. rewrite decide_True by left. lia.
    + destruct (decide (p ∈ qs)) as [Hin|Hin].
      * rewrite decide_True by (by right). lia.
      * rewrite decide_False; [lia|]. rewrite elem_of_cons. intros [?|?]; done.
Qed.
End release.

Lemma zero_is_int : INT_MIN <= 0 <= INT_MAX.
Proof. by apply is_int_true. Qed.

Lemma held_member s qs q r :
  non_negative (allocation s) = true -> q ∈ qs ->
  entry (row (allocation s) q) r <= held s qs r.
Proof.
  intros Hnn Hq. apply list_elem_of_split in Hq as (pre & post & ->).
  rewrite held_app, held_cons.
  pose proof (held_nonneg s pre r Hnn). pose proof (held_nonneg s post r Hnn). lia.
Qed.

Lemma release_keeps_order p rel s order :
  shaped s -> non_negative (allocation s) = true ->
  0 <= p < num_processes s ->
  Z.of_nat (length rel) = num_resources s ->
  forallb (fun x => 0 <=? x) rel = true ->
  le_all (num_resources s) rel (row (allocation s) p) = true ->
  headroom s = true ->
  completion_order s order ->
  representable p (released p rel s) = true /\
  non_negative (allocation (released p rel s)) = true /\
  headroom (released p rel s) = true /\
  (shaped (released p rel s) -> completion_order (released p rel s) order).
Proof.
  intros Hs Hnn Hp Hlen Hpos Hle Hroom [Hperm Hcomp].
  rewrite le_all_spec in Hle. rewrite headroom_spec in Hroom.
  pose proof (shaped_available s Hs) as Hav.
  destruct (shaped_row_allocation s p Hs Hp) as (Har & Harlen & Harint).
  destruct (shaped_row_need s p Hs Hp) as (Hnr & Hnrlen & Hnrint).
  pose proof (proj1 (has_shape_spec _ _ _) (shaped_allocation s Hs)) as [Hall _].
  pose proof (proj1 (has_shape_spec _ _ _) (shaped_need s Hs)) as [Hndl _].
  assert (NoDup order) as Hnd by (rewrite Hperm; apply NoDup_seqZ).
  assert (Forall (fun q => 0 <= q < num_processes s) order) as Hrange.
  { rewrite Hperm. apply Forall_seqZ. lia. }
  assert (p ∈ order) as Hin by (rewrite Hperm; apply elem_of_seqZ; lia).
  rewrite (completes_spec s (available s) order Hs Hav Hrange) in Hcomp.
  assert (forall r, 0 <= r < num_resources s ->
            entry (available s) r + held s order r <= INT_MAX) as Hsum.
  { intros r Hr. specialize (Hroom r Hr). rewrite allocated_held in Hroom by done.
    by rewrite (held_Permutation s _ _ r Hperm). }
  split; [|split; [|split]].
  - unfold representable. rewrite !andb_true_iff, !all_int_entries. simpl.
    rewrite !row_alter by lia. rewrite !length_vsub, !length_vadd by lia.
    unfold vadd, vsub. split; [split|]; intros r Hr; rewrite entry_zip_with by lia.
    + pose proof (all_int_entry _ r (shaped_available_int s Hs) ltac:(lia)).
      pose proof (forallb_nonneg_entry rel r Hpos).
      pose proof (held_member s order p r Hnn Hin).
      specialize (Hle r ltac:(lia)). specialize (Hsum r ltac:(lia)). lia.
    + pose proof (all_int_entry _ r Harint ltac:(lia)).
      pose proof (forallb_nonneg_entry rel r Hpos).
      pose proof zero_is_int.
      specialize (Hle r ltac:(lia)). lia.
    + pose proof (all_int_entry _ r Hnrint ltac:(lia)).
      pose proof (forallb_nonneg_entry rel r Hpos).
      specialize (Hle r ltac:(lia)). specialize (Hsum r ltac:(lia)).
      apply list_elem_of_split in Hin as (pre & post & Hsplit).
      specialize (Hcomp pre p post Hsplit r ltac:(lia)).
      rewrite Hsplit, held_app, held_cons in Hsum.
      pose proof (held_nonneg s post r Hnn). lia.
  - apply non_negative_spec. simpl. intros i v j x Hv Hx.
    rewrite non_negative_spec in Hnn.
    destruct (decide (i = Z.to_nat p)) as [->|Hne].
    + rewrite list_lookup_alter_eq, Har in Hv. simpl in Hv. simplify_eq.
      unfold vsub in Hx. apply lookup_zip_with_Some in Hx as (a & q & -> & Ha & Hq).
      assert (j < length rel)%nat by (by eapply lookup_lt_Some).
      specialize (Hle (Z.of_nat j) ltac:(lia)). unfold entry in Hle.
      rewrite Nat2Z.id, Ha, Hq in Hle. simpl in Hle. lia.
    + rewrite list_lookup_alter_ne in Hv by done. by eapply Hnn.
  - apply headroom_spec. simpl. intros r Hr.
    unfold allocated. simpl. rewrite (sumZ_alter _ _ _ _ _ Har).
    unfold vadd, vsub. rewrite !entry_zip_with by lia.
    specialize (Hroom r Hr). unfold allocated in Hroom. lia.
  - intros Hs'. split; [done|].
    apply (completes_spec (released p rel s)); [done| |done|].
    + simpl. rewrite length_vadd; lia.
    + intros pre q post Hsplit r Hr. simpl in Hr.
      specialize (Hcomp pre q post Hsplit r Hr).
      rewrite Hsplit in Hnd, Hrange.
      apply Forall_app in Hrange as [Hrpre Hrq]. apply Forall_cons in Hrq as [Hrq _].
      pose proof Hnd as Hnd'.
      apply NoDup_app in Hnd as (Hndpre & Hdisj & _).
      rewrite released_need, released_available, released_held by done.
      pose proof (forallb_nonneg_entry rel r Hpos).
      destruct (decide (q = p)) as [->|Hne].
      * rewrite decide_False; [lia|]. intros Hpre. apply (Hdisj p Hpre). by left.
      * destruct (decide (p ∈ pre)); lia.
Qed.

(** C7, with the condition that makes it true.  On a well-formed ledger
    whose allocations are not negative and on which [isSafe] returns
    [true], releasing from role [p] a vector [rel] with
    [0 <= rel[r] <= allocation[p][r]] is defined and leaves a ledger on
    which [isSafe] returns [true] again. *)
Theorem release_preserves_safety p rel s :
  well_formed s = true ->
  non_negative (allocation s) = true ->
  0 <= p < num_processes s ->
  Z.of_nat (length rel) = num_resources s ->
  forallb (fun x => 0 <=? x) rel = true ->
  le_all (num_resources s) rel (row (allocation s) p) = true ->
  isSafe s = Ret (true, s) ->
  releaseResources p rel s = Ret (tt, released p rel s) /\
  isSafe (released p rel s) = Ret (true, released p rel s).
Proof.
  intros Hwf Hnn Hp Hlen Hpos Hle Hsafe. apply well_formed_shaped in Hwf.
  pose proof (isSafe_true_headroom s s Hwf Hsafe) as Hroom.
  destruct (isSafe_true_order s s Hwf Hsafe) as [order Horder].
  destruct (release_keeps_order p rel s order) as (Hrep & Hnn' & Hroom' & Horder');
    [done..|].
  pose proof (shaped_released p rel s Hwf Hp Hlen Hrep) as Hs'.
  split; [by apply releaseResources_Ret|].
  destruct (isSafe_defined (released p rel s)) as [b Hb]; [done..|].
  by rewrite (isSafe_order_true _ b _ order Hs' Hnn' (Horder' Hs') Hb) in Hb.
Qed.

Lemma release_preserves_safety_witness :
  releaseResources 1 [1; 0] two_roles_granted =
    Ret (tt, released 1 [1; 0] two_roles_granted) /\
  isSafe (released 1 [1; 0] two_roles_granted) =
    Ret (true, released 1 [1; 0] two_roles_granted).
Proof.
  apply (release_preserves_safety 1 [1; 0] two_roles_granted);
    [vm_compute; reflexivity | vm_compute; reflexivity | simpl; lia | reflexivity
    | reflexivity | vm_compute; reflexivity | vm_compute; reflexivity].
Defined.

(** C7, as stated, fails on a ledger with a negative allocation.  The
    ledger [overdrawn] is reached through the class's own calls and passes
    [isSafe]; role 1 holds one unit and releases it; [isSafe] then returns
    [false]: the freed unit lets role 0 finish first, and role 0 gives
    back a negative amount, which leaves roles 1 and 2 short.  Apart from
    that one negative allocation the ledger is in order: no [need] is
    negative and [available] plus the allocations is the total. *)
Lemma release_breaks_safety :
  (setTotalResources [0] ;; setMaximum 0 [0] ;; setMaximum 1 [1] ;; setMaximum 2 [1] ;;
   releaseResources 0 [1] ;; requestResources 1 [1])
    (mkBankers 1 3 [0] [0] [[0]; [0]; [0]] [[0]; [0]; [0]] [[0]; [0]; [0]]) =
  Ret (true, overdrawn) /\
  well_formed overdrawn = true /\
  isSafe overdrawn = Ret (true, overdrawn) /\
  0 <= entry [1] 0 <= entry (row (allocation overdrawn) 1) 0 /\
  releaseResources 1 [1] overdrawn = Ret (tt, released 1 [1] overdrawn) /\
  isSafe (released 1 [1] overdrawn) = Ret (false, released 1 [1] overdrawn) /\
  non_negative (need overdrawn) = true /\
  conserved overdrawn.
Proof.
  repeat split; try (vm_compute; try reflexivity; discriminate).
  intros r Hr. simpl in Hr. assert (r = 0) as -> by lia. reflexivity.
Qed.

(** ** Well-formedness is kept *)

Lemma all_int_replicate_zero n : all_int (replicate n 0) = true.
Proof.
  apply all_int_spec. intros i x Hx. apply lookup_replicate in Hx as [-> _].
  apply zero_is_int.
Qed.

Lemma well_formed_new resources processes s :
  BankersAlgorithm_new resources processes = Some s -> well_formed s = true.
Proof.
  unfold BankersAlgorithm_new. intros H.
  destruct (Z.ltb_spec resources 0) as [?|Hr]; [done|].
  destruct (Z.ltb_spec processes 0) as [?|Hp]; [done|].
  simpl in H. simplify_eq. apply well_formed_shaped.
  assert (has_shape processes resources
            (replicate (Z.to_nat processes) (replicate (Z.to_nat resources) 0)) = true).
  { apply has_shape_spec. rewrite length_replicate. split; [lia|].
    intros i r Hi. apply lookup_replicate in Hi as [-> _].
    rewrite length_replicate. split; [lia|]. apply all_int_replicate_zero. }
  constructor; simpl; try done.
  - rewrite length_replicate. lia.
  - apply all_int_replicate_zero.
  - rewrite length_replicate. lia.
Qed.

Lemma well_formed_setTotalResources total s u s' :
  well_formed s = true ->
  Z.of_nat (length total) = num_resources s -> all_int total = true ->
  setTotalResources total s = Ret (u, s') -> well_formed s' = true.
Proof.
  rewrite !well_formed_shaped. intros Hs Hlen Hint H.
  unfold setTotalResources in H. inv_cmd. destruct Hs. by constructor.
Qed.

Lemma well_formed_requestResources p req s b s' :
  well_formed s = true -> 0 <= p < num_processes s ->
  Z.of_nat (length req) = num_resources s ->
  requestResources p req s = Ret (b, s') -> well_formed s' = true.
Proof.
  rewrite !well_formed_shaped. intros Hs Hp Hlen H.
  apply requestResources_Ret in H; [|done..].
  destruct (admissible p req s); [|by destruct H as [_ ->]].
  destruct H as (Hrep & _ & ->). destruct b; [|done]. by apply shaped_granted.
Qed.

Lemma well_formed_releaseResources p rel s u s' :
  well_formed s = true -> 0 <= p < num_processes s ->
  Z.of_nat (length rel) = num_resources s ->
  releaseResources p rel s = Ret (u, s') -> well_formed s' = true.
Proof.
  rewrite !well_formed_shaped. intros Hs Hp Hlen H.
  apply releaseResources_Ret in H as [Hrep ->]; [|done..]. by apply shaped_released.
Qed.

(** * Further properties of the ledger *)

(** ** Shapes are kept by every call *)

Lemma row_insert (m : list (list Z)) p v :
  0 <= p < Z.of_nat (length m) -> row (<[Z.to_nat p := v]> m) p = v.
Proof. intros Hp. unfold row. rewrite list_lookup_insert_eq by lia. done. Qed.

Lemma row_insert_ne (m : list (list Z)) p q v :
  0 <= p -> 0 <= q -> p <> q -> row (<[Z.to_nat p := v]> m) q = row m q.
Proof. intros. unfold row. rewrite list_lookup_insert_ne by lia. done. Qed.

Lemma has_shape_insert rows cols m p v :
  has_shape rows cols m = true ->
  Z.of_nat (length v) = cols -> all_int v = true ->
  has_shape rows cols (<[p := v]> m) = true.
Proof.
  rewrite !has_shape_spec. intros [Hlen Hrows] Hv Hint. rewrite length_insert.
  split; [done|]. intros i r Hr. destruct (decide (p = i)) as [->|Hne].
  - assert (i < length m)%nat.
    { apply lookup_lt_Some in Hr. by rewrite length_insert in Hr. }
    rewrite list_lookup_insert_eq in Hr by done. by simplify_eq.
  - rewrite list_lookup_insert_ne in Hr by done. by eapply Hrows.
Qed.

Lemma shaped_with_maximum p md s :
  shaped s -> 0 <= p < num_processes s ->
  Z.of_nat (length md) = num_resources s ->
  all_int (vsub md (row (allocation s) p)) = true ->
  shaped (with_maximum p md s).
Proof.
  intros Hs Hp Hlen Hint.
  destruct (shaped_row_allocation s p Hs Hp) as (_ & Hl & _).
  constructor; simpl; try apply Hs.
  - rewrite length_insert. apply Hs.
  - apply has_shape_insert; [apply Hs| |done]. rewrite length_vsub; lia.
Qed.

Lemma fitting_spec resources processes c :
  fitting resources processes c = true <->
  match c with
  | SetMaximum p v | Request p v | Release p v =>
      0 <= p < processes /\ Z.of_nat (length v) = resources
  end.
Proof.
  destruct c; simpl; rewrite !andb_true_iff, Z.leb_le, Z.ltb_lt, Z.eqb_eq; tauto.
Qed.

(** A call with a fitting role and vector keeps the shape of the ledger. *)
Lemma shaped_perform c s u s' :
  shaped s -> fitting (num_resources s) (num_processes s) c = true ->
  perform c s = Ret (u, s') ->
  shaped s' /\ num_resources s' = num_resources s /\ num_processes s' = num_processes s.
Proof.
  intros Hs Hfit Hrun. apply fitting_spec in Hfit.
  destruct c as [p md|p req|p rel]; destruct Hfit as [Hp Hlen]; simpl in Hrun.
  - apply setMaximum_Ret in Hrun as [Hint ->]; [|done..].
    split; [by apply shaped_with_maximum|done].
  - apply bind_Ret in Hrun as (b & s1 & Hreq & Hret). apply ret_Ret in Hret as [_ ->].
    apply requestResources_Ret in Hreq; [|done..].
    destruct (admissible p req s); [|by destruct Hreq as [_ ->]].
    destruct Hreq as (Hrep & _ & ->). destruct b; [|done].
    split; [by apply shaped_granted|done].
  - apply releaseResources_Ret in Hrun as [Hrep ->]; [|done..].
    split; [by apply shaped_released|done].
Qed.

Lemma shaped_perform_all calls s u s' :
  shaped s -> forallb (fitting (num_resources s) (num_processes s)) calls = true ->
  perform_all calls s = Ret (u, s') ->
  shaped s' /\ num_resources s' = num_resources s /\ num_processes s' = num_processes s.
Proof.
  revert s. induction calls as [|c calls IH]; intros s Hs Hfit Hrun; simpl in *.
  - by apply ret_Ret in Hrun as [_ ->].
  - apply andb_true_iff in Hfit as [Hc Hfit].
    apply bind_Ret in Hrun as (u1 & s1 & Hc1 & Hrun).
    destruct (shaped_perform c s u1 s1 Hs Hc Hc1) as (Hs1 & Hn & HP).
    destruct (IH s1) as (Hs' & Hn' & HP'); [done|by rewrite Hn, HP|done|].
    split; [done|]. split; congruence.
Qed.



(** ** [need] is [maximum - allocation] *)

Lemma demand_consistent_move : kept_by_moves demand_consistent.
Proof.
  intros p amount sign r s
    (Hr & Hp & q & a & arow & al & nrow & nd & Hq & Ha & Har & Hal & Hnr & Hnd & _) Hc.
  intros p' r' Hp' Hr'. specialize (Hc p' r' Hp' Hr'). simpl in *.
  pose proof (lookup_lt_Some _ _ _ Har). pose proof (lookup_lt_Some _ _ _ Hnr).
  destruct (decide (p' = p)) as [->|Hne].
  - rewrite !row_alter by lia.
    rewrite (row_lookup _ _ _ Har), (row_lookup _ _ _ Hnr) in *.
    rewrite !entry_alter by (done || lia). case_decide; lia.
  - rewrite !row_alter_ne by lia. done.
Qed.

Lemma demand_consistent_with_maximum p md s :
  shaped s -> 0 <= p < num_processes s ->
  Z.of_nat (length md) = num_resources s ->
  demand_consistent s -> demand_consistent (with_maximum p md s).
Proof.
  intros Hs Hp Hlen Hc p' r' Hp' Hr'. specialize (Hc p' r' Hp' Hr'). simpl in *.
  destruct (shaped_row_allocation s p Hs Hp) as (_ & Hl & _).
  pose proof (shaped_maximum s Hs). pose proof (shaped_need s Hs) as Hneed.
  apply has_shape_spec in Hneed as [Hneed _].
  destruct (decide (p' = p)) as [->|Hne].
  - rewrite !row_insert by lia. unfold vsub. rewrite entry_zip_with by lia. done.
  - rewrite !row_insert_ne by lia. done.
Qed.

Lemma demand_consistent_perform c s u s' :
  shaped s -> fitting (num_resources s) (num_processes s) c = true ->
  demand_consistent s -> perform c s = Ret (u, s') -> demand_consistent s'.
Proof.
  intros Hs Hfit Hc Hrun. apply fitting_spec in Hfit.
  destruct c as [p md|p req|p rel]; destruct Hfit as [Hp Hlen]; simpl in Hrun.
  - apply setMaximum_Ret in Hrun as [Hint ->]; [|done..].
    by apply demand_consistent_with_maximum.
  - apply bind_Ret in Hrun as (b & s1 & Hreq & Hret). apply ret_Ret in Hret as [_ ->].
    by eapply kept_requestResources; [apply demand_consistent_move|..].
  - by eapply kept_releaseResources; [apply demand_consistent_move|..].
Qed.

Lemma demand_consistent_perform_all calls s u s' :
  shaped s -> forallb (fitting (num_resources s) (num_processes s)) calls = true ->
  demand_consistent s -> perform_all calls s = Ret (u, s') -> demand_consistent s'.
Proof.
  revert s. induction calls as [|c calls IH]; intros s Hs Hfit Hc Hrun; simpl in *.
  - by apply ret_Ret in Hrun as [_ ->].
  - apply andb_true_iff in Hfit as [Hfc Hfit].
    apply bind_Ret in Hrun as (u1 & s1 & Hc1 & Hrun).
    destruct (shaped_perform c s u1 s1 Hs Hfc Hc1) as (Hs1 & Hn1 & HP1).
    apply (IH s1); [done|by rewrite Hn1, HP1| |done].
    by apply (demand_consistent_perform c s u1 s1).
Qed.

(** X2.  On a ledger built by the constructor and used through fitting
    calls only, every entry of [need] is the entry of [maximum] less the
    entry of [allocation], after every call: [setMaximum] recomputes the
    row it declares, and a grant, a rollback and a release move the same
    amount between [allocation] and [need]. *)
Theorem need_is_maximum_less_allocation resources processes total calls s_new s :
  BankersAlgorithm_new resources processes = Some s_new ->
  Z.of_nat (length total) = resources -> all_int total = true ->
  forallb (fitting resources processes) calls = true ->
  (setTotalResources total ;; perform_all calls) s_new = Ret (tt, s) ->
  forall p r, 0 <= p < processes -> 0 <= r < resources ->
    entry (row (need s) p) r =
    entry (row (maximum s) p) r - entry (row (allocation s) p) r.
Proof.
  intros Hnew Hlen Hint Hfit Hrun.
  pose proof (well_formed_new _ _ _ Hnew) as Hwf.
  assert (num_resources s_new = resources /\ num_processes s_new = processes /\
          demand_consistent s_new) as (Hn & HP & Hc).
  { unfold BankersAlgorithm_new in Hnew.
    destruct (Z.ltb_spec resources 0) as [?|Hr]; [done|].
    destruct (Z.ltb_spec processes 0) as [?|Hpr]; [done|].
    simpl in Hnew. injection Hnew as <-. split; [done|]. split; [done|].
    intros p r Hp Hr'. simpl in *.
    assert (row (replicate (Z.to_nat processes) (replicate (Z.to_nat resources) 0)) p
            = replicate (Z.to_nat resources) 0) as ->.
    { apply row_lookup, lookup_replicate_2. lia. }
    rewrite (entry_lookup _ _ 0); [lia|]. apply lookup_replicate_2. lia. }
  apply bind_Ret in Hrun as (u & s0 & Hset & Hcalls).
  assert (well_formed s0 = true) as Hwf0.
  { eapply well_formed_setTotalResources; [done| |done..]. by rewrite Hn. }
  assert (num_resources s0 = resources /\ num_processes s0 = processes /\
          demand_consistent s0) as (Hn0 & HP0 & Hc0).
  { unfold setTotalResources in Hset. inv_cmd. done. }
  apply well_formed_shaped in Hwf0.
  destruct (shaped_perform_all calls s0 tt s Hwf0) as (Hs & Hn' & HP');
    [by rewrite Hn0, HP0|done|].
  assert (demand_consistent s) as Hd.
  { apply (demand_consistent_perform_all calls s0 tt s); [done|by rewrite Hn0, HP0|done..]. }
  intros p r Hp Hr. apply Hd; lia.
Qed.

Lemma need_is_maximum_less_allocation_witness :
  let s := mkBankers 2 2 [2; 1] [1; 0] [[2; 1]; [1; 1]] [[0; 0]; [1; 1]] [[2; 1]; [0; 0]] in
  entry (row (need s) 1) 0 = entry (row (maximum s) 1) 0 - entry (row (allocation s) 1) 0.
Proof.
  intros s.
  refine (need_is_maximum_less_allocation 2 2 [2; 1]
            [SetMaximum 0 [2; 1]; SetMaximum 1 [1; 1];
             Request 0 [1; 0]; Request 1 [1; 1]; Release 0 [1; 0]]
            (mkBankers 2 2 [0; 0] [0; 0] [[0; 0]; [0; 0]] [[0; 0]; [0; 0]] [[0; 0]; [0; 0]])
            s _ _ _ _ _ 1 0 _ _); try lia; vm_compute; reflexivity.
Defined.

(** ** What a granted request leaves *)

Section grant.
Variables (p : Z) (req : list Z) (s : BankersAlgorithm).
Hypothesis Hs : shaped s.
Hypothesis Hp : 0 <= p < num_processes s.
Hypothesis Hlen : Z.of_nat (length req) = num_resources s.

Lemma granted_available r :
  0 <= r < num_resources s ->
  entry (available (granted p req s)) r = entry (available s) r - entry req r.
Proof.
  intros Hr. simpl. unfold vsub. pose proof (shaped_available s Hs).
  rewrite entry_zip_with by lia. done.
Qed.

Lemma granted_allocation r :
  0 <= r < num_resources s ->
  entry (row (allocation (granted p req s)) p) r =
  entry (row (allocation s) p) r + entry req r.
Proof.
  intros Hr. simpl.
  destruct (shaped_row_allocation s p Hs Hp) as (Hrow & Hl & _).
  apply lookup_lt_Some in Hrow.
  rewrite row_alter by lia. unfold vadd. rewrite entry_zip_with by lia. done.
Qed.

Lemma granted_need r :
  0 <= r < num_resources s ->
  entry (row (need (granted p req s)) p) r = entry (row (need s) p) r - entry req r.
Proof.
  intros Hr. simpl.
  destruct (shaped_row_need s p Hs Hp) as (Hrow & Hl & _).
  apply lookup_lt_Some in Hrow.
  rewrite row_alter by lia. unfold vsub. rewrite entry_zip_with by lia. done.
Qed.

End grant.

(** X3.  After a request that was granted, no entry of [available] and
    no entry of the caller's row of [need] is negative, whatever the
    ledger held before; and where the caller's need was its maximum less
    its allocation, its allocation does not exceed its maximum. *)
Theorem granted_request_bounds p req s s' :
  well_formed s = true -> 0 <= p < num_processes s ->
  Z.of_nat (length req) = num_resources s ->
  requestResources p req s = Ret (true, s') ->
  forall r, 0 <= r < num_resources s ->
    0 <= entry (available s') r /\
    0 <= entry (row (need s') p) r /\
    (entry (row (need s) p) r =
       entry (row (maximum s) p) r - entry (row (allocation s) p) r ->
     entry (row (allocation s') p) r <= entry (row (maximum s') p) r).
Proof.
  intros Hs%well_formed_shaped Hp Hlen Hrun r Hr.
  apply requestResources_Ret in Hrun; [|done..].
  destruct (admissible p req s) eqn:Hadm; [|by destruct Hrun].
  destruct Hrun as (_ & _ & ->).
  apply andb_true_iff in Hadm as [Hneed Hav].
  rewrite le_all_spec in Hneed, Hav. specialize (Hneed r Hr). specialize (Hav r Hr).
  rewrite granted_available, granted_need, granted_allocation by done.
  simpl. lia.
Qed.

Lemma granted_request_bounds_witness :
  let s' := mkBankers 2 2 [2; 1] [1; 1] [[2; 1]; [1; 1]] [[1; 0]; [0; 0]] [[1; 1]; [1; 1]] in
  0 <= entry (available s') 0 /\
  0 <= entry (row (need s') 0) 0 /\
  (entry (row (need two_roles) 0) 0 =
     entry (row (maximum two_roles) 0) 0 - entry (row (allocation two_roles) 0) 0 ->
   entry (row (allocation s') 0) 0 <= entry (row (maximum s') 0) 0).
Proof.
  apply (granted_request_bounds 0 [1; 0] two_roles); vm_compute; try reflexivity;
    split; congruence.
Defined.

(** ** A request for nothing *)

Lemma vsub_zero v n : length v = n -> vsub v (replicate n 0) = v.
Proof.
  intros <-. unfold vsub. induction v as [|x v IH]; simpl; [done|].
  f_equal; [lia|done].
Qed.

Lemma vadd_zero v n : length v = n -> vadd v (replicate n 0) = v.
Proof.
  intros <-. unfold vadd. induction v as [|x v IH]; simpl; [done|].
  f_equal; [lia|done].
Qed.

Lemma alter_fixed {A} (f : A -> A) (m : list A) i :
  (forall x, m !! i = Some x -> f x = x) -> alter f i m = m.
Proof.
  intros H. apply list_eq. intros j. destruct (decide (i = j)) as [->|Hne].
  - rewrite list_lookup_alter_eq. destruct (m !! j) as [x|] eqn:Hx; simpl; [|done].
    f_equal. by apply H.
  - by rewrite list_lookup_alter_ne.
Qed.

Lemma granted_zero p s :
  shaped s -> granted p (replicate (Z.to_nat (num_resources s)) 0) s = s.
Proof.
  intros Hs. destruct s as [n P tot av mx al nd]. unfold granted. simpl in *.
  pose proof (shaped_available _ Hs) as Hav.
  pose proof (proj1 (has_shape_spec _ _ _) (shaped_allocation _ Hs)) as [_ Hal].
  pose proof (proj1 (has_shape_spec _ _ _) (shaped_need _ Hs)) as [_ Hnd].
  simpl in *. f_equal.
  - apply vsub_zero. lia.
  - apply alter_fixed. intros x Hx. apply vadd_zero. destruct (Hal _ _ Hx). lia.
  - apply alter_fixed. intros x Hx. apply vsub_zero. destruct (Hnd _ _ Hx). lia.
Qed.

(** X4.  A request for zero units of every resource kind is a probe of
    the current state: where the caller's need and [available] have no
    negative entry, [requestResources] returns what [isSafe] returns on
    the ledger as it stands, and leaves the ledger as it was. *)
Theorem zero_request_probes_safety p s b s' :
  well_formed s = true -> 0 <= p < num_processes s ->
  (forall r, 0 <= r < num_resources s ->
     0 <= entry (row (need s) p) r /\ 0 <= entry (available s) r) ->
  requestResources p (replicate (Z.to_nat (num_resources s)) 0) s = Ret (b, s') <->
  isSafe s = Ret (b, s) /\ s' = s.
Proof.
  intros Hs%well_formed_shaped Hp Hnn. pose proof (shaped_resources s Hs) as Hn.
  rewrite requestResources_Ret; [|done|done|rewrite length_replicate; lia].
  assert (admissible p (replicate (Z.to_nat (num_resources s)) 0) s = true) as ->.
  { apply andb_true_iff. rewrite !le_all_spec.
    split; intros r Hr; destruct (Hnn r Hr);
      (rewrite (entry_lookup _ _ 0); [done|apply lookup_replicate_2; lia]). }
  rewrite granted_zero by done. split.
  - intros (_ & Hsafe & ->). split; [done|by destruct b].
  - intros [Hsafe ->]. split; [by apply representable_shaped|]. split; [done|by destruct b].
Qed.

Lemma zero_request_probes_safety_witness :
  requestResources 1 (replicate (Z.to_nat (num_resources contended)) 0) contended
    = Ret (true, contended) <->
  isSafe contended = Ret (true, contended) /\ contended = contended.
Proof.
  apply (zero_request_probes_safety 1 contended true contended).
  - vm_compute; reflexivity.
  - vm_compute; split; congruence.
  - intros r Hr. assert (r = 0) as -> by (simpl in Hr; lia). vm_compute. split; congruence.
Defined.

(** ** States that are safe at once *)

Lemma identity_order_range n : Forall (fun q => 0 <= q < n) (seqZ 0 n).
Proof. apply Forall_seqZ. intros. lia. Qed.

(** X5.  Where every role's need fits in [available] as it stands, no
    allocation is negative and the sums of [available] and the
    allocations fit an [int], [isSafe] returns true. *)
Theorem isSafe_when_all_fit s :
  well_formed s = true -> non_negative (allocation s) = true -> headroom s = true ->
  (forall p, 0 <= p < num_processes s -> fits s p (available s) = true) ->
  isSafe s = Ret (true, s).
Proof.
  intros Hs%well_formed_shaped Hnn Hroom Hfit.
  destruct (isSafe_defined s Hs Hnn Hroom) as [b Hb]. rewrite Hb. do 2 f_equal.
  apply (isSafe_order_true s b s (seqZ 0 (num_processes s))); [done..| |done].
  split; [done|].
  apply completes_spec; [done|apply Hs|apply identity_order_range|].
  intros pre q post Horder r Hr.
  assert (q ∈ seqZ 0 (num_processes s)) as Hq.
  { rewrite Horder. apply elem_of_app. right. apply elem_of_cons. by left. }
  apply elem_of_seqZ in Hq.
  pose proof (proj1 (fits_spec s q (available s)) (Hfit q ltac:(lia)) r Hr).
  pose proof (held_nonneg s pre r Hnn). lia.
Qed.

Lemma isSafe_when_all_fit_witness : isSafe two_roles = Ret (true, two_roles).
Proof.
  apply (isSafe_when_all_fit two_roles); try (vm_compute; reflexivity).
  intros p Hp. assert (p = 0 \/ p = 1) as [-> | ->] by (simpl in Hp; lia);
    vm_compute; reflexivity.
Defined.

Lemma held_nothing s qs r : nothing_allocated s = true -> held s qs r = 0.
Proof.
  intros Hz. induction qs as [|q qs IH]; [done|].
  rewrite held_cons, IH. unfold nothing_allocated in Hz.
  rewrite <- Is_true_true, forallb_True, Forall_lookup in Hz.
  unfold row. destruct (allocation s !! Z.to_nat q) as [v|] eqn:Hv; simpl; [|done].
  specialize (Hz _ _ Hv). rewrite forallb_True, Forall_lookup in Hz.
  unfold entry. destruct (v !! Z.to_nat r) as [x|] eqn:Hx; simpl; [|done].
  specialize (Hz _ _ Hx). apply Is_true_true in Hz. lia.
Qed.

(** X6.  While no role holds anything -- the state the setters leave,
    before the first grant -- [isSafe] returns true exactly when every
    role's need fits in [available]; a role that declared more than
    exists makes the state unsafe from the start. *)
Theorem isSafe_before_first_grant s :
  well_formed s = true -> nothing_allocated s = true ->
  isSafe s = Ret (true, s) <->
  forall p, 0 <= p < num_processes s -> fits s p (available s) = true.
Proof.
  intros Hs%well_formed_shaped Hz. split.
  - intros Hsafe p Hp.
    destruct (isSafe_true_order s s Hs Hsafe) as (order & Hperm & Hcomp).
    assert (Forall (fun q => 0 <= q < num_processes s) order) as Hrange.
    { rewrite Hperm. apply identity_order_range. }
    rewrite completes_spec in Hcomp; [|done|apply Hs|done].
    assert (p ∈ order) as Hin by (rewrite Hperm; apply elem_of_seqZ; lia).
    apply list_elem_of_split in Hin as (pre & post & Hsplit).
    apply fits_spec. intros r Hr. specialize (Hcomp pre p post Hsplit r Hr).
    rewrite held_nothing in Hcomp by done. lia.
  - intros Hfit.
    assert (non_negative (allocation s) = true) as Hnn.
    { apply non_negative_spec. intros i v j x Hv Hx. unfold nothing_allocated in Hz.
      rewrite <- Is_true_true, forallb_True, Forall_lookup in Hz.
      specialize (Hz _ _ Hv). rewrite forallb_True, Forall_lookup in Hz.
      specialize (Hz _ _ Hx). apply Is_true_true in Hz. lia. }
    assert (headroom s = true) as Hroom.
    { apply headroom_spec. intros r Hr. rewrite allocated_held by done.
      rewrite held_nothing by done.
      pose proof (all_int_entry _ r (shaped_available_int s Hs)) as Hint.
      pose proof (shaped_available s Hs). lia. }
    destruct (isSafe_defined s Hs Hnn Hroom) as [b Hb]. rewrite Hb. do 2 f_equal.
    apply (isSafe_order_true s b s (seqZ 0 (num_processes s))); [done..| |done].
    split; [done|].
    apply completes_spec; [done|apply Hs|apply identity_order_range|].
    intros pre q post Horder r Hr.
    assert (q ∈ seqZ 0 (num_processes s)) as Hq.
    { rewrite Horder. apply elem_of_app. right. apply elem_of_cons. by left. }
    apply elem_of_seqZ in Hq.
    pose proof (proj1 (fits_spec s q (available s)) (Hfit q ltac:(lia)) r Hr).
    rewrite held_nothing by done. lia.
Qed.

Lemma isSafe_before_first_grant_witness :
  isSafe two_roles = Ret (true, two_roles) <->
  forall p, 0 <= p < num_processes two_roles -> fits two_roles p (available two_roles) = true.
Proof. apply (isSafe_before_first_grant two_roles); vm_compute; reflexivity. Defined.

(** * The coordinator *)

Lemma one_unit_Ret res v s s' :
  one_unit res s = Ret (v, s') <->
  res <> NUM_RESOURCE_TYPES /\ v = unit_of res /\ s' = s.
Proof.
  unfold one_unit, unit_of. rewrite update_at_Ret. split.
  - intros (x & x' & _ & Hat & Hret & ->). apply ret_Ret in Hret as [-> ->].
    split; [|done]. by intros ->.
  - intros (Hres & -> & ->). exists 0, 1. by destruct res.
Qed.

Lemma length_unit_of res :
  res <> NUM_RESOURCE_TYPES -> Z.of_nat (length (unit_of res)) = 2.
Proof. by destruct res. Qed.

(** [acquireResource] returns true when the request was granted and the
    wait succeeded; otherwise it returns false with the ledger as it was. *)
Lemma acquireResource_Ret p res w s b s' :
  shaped s -> num_resources s = 2 -> 0 <= p < num_processes s ->
  acquireResource p res w s = Ret (b, s') <->
  res <> NUM_RESOURCE_TYPES /\
  exists ok s1, requestResources p (unit_of res) s = Ret (ok, s1) /\
    b = ok && negb (w =? -1) /\ s' = if b then s1 else s.
Proof.
  intros Hs Hn Hp. unfold acquireResource. rewrite bind_Ret. split.
  - intros (v & s0 & Hv & H). apply one_unit_Ret in Hv as (Hres & -> & ->).
    split; [done|]. apply bind_Ret in H as (ok & s1 & Hreq & H). exists ok, s1.
    split; [done|].
    pose proof Hreq as Hreq'.
    apply requestResources_Ret in Hreq'; [|done|done|by rewrite length_unit_of].
    destruct ok.
    2:{ apply ret_Ret in H as [-> ->]. split; [done|].
        destruct (admissible p (unit_of res) s);
          [by destruct Hreq' as (_ & _ & ?)|by destruct Hreq' as (_ & ?)]. }
    destruct (admissible p (unit_of res) s); [|by destruct Hreq'].
    destruct Hreq' as (Hrep & _ & ->).
    assert ((if w =? -1 then releaseResources p (unit_of res) ;; ret false
             else ret true) (granted p (unit_of res) s) = Ret (b, s')) as H'
      by (by destruct res).
    clear H. destruct (w =? -1); simpl.
    + apply bind_Ret in H' as (u & s2 & Hrel & H'). apply ret_Ret in H' as [-> ->].
      apply releaseResources_Ret in Hrel as [_ ->];
        [|by apply shaped_granted; rewrite ?length_unit_of|done|by rewrite length_unit_of].
      split; [done|]. apply released_granted; [done..|by rewrite length_unit_of].
    + by apply ret_Ret in H' as [-> ->].
  - intros (Hres & ok & s1 & Hreq & -> & ->). exists (unit_of res), s.
    split; [by apply one_unit_Ret|]. apply bind_Ret. exists ok, s1. split; [done|].
    apply requestResources_Ret in Hreq; [|done|done|by rewrite length_unit_of].
    destruct ok.
    2:{ destruct (admissible p (unit_of res) s);
          [by destruct Hreq as (_ & _ & ->)|by destruct Hreq as (_ & ->)]. }
    destruct (admissible p (unit_of res) s); [|by destruct Hreq].
    destruct Hreq as (Hrep & _ & ->).
    assert (releaseResources p (unit_of res) (granted p (unit_of res) s) = Ret (tt, s))
      as Hrel.
    { apply releaseResources_Ret;
        [by apply shaped_granted; rewrite ?length_unit_of|done|by rewrite length_unit_of|].
      rewrite released_granted by (done || by rewrite length_unit_of).
      split; [by apply representable_shaped|done]. }
    destruct res; [| |done]; simpl; destruct (w =? -1); simpl; try done;
      unfold bind; by rewrite Hrel.
Qed.

(** X7.  When [sem_wait] fails after the ledger granted the unit,
    [acquireResource] gives the unit back before it returns: it returns
    false and the ledger is what it was before the call, as after a
    request that was denied. *)
Theorem acquireResource_failed_wait p res s ok s1 :
  well_formed s = true -> num_resources s = 2 -> 0 <= p < num_processes s ->
  res <> NUM_RESOURCE_TYPES ->
  requestResources p (unit_of res) s = Ret (ok, s1) ->
  acquireResource p res (-1) s = Ret (false, s).
Proof.
  intros Hs%well_formed_shaped Hn Hp Hres Hreq.
  apply acquireResource_Ret; [done..|]. split; [done|]. exists ok, s1.
  split; [done|]. by rewrite andb_false_r.
Qed.

Lemma acquireResource_failed_wait_witness :
  acquireResource 1 LANE_SEM (-1) two_roles = Ret (false, two_roles).
Proof.
  apply (acquireResource_failed_wait 1 LANE_SEM two_roles true
           (mkBankers 2 2 [2; 1] [1; 1] [[2; 1]; [1; 1]] [[0; 0]; [1; 0]] [[2; 1]; [0; 1]]));
    vm_compute; (reflexivity || congruence || (split; congruence)).
Defined.

(** X8.  [releaseResource] undoes [acquireResource]: after an
    acquisition that returned true, the release by the same role of the
    same semaphore leaves the ledger the acquisition found. *)
Theorem releaseResource_after_acquireResource p res w s s1 :
  well_formed s = true -> num_resources s = 2 -> 0 <= p < num_processes s ->
  acquireResource p res w s = Ret (true, s1) ->
  releaseResource p res s1 = Ret (tt, s).
Proof.
  intros Hs%well_formed_shaped Hn Hp Hrun.
  apply acquireResource_Ret in Hrun as (Hres & ok & s2 & Hreq & Hb & ->); [|done..].
  symmetry in Hb. apply andb_true_iff in Hb as [-> _].
  apply requestResources_Ret in Hreq; [|done|done|by rewrite length_unit_of].
  destruct (admissible p (unit_of res) s); [|by destruct Hreq].
  destruct Hreq as (Hrep & _ & ->).
  unfold releaseResource. apply bind_Ret. exists (unit_of res), (granted p (unit_of res) s).
  split; [by apply one_unit_Ret|].
  apply releaseResources_Ret;
    [by apply shaped_granted; rewrite ?length_unit_of|done|by rewrite length_unit_of|].
  rewrite released_granted by (done || by rewrite length_unit_of).
  split; [by apply representable_shaped|done].
Qed.

Lemma releaseResource_after_acquireResource_witness :
  releaseResource 1 LANE_SEM
    (mkBankers 2 2 [2; 1] [1; 1] [[2; 1]; [1; 1]] [[0; 0]; [1; 0]] [[2; 1]; [0; 1]])
  = Ret (tt, two_roles).
Proof.
  apply (releaseResource_after_acquireResource 1 LANE_SEM 0 two_roles);
    vm_compute; (reflexivity || (split; congruence)).
Defined.

(** ** One holder at a time *)

Lemma forallb_elem {A} (f : A -> bool) (l : list A) x :
  forallb f l = true -> x ∈ l -> f x = true.
Proof.
  rewrite <- Is_true_true, forallb_True, Forall_forall. intros H Hx.
  by apply Is_true_true, H.
Qed.

Lemma both_semaphores_spec res : res <> NUM_RESOURCE_TYPES -> res ∈ both_semaphores.
Proof.
  intros Hres. unfold both_semaphores.
  destruct res; [apply elem_of_cons; by left| |done].
  apply elem_of_cons. right. apply elem_of_cons. by left.
Qed.

Lemma role_listed p :
  0 <= p < process_number NUM_PROCESSES -> p ∈ seqZ 0 (process_number NUM_PROCESSES).
Proof. intros. apply elem_of_seqZ. lia. Qed.

Lemma initializeBankers_configured s0 s :
  banker = Some s0 -> initializeBankers s0 = Ret (tt, s) -> s = configured.
Proof.
  intros Hnew Hrun. vm_compute in Hnew. injection Hnew as <-.
  vm_compute in Hrun. injection Hrun as <-. reflexivity.
Qed.

Lemma exclusive_ledgers_closed_requests : closed_under_requests exclusive_ledgers = true.
Proof. vm_compute. reflexivity. Qed.

Lemma exclusive_ledgers_closed_releases : closed_under_releases exclusive_ledgers = true.
Proof. vm_compute. reflexivity. Qed.

Lemma exclusive_ledgers_one_holder : forallb one_holder exclusive_ledgers = true.
Proof. vm_compute. reflexivity. Qed.

Lemma exclusive_ledgers_others_denied : others_denied exclusive_ledgers = true.
Proof. vm_compute. reflexivity. Qed.

Lemma exclusive_ledgers_configured :
  forallb (fun s => well_formed s && (num_resources s =? 2) &&
                    (num_processes s =? process_number NUM_PROCESSES))
          exclusive_ledgers = true.
Proof. vm_compute. reflexivity. Qed.

Lemma reachable_listed s : reachable s -> s ∈ exclusive_ledgers.
Proof.
  induction 1 as [s0 s Hnew Hrun|p res b s s' _ IH Hp Hres Hreq
                 |p res u s s' _ IH Hp Hres Hheld Hrel].
  - rewrite (initializeBankers_configured s0 s Hnew Hrun). apply elem_of_cons. by left.
  - pose proof exclusive_ledgers_closed_requests as Hc. unfold closed_under_requests in Hc.
    apply (fun H => forallb_elem _ _ s H IH) in Hc.
    apply (fun H => forallb_elem _ _ p H (role_listed p Hp)) in Hc.
    apply (fun H => forallb_elem _ _ res H (both_semaphores_spec res Hres)) in Hc.
    cbv beta in Hc. rewrite Hreq in Hc. by apply bool_decide_eq_true_1 in Hc.
  - pose proof exclusive_ledgers_closed_releases as Hc. unfold closed_under_releases in Hc.
    apply (fun H => forallb_elem _ _ s H IH) in Hc.
    apply (fun H => forallb_elem _ _ p H (role_listed p Hp)) in Hc.
    apply (fun H => forallb_elem _ _ res H (both_semaphores_spec res Hres)) in Hc.
    cbv beta in Hc. apply Z.leb_le in Hheld. rewrite Hheld, Hrel in Hc.
    by apply bool_decide_eq_true_1 in Hc.
Qed.

(** X9.  The ledger as [initializeBankers] configures it -- one unit of
    each semaphore, every one of the eight roles declaring one of each --
    lets one role at a time hold anything: in every ledger that requests
    and releases of single units can reach, in any order and by any
    roles, two roles that both hold a unit are the same role. *)
Theorem one_holder_at_a_time s p q :
  reachable s ->
  0 <= p < process_number NUM_PROCESSES -> 0 <= q < process_number NUM_PROCESSES ->
  holds s p = true -> holds s q = true -> p = q.
Proof.
  intros Hs%reachable_listed Hp Hq Hhp Hhq.
  pose proof (forallb_elem _ _ s exclusive_ledgers_one_holder Hs) as H.
  unfold one_holder in H.
  apply (fun H => forallb_elem _ _ p H (role_listed p Hp)) in H.
  apply (fun H => forallb_elem _ _ q H (role_listed q Hq)) in H.
  cbv beta in H. rewrite Hhp, Hhq in H. simpl in H. lia.
Qed.

Lemma one_holder_at_a_time_witness : 3 = 3.
Proof.
  apply (one_holder_at_a_time (held_by 3 [1; 0]) 3 3).
  - apply (reachable_request 3 LANE_SEM true configured).
    + apply (reachable_initial
               (mkBankers 2 8 [0; 0] [0; 0] (replicate 8 [0; 0]) (replicate 8 [0; 0])
                          (replicate 8 [0; 0]))); vm_compute; reflexivity.
    + vm_compute. split; congruence.
    + discriminate.
    + vm_compute. reflexivity.
  - vm_compute. split; congruence.
  - vm_compute. split; congruence.
  - vm_compute. reflexivity.
  - vm_compute. reflexivity.
Defined.

(** X10.  On that ledger, while one role holds a unit of either
    semaphore, [acquireResource] by any other role, for either semaphore,
    returns false and changes nothing: a role waits until the holder has
    released, also for the semaphore nobody holds. *)
Theorem acquireResource_denied_while_held s p q res w :
  reachable s ->
  0 <= p < process_number NUM_PROCESSES -> 0 <= q < process_number NUM_PROCESSES ->
  holds s p = true -> p <> q -> res <> NUM_RESOURCE_TYPES ->
  acquireResource q res w s = Ret (false, s).
Proof.
  intros Hs%reachable_listed Hp Hq Hhp Hne Hres.
  pose proof exclusive_ledgers_others_denied as H. unfold others_denied in H.
  apply (fun H => forallb_elem _ _ s H Hs) in H.
  apply (fun H => forallb_elem _ _ p H (role_listed p Hp)) in H.
  apply (fun H => forallb_elem _ _ q H (role_listed q Hq)) in H.
  apply (fun H => forallb_elem _ _ res H (both_semaphores_spec res Hres)) in H.
  cbv beta in H. rewrite Hhp in H. apply Z.eqb_neq in Hne. rewrite Hne in H. simpl in H.
  destruct (requestResources q (unit_of res) s) as [[b s']| |] eqn:Hreq; [|done..].
  apply andb_true_iff in H as [Hb Heq]. apply negb_true_iff in Hb as ->.
  apply bool_decide_eq_true_1 in Heq as ->.
  pose proof (forallb_elem _ _ s exclusive_ledgers_configured Hs) as Hwf.
  apply andb_true_iff in Hwf as [Hwf HP]. apply andb_true_iff in Hwf as [Hwf Hn].
  apply Z.eqb_eq in HP, Hn.
  apply acquireResource_Ret; [by apply well_formed_shaped|done|lia|].
  split; [done|]. by exists false, s.
Qed.

Lemma acquireResource_denied_while_held_witness :
  acquireResource 5 ACTIVE_VEHICLES_SEM 0 (held_by 3 [1; 0])
  = Ret (false, held_by 3 [1; 0]).
Proof.
  apply (acquireResource_denied_while_held (held_by 3 [1; 0]) 3 5).
  - apply (reachable_request 3 LANE_SEM true configured).
    + apply (reachable_initial
               (mkBankers 2 8 [0; 0] [0; 0] (replicate 8 [0; 0]) (replicate 8 [0; 0])
                          (replicate 8 [0; 0]))); vm_compute; reflexivity.
    + vm_compute. split; congruence.
    + discriminate.
    + vm_compute. reflexivity.
  - vm_compute. split; congruence.
  - vm_compute. split; congruence.
  - vm_compute. reflexivity.
  - lia.
  - discriminate.
Defined.

Lemma exclusive_ledgers_alone_granted : alone_granted exclusive_ledgers = true.
Proof. vm_compute. reflexivity. Qed.

(** X11.  On that ledger, while no other role holds anything,
    [acquireResource] for a semaphore the caller does not hold, with a
    wait that succeeds, returns true: a lone caller is never refused,
    and a role that holds one semaphore can take the other. *)
Theorem acquireResource_granted_when_alone s p res w :
  reachable s ->
  0 <= p < process_number NUM_PROCESSES -> res <> NUM_RESOURCE_TYPES ->
  (forall q, 0 <= q < process_number NUM_PROCESSES -> q <> p -> holds s q = false) ->
  entry (row (allocation s) p) (resource_number res) = 0 ->
  w <> -1 ->
  exists s', acquireResource p res w s = Ret (true, s').
Proof.
  intros Hs%reachable_listed Hp Hres Halone Hfree Hw.
  pose proof exclusive_ledgers_alone_granted as H. unfold alone_granted in H.
  apply (fun H => forallb_elem _ _ s H Hs) in H.
  apply (fun H => forallb_elem _ _ p H (role_listed p Hp)) in H.
  apply (fun H => forallb_elem _ _ res H (both_semaphores_spec res Hres)) in H.
  cbv beta in H.
  assert (forallb (fun q => (q =? p) || negb (holds s q))
                  (seqZ 0 (process_number NUM_PROCESSES)) = true) as Hothers.
  { apply Is_true_true, forallb_True, Forall_forall. intros q Hq%elem_of_seqZ.
    apply Is_true_true. destruct (Z.eqb_spec q p) as [|Hne]; [done|].
    rewrite Halone by (done || lia). done. }
  apply Z.eqb_eq in Hfree. rewrite Hothers, Hfree in H. simpl in H.
  destruct (requestResources p (unit_of res) s) as [[b s']| |] eqn:Hreq; [|done..].
  subst b. exists s'.
  pose proof (forallb_elem _ _ s exclusive_ledgers_configured Hs) as Hwf.
  apply andb_true_iff in Hwf as [Hwf HP]. apply andb_true_iff in Hwf as [Hwf Hn].
  apply Z.eqb_eq in HP, Hn.
  apply acquireResource_Ret; [by apply well_formed_shaped|done|lia|].
  split; [done|]. exists true, s'. split; [done|].
  apply Z.eqb_neq in Hw. by rewrite Hw.
Qed.

Lemma acquireResource_granted_when_alone_witness :
  exists s', acquireResource 3 ACTIVE_VEHICLES_SEM 0 (held_by 3 [1; 0]) = Ret (true, s').
Proof.
  apply (acquireResource_granted_when_alone (held_by 3 [1; 0]) 3).
  - apply (reachable_request 3 LANE_SEM true configured).
    + apply (reachable_initial
               (mkBankers 2 8 [0; 0] [0; 0] (replicate 8 [0; 0]) (replicate 8 [0; 0])
                          (replicate 8 [0; 0]))); vm_compute; reflexivity.
    + vm_compute. split; congruence.
    + discriminate.
    + vm_compute. reflexivity.
  - vm_compute. split; congruence.
  - discriminate.
  - intros q Hq Hne.
    assert (q = 0 \/ q = 1 \/ q = 2 \/ q = 4 \/ q = 5 \/ q = 6 \/ q = 7) as Hcases
      by (simpl in Hq; lia).
    destruct Hcases as [-> | [-> | [-> | [-> | [-> | [-> | ->]]]]]];
      vm_compute; reflexivity.
  - vm_compute. reflexivity.
  - lia.
Defined.

(** * The slot counter of [ProjectPhil.cpp] *)

Lemma and_then_Ret {A B} (o : outcome A) (k : A -> outcome B) b :
  and_then o k = Ret b <-> exists a, o = Ret a /\ k a = Ret b.
Proof.
  destruct o as [a| |]; simpl; split; try done.
  - intros H. by exists a.
  - intros (a' & [= <-] & H). done.
  - by intros (? & ? & _).
  - by intros (? & ? & _).
Qed.

Lemma int_Ret z x : int_ z = Ret x <-> INT_MIN <= z <= INT_MAX /\ x = z.
Proof.
  unfold int_. destruct (is_int z) eqn:Hz.
  - apply is_int_true in Hz. split; [by intros [= <-]|by intros [_ ->]].
  - split; [done|]. intros [Hz' _]. apply is_int_true in Hz'. congruence.
Qed.

Section slots.
Import ProjectPhil.
Context {Vehicle : Type}.
Implicit Types (g : globals Vehicle) (queue taken rest : list Vehicle).

Lemma requestResourceForVehicle_Ret g :
  INT_MIN <= allocatedResources g < INT_MAX ->
  requestResourceForVehicle g =
  Ret (if allocatedResources g + 1 <=? totalResources g
       then (true, set_allocatedResources (allocatedResources g + 1) g)
       else (false, g)).
Proof.
  intros Ha. unfold requestResourceForVehicle, checkSafeState, int_.
  assert (is_int (allocatedResources g + 1) = true) as -> by (apply is_int_true; lia).
  simpl. destruct (allocatedResources g + 1 <=? totalResources g); done.
Qed.

Lemma releaseResourceForVehicle_Ret g :
  INT_MIN <= allocatedResources g <= INT_MAX ->
  releaseResourceForVehicle g =
  Ret (if 0 <? allocatedResources g
       then set_allocatedResources (allocatedResources g - 1) g
       else g).
Proof.
  intros Ha. unfold releaseResourceForVehicle, int_.
  destruct (Z.ltb_spec 0 (allocatedResources g)) as [Hpos|Hle]; [|done].
  pose proof zero_is_int.
  assert (is_int (allocatedResources g - 1) = true) as -> by (apply is_int_true; lia).
  done.
Qed.

Lemma drain_Ret queue g :
  INT_MIN <= allocatedResources g < INT_MAX -> totalResources g < INT_MAX ->
  exists taken rest g',
    drain queue g = Ret (rest, g') /\
    queue = taken ++ rest /\
    activeVehicles g' = activeVehicles g ++ taken /\
    allocatedResources g' = allocatedResources g + Z.of_nat (length taken) /\
    totalResources g' = totalResources g /\
    laneQueues g' = laneQueues g /\
    (taken = [] \/ allocatedResources g' <= totalResources g) /\
    (rest = [] \/ totalResources g <= allocatedResources g' \/
     50 <= Z.of_nat (length (activeVehicles g'))).
Proof.
  revert g. induction queue as [|front queue IH]; intros g Ha Ht; simpl.
  - exists [], [], g. repeat split; try done; try (by left). simpl. by rewrite app_nil_r.
    simpl. lia.
  - destruct (Z.ltb_spec (Z.of_nat (length (activeVehicles g))) 50) as [Hroom|Hfull].
    2:{ exists [], (front :: queue), g. repeat split; try done; try (by left).
        - by rewrite app_nil_r.
        - simpl. lia.
        - right. by right. }
    rewrite requestResourceForVehicle_Ret by done. simpl.
    destruct (Z.leb_spec (allocatedResources g + 1) (totalResources g)) as [Hfree|Hnone];
      simpl.
    2:{ exists [], (front :: queue), g. repeat split; try done; try (by left).
        - by rewrite app_nil_r.
        - simpl. lia.
        - right. left. lia. }
    destruct (IH (set_activeVehicles (activeVehicles g ++ [front])
                    (set_allocatedResources (allocatedResources g + 1) g)))
      as (taken & rest & g' & Hrun & Hq & Hact & Hal & Htot & Hlanes & Hbound & Hstop);
      [simpl; lia..|].
    simpl in *. exists (front :: taken), rest, g'. rewrite Hrun.
    repeat split; try done.
    + by rewrite Hq.
    + by rewrite Hact, <- app_assoc.
    + rewrite Hal. simpl. lia.
    + right. destruct Hbound as [->|Hle]; [|done]. simpl in Hal. lia.
Qed.

Lemma serve_Ret lanes g :
  INT_MIN <= allocatedResources g < INT_MAX -> totalResources g < INT_MAX ->
  exists takens lanes' g',
    serve lanes g = Ret (lanes', g') /\
    Forall3 took takens lanes lanes' /\
    activeVehicles g' = activeVehicles g ++ concat takens /\
    allocatedResources g' = allocatedResources g + Z.of_nat (length (concat takens)) /\
    totalResources g' = totalResources g /\
    laneQueues g' = laneQueues g /\
    (concat takens = [] \/ allocatedResources g' <= totalResources g) /\
    Forall (fun lane => vehicles lane.2 = [] \/
                        totalResources g <= allocatedResources g' \/
                        50 <= Z.of_nat (length (activeVehicles g'))) lanes'.
Proof.
  revert g. induction lanes as [|[name lane] lanes IH]; intros g Ha Ht; simpl.
  - exists [], [], g. repeat split; try done; try (by left); try constructor.
    + simpl. by rewrite app_nil_r.
    + simpl. lia.
  - destruct (drain_Ret (vehicles lane) g Ha Ht)
      as (taken & rest & g1 & Hrun & Hq & Hact & Hal & Htot & Hlanes & Hbound & Hstop).
    rewrite Hrun. simpl.
    assert (INT_MIN <= allocatedResources g1 < INT_MAX) as Ha1.
    { destruct Hbound as [->|Hle]; simpl in Hal; lia. }
    destruct (IH g1 Ha1 ltac:(lia))
      as (takens & lanes' & g' & Hrun' & Htook & Hact' & Hal' & Htot' & Hlanes' &
          Hbound' & Hstop').
    rewrite Hrun'. simpl.
    exists (taken :: takens), ((name, mkLaneQueue rest (maxCapacity lane)) :: lanes'), g'.
    repeat split; try done.
    + constructor; [done|done].
    + simpl. by rewrite Hact', Hact, <- app_assoc.
    + simpl. rewrite Hal', Hal, length_app. lia.
    + congruence.
    + congruence.
    + simpl. destruct Hbound' as [Hnil|Hle]; [|right; lia].
      rewrite Hnil in *. simpl in Hal'. rewrite app_nil_r.
      destruct Hbound as [->|Hle]; [by left|right; lia].
    + constructor.
      * simpl. rewrite Hact', length_app.
        destruct Hstop as [?|[?|?]]; [by left|right; left; lia|right; right; lia].
      * rewrite Htot in Hstop'. done.
Qed.

Lemma took_nothing (lanes : list (String.string * LaneQueue Vehicle)) :
  Forall3 took (replicate (length lanes) []) lanes lanes.
Proof. induction lanes as [|l lanes IH]; simpl; constructor; done. Qed.

Lemma concat_replicate_nil (n : nat) : concat (replicate n (@nil Vehicle)) = [].
Proof. induction n as [|n IH]; simpl; done. Qed.

(** X12.  [processQueues] moves vehicles and loses none: each lane
    gives up vehicles from its front only, and the active list grows at
    its end by exactly those vehicles, lane after lane in the order they
    stood; one slot is counted for every vehicle moved.  If either wait
    fails, nothing is moved. *)
Theorem processQueues_moves_front_vehicles wait_lane wait_active g :
  INT_MIN <= allocatedResources g < INT_MAX -> totalResources g < INT_MAX ->
  exists takens g',
    processQueues wait_lane wait_active g = Ret g' /\
    Forall3 took takens (laneQueues g) (laneQueues g') /\
    activeVehicles g' = activeVehicles g ++ concat takens /\
    allocatedResources g' = allocatedResources g + Z.of_nat (length (concat takens)) /\
    totalResources g' = totalResources g /\
    (wait_lane = -1 \/ wait_active = -1 -> g' = g).
Proof.
  intros Ha Ht. unfold processQueues.
  assert (exists takens, Forall3 took takens (laneQueues g) (laneQueues g) /\
            activeVehicles g = activeVehicles g ++ concat takens /\
            allocatedResources g =
              allocatedResources g + Z.of_nat (length (concat takens))) as Hnone.
  { exists (replicate (length (laneQueues g)) []). split; [apply took_nothing|].
    rewrite concat_replicate_nil, app_nil_r. simpl. split; [done|lia]. }
  destruct (Z.eqb_spec wait_lane (-1)) as [Hw1|Hw1].
  { destruct Hnone as (takens & ? & ? & ?). by exists takens, g. }
  destruct (Z.eqb_spec wait_active (-1)) as [Hw2|Hw2].
  { destruct Hnone as (takens & ? & ? & ?). by exists takens, g. }
  destruct (serve_Ret (laneQueues g) g Ha Ht)
    as (takens & lanes' & g' & Hrun & Htook & Hact & Hal & Htot & _).
  rewrite Hrun. simpl. exists takens, (set_laneQueues lanes' g').
  repeat split; try done. intros [?|?]; done.
Qed.

(** X13.  [processQueues] leaves a vehicle waiting only when the
    intersection is full: after a run in which both waits succeeded,
    the counter does not exceed [totalResources] if it did not before,
    and a lane that is not empty means that the counter has reached
    [totalResources] or that fifty vehicles are active. *)
Theorem processQueues_stops_when_full wait_lane wait_active g g' :
  INT_MIN <= allocatedResources g <= totalResources g -> totalResources g < INT_MAX ->
  wait_lane <> -1 -> wait_active <> -1 ->
  processQueues wait_lane wait_active g = Ret g' ->
  allocatedResources g' <= totalResources g' /\
  Forall (fun lane => vehicles lane.2 = [] \/
                      totalResources g' <= allocatedResources g' \/
                      50 <= Z.of_nat (length (activeVehicles g'))) (laneQueues g').
Proof.
  intros Ha Ht Hw1%Z.eqb_neq Hw2%Z.eqb_neq. unfold processQueues. rewrite Hw1, Hw2.
  destruct (serve_Ret (laneQueues g) g ltac:(lia) Ht)
    as (takens & lanes' & g1 & Hrun & _ & _ & Hal & Htot & _ & Hbound & Hstop).
  rewrite Hrun. simpl. intros [= <-]. simpl. rewrite Htot. split; [|done].
  destruct Hbound as [Hnil|Hle]; [|done]. rewrite Hnil in Hal. simpl in Hal. lia.
Qed.

End slots.

Lemma processQueues_moves_front_vehicles_witness :
  let lane := (String.EmptyString, ProjectPhil.mkLaneQueue [7; 8] 10) in
  let g := ProjectPhil.mkGlobals 2 1 [lane] [5] in
  exists takens g',
    ProjectPhil.processQueues 0 0 g = Ret g' /\
    Forall3 ProjectPhil.took takens [lane] (ProjectPhil.laneQueues g') /\
    ProjectPhil.activeVehicles g' = [5] ++ concat takens /\
    ProjectPhil.allocatedResources g' = 1 + Z.of_nat (length (concat takens)) /\
    ProjectPhil.totalResources g' = 2 /\
    (0 = -1 \/ 0 = -1 -> g' = g).
Proof.
  apply (processQueues_moves_front_vehicles 0 0
           (ProjectPhil.mkGlobals 2 1
              [(String.EmptyString, ProjectPhil.mkLaneQueue [7; 8] 10)] [5]));
    vm_compute; (reflexivity || (split; congruence)).
Defined.

Lemma processQueues_stops_when_full_witness :
  let g' := ProjectPhil.mkGlobals 2 2
              [(String.EmptyString, ProjectPhil.mkLaneQueue [8] 10)] [5; 7] in
  ProjectPhil.allocatedResources g' <= ProjectPhil.totalResources g' /\
  Forall (fun lane => ProjectPhil.vehicles lane.2 = [] \/
                      ProjectPhil.totalResources g' <= ProjectPhil.allocatedResources g' \/
                      50 <= Z.of_nat (length (ProjectPhil.activeVehicles g')))
         (ProjectPhil.laneQueues g').
Proof.
  apply (processQueues_stops_when_full 0 0
           (ProjectPhil.mkGlobals 2 1
              [(String.EmptyString, ProjectPhil.mkLaneQueue [7; 8] 10)] [5]));
    vm_compute; (reflexivity || congruence || (split; congruence)).
Defined.

Section leaving.
Import ProjectPhil.
Context {Vehicle : Type}.
Implicit Types (g : globals Vehicle) (vs : list Vehicle).

(** The counter after [k] releases. *)
Lemma leave_Ret (offScreen : Vehicle -> bool) vs g :
  0 <= allocatedResources g <= INT_MAX ->
  leave offScreen vs g =
  Ret (filter (fun veh => offScreen veh = false) vs,
       set_allocatedResources
         (Z.max 0 (allocatedResources g -
                   Z.of_nat (length (filter (fun veh => offScreen veh = true) vs)))) g).
Proof.
  pose proof zero_is_int as Hzero.
  revert g. induction vs as [|veh vs IH]; intros g Ha; simpl.
  - destruct g. unfold set_allocatedResources. simpl in *. do 3 f_equal. lia.
  - rewrite !filter_cons. destruct (offScreen veh) eqn:Hoff.
    + rewrite decide_False by done. rewrite decide_True by done.
      rewrite releaseResourceForVehicle_Ret by lia. simpl.
      destruct (Z.ltb_spec 0 (allocatedResources g)) as [Hpos|Hle].
      * rewrite IH by (simpl; lia). simpl. unfold set_allocatedResources. simpl.
        do 3 f_equal. lia.
      * rewrite IH by lia. unfold set_allocatedResources. simpl. do 3 f_equal. lia.
    + rewrite decide_True by done. rewrite decide_False by done.
      rewrite IH by done. done.
Qed.

(** X14.  The removal at the end of [handleCollisionsAndCleanup] keeps
    the vehicles that are on the screen, in their order, and releases
    one slot for each vehicle it removes; the counter stops at zero
    when more vehicles leave than slots were counted. *)
Theorem removeOffScreen_releases_slots (offScreen : Vehicle -> bool) g :
  0 <= allocatedResources g <= INT_MAX ->
  exists g',
    removeOffScreen offScreen g = Ret g' /\
    activeVehicles g' = filter (fun veh => offScreen veh = false) (activeVehicles g) /\
    allocatedResources g' =
      Z.max 0 (allocatedResources g -
               Z.of_nat (length (filter (fun veh => offScreen veh = true)
                                        (activeVehicles g)))) /\
    totalResources g' = totalResources g /\ laneQueues g' = laneQueues g.
Proof.
  intros Ha. unfold removeOffScreen. rewrite leave_Ret by done. simpl.
  eexists. split; [done|]. done.
Qed.

Lemma length_filter_split (P : Vehicle -> bool) vs :
  (length (filter (fun veh => P veh = false) vs) +
   length (filter (fun veh => P veh = true) vs) = length vs)%nat.
Proof.
  induction vs as [|veh vs IH]; [done|]. rewrite !filter_cons.
  destruct (P veh); simpl; lia.
Qed.

(** X15.  In every state of the program the counter is the number of
    active vehicles, and at most two vehicles are active: the bound of
    fifty in [processQueues] is never what stops a vehicle. *)
Theorem active_vehicles_are_counted g :
  ProjectPhil.reachable g ->
  totalResources g = 2 /\
  allocatedResources g = Z.of_nat (length (activeVehicles g)) /\
  allocatedResources g <= 2.
Proof.
  assert (INT_MAX = 2147483647) as Hmax by done.
  assert (INT_MIN = -2147483648) as Hmin by done.
  induction 1 as [lanes|w1 w2 g g' _ (Ht & Ha & Hle) Hrun
                 |offScreen g g' _ (Ht & Ha & Hle) Hrun
                 |lanes g _ IH|vs g _ (Ht & Ha & Hle) Hlen].
  - done.
  - unfold processQueues in Hrun.
    destruct (w1 =? -1); [by injection Hrun as <-|].
    destruct (w2 =? -1); [by injection Hrun as <-|].
    destruct (serve_Ret (laneQueues g) g ltac:(lia) ltac:(lia))
      as (takens & lanes' & g1 & Hrun1 & _ & Hact & Hal & Htot & _ & Hbound & _).
    rewrite Hrun1 in Hrun. simpl in Hrun. injection Hrun as <-. simpl.
    split; [lia|]. split; [rewrite Hal, Hact, length_app; lia|].
    destruct Hbound as [Hnil|Hfull]; [|lia]. rewrite Hnil in Hal. simpl in Hal. lia.
  - unfold removeOffScreen in Hrun. rewrite leave_Ret in Hrun by lia.
    simpl in Hrun. injection Hrun as <-. simpl.
    pose proof (length_filter_split offScreen (activeVehicles g)).
    split; [lia|]. lia.
  - done.
  - simpl. rewrite Hlen. done.
Qed.

End leaving.

Lemma removeOffScreen_releases_slots_witness :
  exists g',
    ProjectPhil.removeOffScreen (fun veh => veh <? 0) (ProjectPhil.mkGlobals 2 2 [] [-4; 6])
      = Ret g' /\
    ProjectPhil.activeVehicles g' = [6] /\
    ProjectPhil.allocatedResources g' = 1 /\
    ProjectPhil.totalResources g' = 2 /\ ProjectPhil.laneQueues g' = [].
Proof.
  apply (removeOffScreen_releases_slots (fun veh => veh <? 0)
           (ProjectPhil.mkGlobals 2 2 [] [-4; 6])).
  vm_compute. split; congruence.
Defined.

Lemma active_vehicles_are_counted_witness :
  let g := ProjectPhil.mkGlobals 2 1
             [(String.EmptyString, ProjectPhil.mkLaneQueue [] 10)] [7] in
  ProjectPhil.totalResources g = 2 /\
  ProjectPhil.allocatedResources g = Z.of_nat (length (ProjectPhil.activeVehicles g)) /\
  ProjectPhil.allocatedResources g <= 2.
Proof.
  apply active_vehicles_are_counted.
  apply (ProjectPhil.reachable_processQueues 0 0
           (ProjectPhil.mkGlobals 2 0
              [(String.EmptyString, ProjectPhil.mkLaneQueue [7] 10)] [])).
  - apply ProjectPhil.reachable_start.
  - vm_compute. reflexivity.
Defined.

(** * The simulated clocks *)

Lemma carry_loop fuel h m :
  0 <= h < 24 -> 0 <= m <= INT_MAX -> (Z.to_nat (m / 60) <= fuel)%nat ->
  while_do fuel (fun c => 60 <=? MockTime.minute c) MockTime.carry (MockTime.mk h m)
  = Ret (MockTime.mk ((h + m / 60) mod 24) (m mod 60)).
Proof.
  pose proof zero_is_int as Hzero.
  assert (INT_MAX = 2147483647) as Hmax by done.
  revert h m. induction fuel as [|fuel IH]; intros h m Hh Hm Hfuel.
  - assert (0 <= m / 60) by (apply Z.div_pos; lia).
    assert (m / 60 = 0) as Hq by lia.
    assert (m < 60) as Hlt.
    { pose proof (Z.div_mod m 60 ltac:(lia)). pose proof (Z.mod_pos_bound m 60 ltac:(lia)).
      lia. }
    simpl. destruct (Z.leb_spec 60 m) as [?|_]; [lia|].
    rewrite Hq, Z.add_0_r, !Z.mod_small by lia. done.
  - simpl. destruct (Z.leb_spec 60 m) as [Hge|Hlt].
    + unfold MockTime.carry, int_. simpl.
      assert (is_int (m - 60) = true) as -> by (apply is_int_true; lia).
      assert (is_int (h + 1) = true) as -> by (apply is_int_true; lia).
      simpl. rewrite Z.rem_mod_nonneg by lia.
      assert (m / 60 = (m - 60) / 60 + 1) as Hq.
      { replace m with ((m - 60) + 1 * 60) at 1 by lia. by rewrite Z.div_add by lia. }
      assert (0 <= (m - 60) / 60) by (apply Z.div_pos; lia).
      rewrite IH; [| |lia|lia].
      2:{ apply Z.mod_pos_bound. lia. }
      f_equal. f_equal.
      * rewrite Hq. rewrite Zplus_mod_idemp_l. f_equal. lia.
      * replace m with ((m - 60) + 1 * 60) at 2 by lia. by rewrite Z.mod_add by lia.
    + assert (m / 60 = 0) as -> by (apply Z.div_small; lia).
      rewrite Z.add_0_r, !Z.mod_small by lia. done.
Qed.

Lemma minute_of_day_mod h q r :
  0 <= r < 60 ->
  60 * ((h + q) mod 24) + r = (60 * h + (60 * q + r)) mod 1440.
Proof.
  intros Hr.
  pose proof (Z.div_mod (h + q) 24 ltac:(lia)) as Hdiv.
  pose proof (Z.mod_pos_bound (h + q) 24 ltac:(lia)) as Hb.
  apply (Zmod_unique _ _ ((h + q) / 24)); lia.
Qed.

Lemma MockTime_incrementTime_Ret minutes c :
  MockTime.valid c -> 0 <= minutes -> MockTime.minute c + minutes <= INT_MAX ->
  exists c',
    MockTime.incrementTime minutes c = Ret c' /\ MockTime.valid c' /\
    MockTime.minute_of_day c' = (MockTime.minute_of_day c + minutes) mod 1440.
Proof.
  intros [Hh Hm] Hmin Hfit. pose proof zero_is_int as Hzero.
  unfold MockTime.incrementTime, int_.
  assert (is_int (MockTime.minute c + minutes) = true) as -> by (apply is_int_true; lia).
  simpl. set (m := MockTime.minute c + minutes).
  assert (0 <= m / 60 <= m) as Hq.
  { split; [apply Z.div_pos; lia|]. apply Z.div_le_upper_bound; lia. }
  rewrite carry_loop by lia. eexists. split; [done|].
  pose proof (Z.mod_pos_bound (MockTime.hour c + m / 60) 24 ltac:(lia)).
  pose proof (Z.mod_pos_bound m 60 ltac:(lia)).
  split; [done|]. unfold MockTime.minute_of_day. simpl.
  rewrite minute_of_day_mod by done. f_equal.
  pose proof (Z.div_mod m 60 ltac:(lia)). lia.
Qed.


(** X16.  [MockTime::incrementTime] advances a time of day by the given
    minutes and wraps at midnight: for a valid time and a count of
    minutes that is not negative, it returns a valid time whose minute
    of the day is the old one plus the count, modulo 1440. *)
Theorem MockTime_incrementTime_advances minutes c :
  MockTime.valid c -> 0 <= minutes -> MockTime.minute c + minutes <= INT_MAX ->
  exists c',
    MockTime.incrementTime minutes c = Ret c' /\ MockTime.valid c' /\
    MockTime.minute_of_day c' = (MockTime.minute_of_day c + minutes) mod 1440.
Proof. apply MockTime_incrementTime_Ret. Qed.

Lemma MockTime_incrementTime_advances_witness :
  exists c',
    MockTime.incrementTime 45 (MockTime.mk 23 50) = Ret c' /\ MockTime.valid c' /\
    MockTime.minute_of_day c' = (MockTime.minute_of_day (MockTime.mk 23 50) + 45) mod 1440.
Proof.
  apply (MockTime_incrementTime_advances 45 (MockTime.mk 23 50)).
  - vm_compute. repeat split; congruence.
  - lia.
  - vm_compute. congruence.
Defined.

Lemma MockTime_ticks_Ret n c :
  MockTime.valid c ->
  exists c',
    MockTime.ticks n c = Ret c' /\ MockTime.valid c' /\
    MockTime.minute_of_day c' = (MockTime.minute_of_day c + Z.of_nat n) mod 1440.
Proof.
  assert (INT_MAX = 2147483647) as Hmax by done.
  revert c. induction n as [|n IH]; intros c Hc.
  - exists c. split; [done|]. split; [done|].
    rewrite Z.add_0_r, Z.mod_small; [done|].
    destruct Hc. unfold MockTime.minute_of_day. lia.
  - destruct (MockTime_incrementTime_Ret 1 c Hc ltac:(lia)) as (c1 & Hrun & Hc1 & Hday).
    { destruct Hc. lia. }
    destruct (IH c1 Hc1) as (c' & Hrun' & Hc' & Hday').
    exists c'. simpl. rewrite Hrun. simpl. split; [done|]. split; [done|].
    rewrite Hday', Hday, Zplus_mod_idemp_l. f_equal. lia.
Qed.

Lemma MockTime_isPeakHours_window c :
  MockTime.valid c ->
  MockTime.isPeakHours c = true <->
  420 <= MockTime.minute_of_day c < 600 \/ 960 <= MockTime.minute_of_day c < 1200.
Proof.
  intros [Hh Hm]. unfold MockTime.isPeakHours, MockTime.minute_of_day.
  rewrite orb_true_iff, !andb_true_iff, !Z.leb_le. lia.
Qed.

(** X17.  The clock of [main.cpp] starts at midnight and
    [mockTimeThread] adds one minute at a time: after [n] such calls it
    shows minute [n mod 1440] of the day, and [isPeakHours] is true
    exactly from 7:00 to 9:59 and from 16:00 to 19:59. *)
Theorem MockTime_peak_hours_after_ticks n :
  exists c,
    MockTime.ticks n MockTime.initial = Ret c /\
    MockTime.minute_of_day c = Z.of_nat n mod 1440 /\
    (MockTime.isPeakHours c = true <->
     420 <= Z.of_nat n mod 1440 < 600 \/ 960 <= Z.of_nat n mod 1440 < 1200).
Proof.
  destruct (MockTime_ticks_Ret n MockTime.initial) as (c & Hrun & Hc & Hday).
  { unfold MockTime.valid. simpl. lia. }
  exists c. split; [done|]. change (MockTime.minute_of_day MockTime.initial) with 0 in Hday.
  rewrite Z.add_0_l in Hday. split; [done|].
  rewrite <- Hday. by apply MockTime_isPeakHours_window.
Qed.

(** X18.  [MockDateTime::incrementTime] counts whole minutes only: for
    a valid time and a count of seconds that is not negative, it returns
    a valid time whose minute of the day is the old one plus the
    seconds divided by sixty, rounded down, modulo 1440; a call with
    fewer than sixty seconds changes nothing. *)
Theorem MockDateTime_incrementTime_advances seconds c :
  MockDateTime.valid c -> 0 <= seconds <= INT_MAX ->
  exists c',
    MockDateTime.incrementTime seconds c = Ret c' /\ MockDateTime.valid c' /\
    MockDateTime.minute_of_day c' =
      (MockDateTime.minute_of_day c + seconds / 60) mod 1440 /\
    (seconds < 60 -> c' = c).
Proof.
  intros [Hh Hm] Hs. pose proof zero_is_int as Hzero.
  assert (INT_MAX = 2147483647) as Hmax by done.
  assert (INT_MIN = -2147483648) as Hmin by done.
  unfold MockDateTime.incrementTime, int_.
  rewrite Z.quot_div_nonneg by lia.
  assert (0 <= seconds / 60 <= seconds) as Hq.
  { split; [apply Z.div_pos; lia|]. apply Z.div_le_upper_bound; lia. }
  assert (seconds / 60 <= 35791395) as Hq'.
  { apply Z.div_le_upper_bound; lia. }
  set (m := MockDateTime.minute c + seconds / 60).
  assert (is_int m = true) as -> by (apply is_int_true; lia).
  simpl.
  assert (0 <= m / 60 <= m) as Hmq.
  { split; [apply Z.div_pos; lia|]. apply Z.div_le_upper_bound; lia. }
  pose proof (Z.mod_pos_bound m 60 ltac:(lia)) as Hmr.
  pose proof (Z.mod_pos_bound (MockDateTime.hour c + m / 60) 24 ltac:(lia)) as Hhr.
  exists (MockDateTime.mk ((MockDateTime.hour c + m / 60) mod 24) (m mod 60)).
  split; [|split; [done|split]].
  - destruct (Z.leb_spec 60 m) as [Hge|Hlt].
    + rewrite Z.quot_div_nonneg by lia.
      assert (is_int (MockDateTime.hour c + m / 60) = true) as ->
        by (apply is_int_true; lia).
      simpl.
      destruct (Z.leb_spec 24 (MockDateTime.hour c + m / 60)) as [Hday|Hday].
      * by rewrite !Z.rem_mod_nonneg by lia.
      * by rewrite Z.rem_mod_nonneg, (Z.mod_small (_ + _)) by lia.
    + simpl. assert (m / 60 = 0) as -> by (apply Z.div_small; lia).
      rewrite Z.add_0_r, !Z.mod_small by lia.
      destruct (Z.leb_spec 24 (MockDateTime.hour c)); [lia|done].
  - unfold MockDateTime.minute_of_day. simpl.
    rewrite minute_of_day_mod by done. f_equal.
    pose proof (Z.div_mod m 60 ltac:(lia)). lia.
  - intros Hlt. assert (seconds / 60 = 0) as Hz by (apply Z.div_small; lia).
    unfold m. rewrite Hz, Z.add_0_r.
    rewrite (Z.div_small (MockDateTime.minute c)), Z.add_0_r, !Z.mod_small by lia.
    by destruct c.
Qed.

Lemma MockDateTime_incrementTime_advances_witness :
  exists c',
    MockDateTime.incrementTime 3725 (MockDateTime.mk 23 30) = Ret c' /\
    MockDateTime.valid c' /\
    MockDateTime.minute_of_day c' =
      (MockDateTime.minute_of_day (MockDateTime.mk 23 30) + 3725 / 60) mod 1440 /\
    (3725 < 60 -> c' = MockDateTime.mk 23 30).
Proof.
  apply (MockDateTime_incrementTime_advances 3725 (MockDateTime.mk 23 30)).
  - vm_compute. repeat split; congruence.
  - vm_compute. split; congruence.
Defined.

(** X19.  [MockDateTime::isPeakHours] is true, for a valid time,
    exactly from 7:00 to 9:30 and from 16:30 to 20:30, both ends
    included. *)
Theorem MockDateTime_isPeakHours_window c :
  MockDateTime.valid c ->
  MockDateTime.isPeakHours c = true <->
  420 <= MockDateTime.minute_of_day c <= 570 \/
  990 <= MockDateTime.minute_of_day c <= 1230.
Proof.
  intros [Hh Hm]. unfold MockDateTime.isPeakHours, MockDateTime.minute_of_day.
  destruct c as [h m]. simpl in *.
  match goal with |- (if ?b then true else false) = true <-> _ =>
    assert ((if b then true else false) = b) as -> by (by destruct b) end.
  rewrite !orb_true_iff, !andb_true_iff, !Z.ltb_lt, !Z.leb_le, !Z.eqb_eq. lia.
Qed.

Lemma MockDateTime_isPeakHours_window_witness :
  MockDateTime.isPeakHours (MockDateTime.mk 9 30) = true <->
  420 <= MockDateTime.minute_of_day (MockDateTime.mk 9 30) <= 570 \/
  990 <= MockDateTime.minute_of_day (MockDateTime.mk 9 30) <= 1230.
Proof.
  apply (MockDateTime_isPeakHours_window (MockDateTime.mk 9 30)).
  vm_compute. repeat split; congruence.
Defined.

(** * The traffic lights of [main.cpp] *)





(** * Challans *)

Lemma on_violation_cases id mq_send active :
  let r := Challans.on_violation id mq_send active in
  (r.1 = None /\ r.2 = active) \/
  (is_Some r.1 /\ Challans.found_active id active = false /\ r.2 = <[id := true]> active).
Proof.
  unfold Challans.on_violation. simpl.
  destruct (Challans.found_active id active) eqn:Hfound; simpl; [by left|].
  destruct (mq_send =? -1); [by left|]. right. by eauto.
Qed.

Lemma found_active_insert id id' active :
  Challans.found_active id' (<[id := true]> active) =
  if decide (id = id') then true else Challans.found_active id' active.
Proof.
  unfold Challans.found_active. case_decide as Heq.
  - subst. by rewrite lookup_insert_eq.
  - by rewrite lookup_insert_ne.
Qed.

Lemma challanGeneratorProcess_issued received active :
  let r := Challans.challanGeneratorProcess received active in
  NoDup r.1 /\
  (forall id, id ∈ r.1 -> Challans.found_active id active = false) /\
  (forall id, Challans.found_active id r.2 = true <->
              Challans.found_active id active = true \/ id ∈ r.1).
Proof.
  revert active. induction received as [|[id mq_send] received IH]; intros active; simpl.
  - split; [constructor|]. split; [by intros ? ?%elem_of_nil|].
    intros id. split; [by left|]. by intros [?|?%elem_of_nil].
  - destruct (on_violation_cases id mq_send active) as [[Hnone Hsame]|(Hsome & Hnot & Hins)];
      simpl in *.
    + rewrite Hnone, Hsame. apply IH.
    + destruct Hsome as [msg Hmsg]. rewrite Hmsg, Hins.
      destruct (IH (<[id := true]> active)) as (Hnd & Hnew & Hafter). simpl in *.
      split; [|split].
      * constructor; [|done]. intros Hin. apply Hnew in Hin.
        rewrite found_active_insert in Hin. by rewrite decide_True in Hin.
      * intros id' [->|Hin]%elem_of_cons; [done|]. apply Hnew in Hin.
        rewrite found_active_insert in Hin. by case_decide.
      * intros id'. rewrite Hafter, found_active_insert, elem_of_cons.
        case_decide as Heq.
        -- subst. split; [intros _; right; by left|intros _; by left].
        -- split; [intros [?|?]; [by left|right; by right]|].
           intros [?|[?|?]]; [by left|congruence|by right].
Qed.

(** X21.  The challan generator of [main.cpp] issues a vehicle at most
    one challan: over any sequence of violations it receives, whatever
    [mq_send] returns, no vehicle is reported twice, none is reported
    that had an active challan to begin with, and nothing in the loop
    ever makes an active challan inactive again. *)
Theorem challanGeneratorProcess_issues_once received active :
  let r := Challans.challanGeneratorProcess received active in
  NoDup r.1 /\
  (forall id, id ∈ r.1 -> Challans.found_active id active = false) /\
  (forall id, Challans.found_active id active = true ->
              Challans.found_active id r.2 = true).
Proof.
  destruct (challanGeneratorProcess_issued received active) as (Hnd & Hnew & Hafter).
  split; [done|]. split; [done|]. intros id Hid. apply Hafter. by left.
Qed.

(** X22.  A challan whose delivery fails is not recorded: the same
    violation received again is tried again, while one that was
    delivered is not. *)
Theorem on_violation_retries_after_failed_send id mq_send active :
  Challans.found_active id active = false ->
  let first := Challans.on_violation id mq_send active in
  let second := Challans.on_violation id 0 first.2 in
  if mq_send =? -1
  then first = (None, active) /\ is_Some second.1
  else is_Some first.1 /\ second = (None, first.2).
Proof.
  intros Hfound. unfold Challans.on_violation. rewrite Hfound. simpl.
  destruct (mq_send =? -1); simpl.
  - rewrite Hfound. simpl. by eauto.
  - rewrite found_active_insert, decide_True by done. simpl. by eauto.
Qed.

Lemma on_violation_retries_after_failed_send_witness :
  let first := Challans.on_violation "LEA-1234" (-1) ∅ in
  let second := Challans.on_violation "LEA-1234" 0 first.2 in
  first = (None, ∅) /\ is_Some second.1.
Proof.
  apply (on_violation_retries_after_failed_send "LEA-1234" (-1) ∅). vm_compute. reflexivity.
Defined.

Lemma userPortalProcess_silent events p :
  (forall id, Challans.found_active id (Challans.activeChallans p) = false) ->
  forall payments p', Challans.userPortalProcess events p = Ret (payments, p') ->
    payments = [] /\
    (forall id, Challans.found_active id (Challans.activeChallans p') = false).
Proof.
  revert p. induction events as [|[vid mq_send|msg] events IH]; intros p Hp payments p' Hrun;
    simpl in Hrun.
  - by injection Hrun as <- <-.
  - apply and_then_Ret in Hrun as ([pay p1] & Hrest & Hret).
    destruct (IH p Hp pay p1 Hrest) as [-> Hp1].
    unfold Challans.pay_challan in Hret. rewrite Hp in Hret. simpl in Hret.
    by injection Hret as <- <-.
  - apply and_then_Ret in Hrun as (p1 & Hup & Hrest).
    apply (IH p1); [|done]. intros id.
    unfold Challans.on_update in Hup. destruct (Challans.paid msg).
    + apply and_then_Ret in Hup as (total & _ & [= <-]). simpl.
      unfold Challans.found_active. destruct (decide (Challans.vehicleID msg = id)) as [->|].
      * by rewrite lookup_insert_eq.
      * rewrite lookup_insert_ne by done. apply Hp.
    + injection Hup as <-. apply Hp.
Qed.

(** X23.  The user portal of [main.cpp] never delivers a payment.  The
    only value its loop writes to its map of challans is false, so if no
    challan is active in the map when it starts -- the map is empty
    then -- none ever is: whatever updates arrive and whatever
    identifiers are typed in, choice 2 finds no active challan. *)
Theorem userPortalProcess_never_pays events p payments p' :
  (forall id, Challans.found_active id (Challans.activeChallans p) = false) ->
  Challans.userPortalProcess events p = Ret (payments, p') ->
  payments = [] /\
  forall vid mq_send, Challans.pay_challan vid mq_send p' = None.
Proof.
  intros Hp Hrun. destruct (userPortalProcess_silent events p Hp payments p' Hrun) as [-> Hp'].
  split; [done|]. intros vid mq_send. unfold Challans.pay_challan. by rewrite Hp'.
Qed.

Lemma userPortalProcess_never_pays_witness :
  @nil Challans.PaymentMsg = [] /\
  forall vid mq_send,
    Challans.pay_challan vid mq_send (Challans.mkPortal {["LEA-1234" := false]} 1) = None.
Proof.
  apply (userPortalProcess_never_pays
           [Challans.Pay "LEA-1234" 0;
            Challans.Update (Challans.mkChallanUpdateMsg "LEA-1234" false);
            Challans.Update (Challans.mkChallanUpdateMsg "LEA-1234" true);
            Challans.Pay "LEA-1234" 0]
           (Challans.mkPortal ∅ 0)).
  - intros id. reflexivity.
  - vm_compute. reflexivity.
Defined.

(** * A request is not checked for its sign *)

Lemma vsub_opp v d : vsub v (Z.opp <$> d) = vadd v d.
Proof.
  unfold vsub, vadd. revert d. induction v as [|x v IH]; intros [|y d]; simpl; try done.
  f_equal; [lia|apply IH].
Qed.

Lemma vadd_opp v d : vadd v (Z.opp <$> d) = vsub v d.
Proof.
  unfold vsub, vadd. revert d. induction v as [|x v IH]; intros [|y d]; simpl; try done.
  by rewrite IH.
Qed.

Lemma granted_opp p amount s : granted p (Z.opp <$> amount) s = released p amount s.
Proof.
  unfold granted, released. f_equal.
  - apply vsub_opp.
  - apply list_alter_ext; [|done]. intros. apply vadd_opp.
  - apply list_alter_ext; [|done]. intros. apply vsub_opp.
Qed.

Lemma entry_opp v r : entry (Z.opp <$> v) r = - entry v r.
Proof.
  unfold entry. rewrite list_lookup_fmap. by destruct (v !! Z.to_nat r).
Qed.

(** X24.  [requestResources] accepts negative amounts.  On a ledger
    whose [available] and whose caller's need have no negative entry, a
    request for the negation of a vector of amounts that are not
    negative passes both comparisons, and if the state it leads to is
    safe the call returns true and leaves what [releaseResources] would
    leave for those amounts. *)
Theorem negative_request_releases p amount s b s' :
  well_formed s = true -> 0 <= p < num_processes s ->
  Z.of_nat (length amount) = num_resources s ->
  (forall r, 0 <= r < num_resources s ->
     0 <= entry amount r /\ 0 <= entry (row (need s) p) r /\ 0 <= entry (available s) r) ->
  requestResources p (Z.opp <$> amount) s = Ret (b, s') <->
  representable p (released p amount s) = true /\
  isSafe (released p amount s) = Ret (b, released p amount s) /\
  s' = (if b then released p amount s else s).
Proof.
  intros Hs%well_formed_shaped Hp Hlen Hnn.
  rewrite requestResources_Ret; [|done|done|by rewrite length_fmap].
  assert (admissible p (Z.opp <$> amount) s = true) as ->.
  { apply andb_true_iff. rewrite !le_all_spec.
    split; intros r Hr; destruct (Hnn r Hr) as (? & ? & ?); rewrite entry_opp; lia. }
  by rewrite granted_opp.
Qed.

Lemma negative_request_releases_witness :
  requestResources 1 (Z.opp <$> [0; 1]) two_roles_granted
    = Ret (true, released 1 [0; 1] two_roles_granted) <->
  representable 1 (released 1 [0; 1] two_roles_granted) = true /\
  isSafe (released 1 [0; 1] two_roles_granted)
    = Ret (true, released 1 [0; 1] two_roles_granted) /\
  released 1 [0; 1] two_roles_granted = released 1 [0; 1] two_roles_granted.
Proof.
  apply (negative_request_releases 1 [0; 1] two_roles_granted true).
  - vm_compute. reflexivity.
  - vm_compute. split; congruence.
  - vm_compute. reflexivity.
  - intros r Hr. assert (r = 0 \/ r = 1) as [-> | ->] by (simpl in Hr; lia);
      vm_compute; repeat split; congruence.
Defined.
